(** * Shortest-path routing and pivot selection: a verified model

    This development embeds, function by function, the Python sources

      - [Algorithm/Dijkstra/iot_routing_dijkstra.py]  (graph builder, Dijkstra)
      - [Algorithm/Dijkstra/dijistra2.py]             (graph builder with explicit paths)
      - [Algorithm/Dijkstra/FindingPivots.py]         (bounded relaxation, pivots)

    Conventions of the embedding.

      - Python [float] values are modelled by exact rationals [Q]; the value
        [math.inf] that the path engine stores in its distance table is the
        extra constructor [Inf] of [cost].  Rounding, NaN and overflow are
        outside the model.
      - A [dict] is a [gmap], a [set] is a [gset]; the insertion-ordered node
        dictionary handed to the graph builder is an association list, since
        the order of its keys decides the order of neighbour lists.
      - A raised exception is the [Err] constructor of [result]; a [while]
        loop whose number of iterations is not known in advance takes an
        iteration budget and answers [None] when the budget is used up.
      - [math.hypot], a library routine on floats, is a parameter [euclid]
        of the graph builder. *)

From Stdlib Require Import QArith Qabs Qminmax Lqa.
From stdpp Require Import gmap strings list fin_maps.

Set Warnings "-clear-no-such-hyp".

Local Open Scope Q_scope.

(** ** Exceptions and results *)

Inductive error := KeyError | ValueError.

Inductive result (A : Type) :=
| Ok (a : A)
| Err (e : error).
Arguments Ok {A} a.
Arguments Err {A} e.

#[global] Instance result_ret : MRet result := λ A a, Ok a.
#[global] Instance result_bind : MBind result := λ A B k r,
  match r with
  | Ok a => k a
  | Err e => Err e
  end.

(** Subscript [m[key]] on a dictionary: raises [KeyError] on a missing key. *)
Definition subscript `{Countable K} {V} (m : gmap K V) (key : K) : result V :=
  match m !! key with
  | Some v => Ok v
  | None => Err KeyError
  end.

(** ** Costs: a rational or [math.inf] *)

Inductive cost :=
| Fin (q : Q)
| Inf.

Definition cost_eqb (a b : cost) : bool :=
  match a, b with
  | Fin x, Fin y => Qeq_bool x y
  | Inf, Inf => true
  | _, _ => false
  end.

Definition cost_ltb (a b : cost) : bool :=
  match a, b with
  | Fin x, Fin y => match x ?= y with Lt => true | _ => false end
  | Fin _, Inf => true
  | Inf, _ => false
  end.

Arguments cost_eqb : simpl never.
Arguments cost_ltb : simpl never.

(** ** The path engine ([dijkstra] of both source files) *)

Module Dijkstra.

(** A heap entry is the tuple [(d, u)]; tuples compare lexicographically,
    strings by code point. *)
Definition entry : Type := Q * string.

Definition entry_ltb (a b : entry) : bool :=
  match fst a ?= fst b with
  | Lt => true
  | Gt => false
  | Eq => String.ltb (snd a) (snd b)
  end.

(** [heapq] keeps a multiset of entries and hands out a least one.  The
    multiset is kept as a list; [heappop] removes a least entry. *)
Definition heappush (pq : list entry) (e : entry) : list entry := e :: pq.

Fixpoint heappop (pq : list entry) : option (entry * list entry) :=
  match pq with
  | [] => None
  | x :: rest =>
      match heappop rest with
      | None => Some (x, [])
      | Some (m, rest') =>
          if entry_ltb m x then Some (m, x :: rest') else Some (x, rest)
      end
  end.

Record state := State {
  dist : gmap string cost;
  prev : gmap string (option string);
  pq : list entry
}.

(** The body of [for v, w in adj[u]]. *)
Fixpoint relax (banned : gset string) (d : Q) (u : string)
    (nbrs : list (string * Q)) (st : state) : result state :=
  match nbrs with
  | [] => Ok st
  | (v, w) :: rest =>
      if decide (v ∈ banned) then relax banned d u rest st
      else
        let nd := d + w in
        dv ← subscript (dist st) v;
        if cost_ltb (Fin nd) dv then
          relax banned d u rest
            (State (<[v := Fin nd]> (dist st))
                   (<[v := Some u]> (prev st))
                   (heappush (pq st) (nd, v)))
        else relax banned d u rest st
  end.

(** The loop [while pq]; [fuel] bounds the number of iterations. *)
Fixpoint main_loop (fuel : nat) (adj : gmap string (list (string * Q)))
    (goal : string) (banned : gset string) (st : state)
    : option (result state) :=
  match heappop (pq st) with
  | None => Some (Ok st)
  | Some ((d, u), pq') =>
      match fuel with
      | O => None
      | S fuel' =>
          let st := State (dist st) (prev st) pq' in
          match subscript (dist st) u with
          | Err e => Some (Err e)
          | Ok du =>
              if negb (cost_eqb (Fin d) du) || bool_decide (u ∈ banned)
              then main_loop fuel' adj goal banned st
              else if bool_decide (u = goal) then Some (Ok st)
              else
                match nbrs ← subscript adj u; relax banned d u nbrs st with
                | Err e => Some (Err e)
                | Ok st' => main_loop fuel' adj goal banned st'
                end
          end
      end
  end.

(** The loop [while cur is not None] that walks the predecessor links;
    the list is built goal first and reversed by the caller. *)
Fixpoint walk_back (fuel : nat) (prev : gmap string (option string))
    (cur : option string) (path : list string)
    : option (result (list string)) :=
  match cur with
  | None => Some (Ok path)
  | Some c =>
      match fuel with
      | O => None
      | S fuel' =>
          match subscript prev c with
          | Err e => Some (Err e)
          | Ok p => walk_back fuel' prev p (path ++ [c])
          end
      end
  end.

Definition init (adj : gmap string (list (string * Q))) (start : string)
    : state :=
  State (<[start := Fin 0]> ((λ _, Inf) <$> adj))
        ((λ _, None) <$> adj)
        [(0, start)].

Definition finish (fuel : nat) (goal : string) (st : state)
    : option (result (cost * list string)) :=
  match subscript (dist st) goal with
  | Err e => Some (Err e)
  | Ok Inf => Some (Ok (Inf, []))
  | Ok (Fin c) =>
      match walk_back fuel (prev st) (Some goal) [] with
      | None => None
      | Some (Err e) => Some (Err e)
      | Some (Ok path) => Some (Ok (Fin c, reverse path))
      end
  end.

Definition dijkstra (fuel : nat) (adj : gmap string (list (string * Q)))
    (start goal : string) (banned : option (gset string))
    : option (result (cost * list string)) :=
  let banned := default ∅ banned in
  if decide (start ∈ banned ∨ goal ∈ banned) then Some (Ok (Inf, []))
  else if decide (start ∉ dom adj ∨ goal ∉ dom adj) then Some (Ok (Inf, []))
  else
    match main_loop fuel adj goal banned (init adj start) with
    | None => None
    | Some (Err e) => Some (Err e)
    | Some (Ok st) => finish fuel goal st
    end.

End Dijkstra.

(** ** What a route and its cost are *)

Module Route.

(** All edge weights are nonnegative. *)
Definition nonneg_weights (adj : gmap string (list (string * Q))) : Prop :=
  ∀ u nbrs v w, adj !! u = Some nbrs → (v, w) ∈ nbrs → 0 <= w.

(** [walk_cost adj p c]: consecutive vertices of [p] are joined by edges of
    [adj], and [c] is the sum of the weights of these edges; the empty
    sequence and a single vertex have sum [0]. *)
Inductive walk_cost (adj : gmap string (list (string * Q)))
    : list string → Q → Prop :=
| walk_nil : walk_cost adj [] 0
| walk_one v : walk_cost adj [v] 0
| walk_cons u v w nbrs p c :
    adj !! u = Some nbrs → (v, w) ∈ nbrs →
    walk_cost adj (v :: p) c →
    walk_cost adj (u :: v :: p) (w + c).

(** The returned cost is the sum of the weights along the returned
    sequence. *)
Definition cost_is_sum (adj : gmap string (list (string * Q)))
    (c : cost) (p : list string) : Prop :=
  ∃ q q', c = Fin q ∧ walk_cost adj p q' ∧ q' == q.

Definition cost_nonneg (c : cost) : Prop :=
  match c with
  | Fin q => 0 <= q
  | Inf => True
  end.

End Route.


(** ** Pivot selection ([find_pivots] of FindingPivots.py) *)

Module Pivots.

(** Tolerance of the tight-edge test, the literal [1e-12]. *)
Definition tol : Q := 1 # 1000000000000.

Definition Qltb (a b : Q) : bool :=
  match a ?= b with Lt => true | _ => false end.

(** [edges.get(u, [])]. *)
Definition edges_get {A} (edges : gmap Z (list A)) (u : Z) : list A :=
  default [] (edges !! u).

(** Relaxation, the loop [for v, w_uv in edges.get(u, [])] of one vertex
    [u] of the current layer. *)
Fixpoint scan_edges (d_hat : gmap Z Q) (B : cost) (u : Z)
    (nbrs : list (Z * Q)) (Wi : gset Z) : result (gset Z) :=
  match nbrs with
  | [] => Ok Wi
  | (v, w_uv) :: rest =>
      du ← subscript d_hat u;
      dv ← subscript d_hat v;
      if Qle_bool (du + w_uv) dv then
        if cost_ltb (Fin (du + w_uv)) B
        then scan_edges d_hat B u rest ({[v]} ∪ Wi)
        else scan_edges d_hat B u rest Wi
      else scan_edges d_hat B u rest Wi
  end.

(** The loop [for u in Wi_1]. *)
Fixpoint scan_layer (edges : gmap Z (list (Z * Q))) (d_hat : gmap Z Q)
    (B : cost) (us : list Z) (Wi : gset Z) : result (gset Z) :=
  match us with
  | [] => Ok Wi
  | u :: rest =>
      Wi' ← scan_edges d_hat B u (edges_get edges u) Wi;
      scan_layer edges d_hat B rest Wi'
  end.

(** The loop [for _ in range(1, k + 1)] with its early [break]; [n] is the
    number of rounds still to run. *)
Fixpoint relax_rounds (n : nat) (edges : gmap Z (list (Z * Q)))
    (d_hat : gmap Z Q) (B : cost) (W Wi_1 : gset Z) : result (gset Z) :=
  match n with
  | O => Ok W
  | S n' =>
      Wi ← scan_layer edges d_hat B (elements Wi_1) ∅;
      let W := W ∪ Wi in
      if decide (Wi = ∅) then Ok W
      else relax_rounds n' edges d_hat B W Wi
  end.

(** The two [defaultdict]s of the forest. *)
Record forest := Forest {
  children : gmap Z (list Z);
  indeg : gmap Z nat
}.

Definition indeg_get (F : forest) (u : Z) : nat := default 0%nat (indeg F !! u).

(** Forest construction, the inner loop over the edges of one [u] of [W]. *)
Fixpoint forest_edges (d_hat : gmap Z Q) (W : gset Z) (u : Z)
    (nbrs : list (Z * Q)) (F : forest) : result forest :=
  match nbrs with
  | [] => Ok F
  | (v, w_uv) :: rest =>
      if decide (v ∈ W) then
        du ← subscript d_hat u;
        dv ← subscript d_hat v;
        if Qltb (Qabs (du + w_uv - dv)) tol then
          forest_edges d_hat W u rest
            (Forest (<[u := edges_get (children F) u ++ [v]]> (children F))
                    (<[v := S (indeg_get F v)]> (indeg F)))
        else forest_edges d_hat W u rest F
      else forest_edges d_hat W u rest F
  end.

(** The loop [for u in W] of the forest construction. *)
Fixpoint build_forest (edges : gmap Z (list (Z * Q))) (d_hat : gmap Z Q)
    (W : gset Z) (us : list Z) (F : forest) : result forest :=
  match us with
  | [] => Ok F
  | u :: rest =>
      F' ← forest_edges d_hat W u (edges_get edges u) F;
      build_forest edges d_hat W rest F'
  end.

(** The loop [while stack] of [subtree_size].  The Python list [stack] is
    kept top first: [stack.pop()] takes the head and [stack.extend(l)] puts
    the reversed [l] in front. *)
Fixpoint subtree_loop (fuel : nat) (children : gmap Z (list Z))
    (stack : list Z) (visited : gset Z) (count : nat) : option nat :=
  match stack with
  | [] => Some count
  | x :: stack' =>
      match fuel with
      | O => None
      | S fuel' =>
          if decide (x ∈ visited)
          then subtree_loop fuel' children stack' visited count
          else subtree_loop fuel' children
                 (rev (edges_get children x) ++ stack')
                 ({[x]} ∪ visited) (S count)
      end
  end.

Definition subtree_size (fuel : nat) (children : gmap Z (list Z)) (root : Z)
    : option nat :=
  subtree_loop fuel children [root] ∅ 0.

(** The loop [for u in S] that promotes pivots. *)
Fixpoint select_pivots (fuel : nat) (children : gmap Z (list Z))
    (roots : gset Z) (k : Z) (us : list Z) (P : gset Z) : option (gset Z) :=
  match us with
  | [] => Some P
  | u :: rest =>
      if decide (u ∈ roots) then
        match subtree_size fuel children u with
        | None => None
        | Some n =>
            if decide (Z.of_nat n >= k)%Z
            then select_pivots fuel children roots k rest ({[u]} ∪ P)
            else select_pivots fuel children roots k rest P
        end
      else select_pivots fuel children roots k rest P
  end.

Definition fast_path (W S : gset Z) (k : Z) : Prop :=
  (Z.of_nat (size W) > k * Z.max 1 (Z.of_nat (size S)))%Z.

#[global] Instance fast_path_dec W S k : Decision (fast_path W S k).
Proof. unfold fast_path. apply _. Defined.

Definition find_pivots (fuel : nat) (edges : gmap Z (list (Z * Q)))
    (d_hat : gmap Z Q) (S : gset Z) (k : Z) (B : cost)
    : option (result (gset Z * gset Z)) :=
  match relax_rounds (Z.to_nat k) edges d_hat B S S with
  | Err e => Some (Err e)
  | Ok W =>
      if decide (fast_path W S k) then Some (Ok (S, W))
      else
        match build_forest edges d_hat W (elements W) (Forest ∅ ∅) with
        | Err e => Some (Err e)
        | Ok F =>
            let roots := filter (λ u, indeg_get F u = 0%nat) W in
            match select_pivots fuel (children F) roots k (elements S) ∅ with
            | None => None
            | Some P => Some (Ok (P, W))
            end
        end
  end.

End Pivots.

(** ** What the pivots are meant to be *)

Module PivotSpec.

Import Pivots.

(** The edge [x → u] of weight [w], found in the list [nbrs], is tight and
    inside [W]. *)
Definition tight_via (d_hat : gmap Z Q) (W : gset Z) (x u : Z)
    (nbrs : list (Z * Q)) : Prop :=
  x ∈ W ∧ u ∈ W ∧
  ∃ w dx du, (u, w) ∈ nbrs ∧ d_hat !! x = Some dx ∧ d_hat !! u = Some du ∧
             Qabs (dx + w - du) < tol.

(** The tight-edge forest restricted to [W]. *)
Definition tight (edges : gmap Z (list (Z * Q))) (d_hat : gmap Z Q)
    (W : gset Z) (x u : Z) : Prop :=
  tight_via d_hat W x u (edges_get edges x).

(** [R] is the set of vertices reachable from [root] in the forest,
    [root] included. *)
Definition subtree (edges : gmap Z (list (Z * Q))) (d_hat : gmap Z Q)
    (W : gset Z) (root : Z) (R : gset Z) : Prop :=
  ∀ y, y ∈ R ↔ rtc (tight edges d_hat W) root y.

Definition pivot (edges : gmap Z (list (Z * Q))) (d_hat : gmap Z Q)
    (W S : gset Z) (k : Z) (u : Z) : Prop :=
  u ∈ S ∧
  (∀ x, ¬ tight edges d_hat W x u) ∧
  ∃ R, subtree edges d_hat W u R ∧ (Z.of_nat (size R) >= k)%Z.

(** The frontier that the relaxation rounds accumulate, computed without
    raising: an edge one of whose end points has no estimate qualifies for
    nothing. *)
Definition qualifies (d_hat : gmap Z Q) (B : cost) (u : Z) (e : Z * Q)
    : bool :=
  match d_hat !! u, d_hat !! e.1 with
  | Some du, Some dv => Qle_bool (du + e.2) dv && cost_ltb (Fin (du + e.2)) B
  | _, _ => false
  end.

Definition reached (d_hat : gmap Z Q) (B : cost) (u : Z)
    (nbrs : list (Z * Q)) : list Z :=
  (List.filter (qualifies d_hat B u) nbrs).*1.

Definition next_layer (edges : gmap Z (list (Z * Q))) (d_hat : gmap Z Q)
    (B : cost) (us : list Z) : gset Z :=
  list_to_set (flat_map (λ u, reached d_hat B u (edges_get edges u)) us).

Fixpoint frontier_rounds (n : nat) (edges : gmap Z (list (Z * Q)))
    (d_hat : gmap Z Q) (B : cost) (W Wi_1 : gset Z) : gset Z :=
  match n with
  | O => W
  | S n' =>
      let Wi := next_layer edges d_hat B (elements Wi_1) in
      if decide (Wi = ∅) then W ∪ Wi
      else frontier_rounds n' edges d_hat B (W ∪ Wi) Wi
  end.

Definition frontier (edges : gmap Z (list (Z * Q))) (d_hat : gmap Z Q)
    (S : gset Z) (k : Z) (B : cost) : gset Z :=
  frontier_rounds (Z.to_nat k) edges d_hat B S S.

(** [d_hat] has a value for every vertex of [S] and for both end points of
    every edge that leaves a vertex of [W]. *)
Definition estimates_cover (edges : gmap Z (list (Z * Q)))
    (d_hat : gmap Z Q) (S W : gset Z) : Prop :=
  (∀ u, u ∈ S → is_Some (d_hat !! u)) ∧
  (∀ u v w, u ∈ W → (v, w) ∈ edges_get edges u →
            is_Some (d_hat !! u) ∧ is_Some (d_hat !! v)).

End PivotSpec.

(** ** Graph construction *)

(** [adj[key].append(e)]: the subscript raises [KeyError] on a missing key. *)
Definition append_edge (adj : gmap string (list (string * Q)))
    (key : string) (e : string * Q) : result (gmap string (list (string * Q))) :=
  l ← subscript adj key;
  Ok (<[key := l ++ [e]]> adj).

(** [{i: [] for i in ids}]. *)
Definition empty_adj (ids : list string) : gmap string (list (string * Q)) :=
  list_to_map ((λ i, (i, [])) <$> ids).

(** *** [build_graph] of iot_routing_dijkstra.py *)

Module Iot.

Record Node := mkNode { id : string; x : Q; y : Q; r : Q }.

Section Builder.

(** [euclid(a, b) = math.hypot(a.x - b.x, a.y - b.y)]. *)
Variable euclid : Node → Node → Q.

Definition in_range (src dst : Node) : bool := Qle_bool (euclid src dst) (r src).

(** The body of the two nested loops for one pair [(u, v)]. *)
Definition visit_pair (mode : string) (weight_fn : Node → Node → Q)
    (u v : Node) (adj : gmap string (list (string * Q)))
    : result (gmap string (list (string * Q))) :=
  let d := euclid u v in
  if decide (mode = "both"%string) then
    if Qle_bool d (Qmin (r u) (r v)) then
      let w_uv := weight_fn u v in
      let w_vu := weight_fn v u in
      let w := (1 # 2) * (w_uv + w_vu) in
      adj ← append_edge adj (id u) (id v, w);
      append_edge adj (id v) (id u, w)
    else Ok adj
  else if decide (mode = "either"%string) then
    adj ← (if in_range u v then append_edge adj (id u) (id v, weight_fn u v)
           else Ok adj);
    if in_range v u then append_edge adj (id v) (id u, weight_fn v u)
    else Ok adj
  else Err ValueError.

(** [for j in range(i + 1, len(ids))], with [u = nodes[ids[i]]] fixed. *)
Fixpoint inner_loop (mode : string) (weight_fn : Node → Node → Q)
    (u : Node) (vs : list (string * Node))
    (adj : gmap string (list (string * Q)))
    : result (gmap string (list (string * Q))) :=
  match vs with
  | [] => Ok adj
  | (_, v) :: rest =>
      adj' ← visit_pair mode weight_fn u v adj;
      inner_loop mode weight_fn u rest adj'
  end.

(** [for i in range(len(ids))]. *)
Fixpoint outer_loop (mode : string) (weight_fn : Node → Node → Q)
    (nodes : list (string * Node)) (adj : gmap string (list (string * Q)))
    : result (gmap string (list (string * Q))) :=
  match nodes with
  | [] => Ok adj
  | (_, u) :: rest =>
      adj' ← inner_loop mode weight_fn u rest adj;
      outer_loop mode weight_fn rest adj'
  end.

Definition build_graph (nodes : list (string * Node)) (mode : string)
    (weight_fn : Node → Node → Q)
    : result (gmap string (list (string * Q))) :=
  outer_loop mode weight_fn nodes (empty_adj nodes.*1).

End Builder.

End Iot.

(** *** [build_graph] of dijistra2.py *)

Module Dij2.

Record Node := mkNode { id : string; x : Q; y : Q; r : option Q }.

Record Path := mkPath {
  pid : string;
  start_id : string;
  end_id : string;
  length : Q
}.

Section Builder.

Variable euclid : Node → Node → Q.

Definition in_range (src dst : Node) : bool :=
  match r src with
  | None => false
  | Some rs => Qle_bool (euclid src dst) rs
  end.

(** The loop [for p in paths] of mode ['paths']. *)
Fixpoint paths_loop (nodes : list (string * Node)) (undirected : bool)
    (paths : list Path) (adj : gmap string (list (string * Q)))
    : result (gmap string (list (string * Q))) :=
  match paths with
  | [] => Ok adj
  | p :: rest =>
      if decide (start_id p ∉ nodes.*1 ∨ end_id p ∉ nodes.*1) then Err KeyError
      else
        adj ← append_edge adj (start_id p) (end_id p, length p);
        adj ← (if undirected
               then append_edge adj (end_id p) (start_id p, length p)
               else Ok adj);
        paths_loop nodes undirected rest adj
  end.

(** The body of the nested loops of mode ['range'] for one pair. *)
Definition visit_pair (weight_fn : Node → Node → Q) (u v : Node)
    (adj : gmap string (list (string * Q)))
    : result (gmap string (list (string * Q))) :=
  let d := euclid u v in
  let ok_uv := match r u with None => false | Some ru => Qle_bool d ru end in
  let ok_vu := match r v with None => false | Some rv => Qle_bool d rv end in
  if ok_uv && ok_vu then
    let w_uv := weight_fn u v in
    let w_vu := weight_fn v u in
    let w := (1 # 2) * (w_uv + w_vu) in
    adj ← append_edge adj (id u) (id v, w);
    append_edge adj (id v) (id u, w)
  else Ok adj.

Fixpoint inner_loop (weight_fn : Node → Node → Q) (u : Node)
    (vs : list (string * Node)) (adj : gmap string (list (string * Q)))
    : result (gmap string (list (string * Q))) :=
  match vs with
  | [] => Ok adj
  | (_, v) :: rest =>
      adj' ← visit_pair weight_fn u v adj;
      inner_loop weight_fn u rest adj'
  end.

Fixpoint outer_loop (weight_fn : Node → Node → Q)
    (nodes : list (string * Node)) (adj : gmap string (list (string * Q)))
    : result (gmap string (list (string * Q))) :=
  match nodes with
  | [] => Ok adj
  | (_, u) :: rest =>
      adj' ← inner_loop weight_fn u rest adj;
      outer_loop weight_fn rest adj'
  end.

Definition build_graph (nodes : list (string * Node)) (mode : string)
    (paths : option (list Path)) (undirected : bool)
    (weight_fn : Node → Node → Q)
    : result (gmap string (list (string * Q))) :=
  let adj := empty_adj nodes.*1 in
  if decide (mode = "paths"%string) then
    match paths with
    | None => Err ValueError
    | Some paths => paths_loop nodes undirected paths adj
    end
  else if decide (mode = "range"%string) then
    outer_loop weight_fn nodes adj
  else Err ValueError.

End Builder.

End Dij2.

(** An executable stand-in for [math.hypot] on rationals: exact whenever
    the distance is rational (in particular [0] for coinciding points),
    rounded down to 32 binary digits after the point otherwise.  It serves
    to run the builders on concrete layouts; the theorems hold for every
    distance function. *)
Definition Qsqrt_down (q : Q) : Q :=
  Qred (Z.sqrt (Qnum q * Z.pos (Qden q) * 2 ^ 64) # (Qden q * 2 ^ 32)).

Definition hypot (dx dy : Q) : Q := Qsqrt_down (Qred (dx * dx + dy * dy)).

Definition iot_euclid (a b : Iot.Node) : Q :=
  hypot (Iot.x a - Iot.x b) (Iot.y a - Iot.y b).

Definition dij2_euclid (a b : Dij2.Node) : Q :=
  hypot (Dij2.x a - Dij2.x b) (Dij2.y a - Dij2.y b).

(** * Notions used by the proofs

    Ghost state of the loop invariants, the measures that bound the
    loops, the list of appends a builder performs, and the concrete inputs
    on which the theorems are exercised. *)

(** ** Pivot selection *)

(** The forest stored in [children], as a relation. *)
Definition child (ch : gmap Z (list Z)) (x y : Z) : Prop :=
  y ∈ Pivots.edges_get ch x.

(** Iterations still needed by [subtree_loop]: one per stacked vertex, plus
    one per vertex not yet visited and one per child such a vertex will
    push. *)
Definition potential (ch : gmap Z (list Z)) (visited : gset Z) : nat :=
  sum_list_with
    (λ e : Z * list Z, if decide (e.1 ∈ visited) then 0 else S (length e.2))%nat
    (map_to_list ch).

(** ** Graph construction: appends as a list of events

    Every builder does nothing to the adjacency dictionary but append
    edges.  The appends of a run, in order, are its events; the final
    dictionary is determined by them. *)

Definition event : Type := string * (string * Q).

Fixpoint apply_events (evs : list event)
    (adj : gmap string (list (string * Q)))
    : result (gmap string (list (string * Q))) :=
  match evs with
  | [] => Ok adj
  | (key, e) :: rest => adj' ← append_edge adj key e; apply_events rest adj'
  end.

(** The edges appended to the list of [key], in order. *)
Definition edges_for (evs : list event) (key : string) : list (string * Q) :=
  (filter (λ ev : event, ev.1 = key) evs).*2.

Section PairEvents.

Context {N : Type}.
Variable nid : N → string.
Variable pair_events : N → N → list event.

(** The events of [for i ...: for j in range(i + 1, ...)]. *)
Fixpoint pairs_events (nodes : list (string * N)) : list event :=
  match nodes with
  | [] => []
  | (_, u) :: rest =>
      flat_map (λ kv : string * N, pair_events u kv.2) rest
      ++ pairs_events rest
  end.

(** The node dictionary is well formed: its keys are distinct and every
    node is filed under its own [id]. *)
Definition well_formed (nodes : list (string * N)) : Prop :=
  NoDup nodes.*1 ∧ ∀ key n, (key, n) ∈ nodes → nid n = key.

(** The events of a pair touch the lists of its two nodes only. *)
Definition local_events : Prop :=
  ∀ u v ev, ev ∈ pair_events u v → ev.1 = nid u ∨ ev.1 = nid v.

(** A pair appends either nothing or the two mirrored edges. *)
Definition mirrored (linked : N → N → Prop) (weight : N → N → Q) : Prop :=
  ∀ u v a b w,
    (a, (b, w)) ∈ pair_events u v ↔
    linked u v ∧ w = weight u v ∧
    ((a = nid u ∧ b = nid v) ∨ (a = nid v ∧ b = nid u)).

End PairEvents.

Section IotEvents.

Import Iot.

Variable euclid : Node → Node → Q.
Variable weight_fn : Node → Node → Q.

(** The symmetric weight of the pair [(u, v)]. *)
Definition iot_avg (u v : Node) : Q :=
  (1 # 2) * (weight_fn u v + weight_fn v u).

(** Mutual visibility. *)
Definition iot_mutual (u v : Node) : Prop :=
  euclid u v <= r u ∧ euclid u v <= r v.

Definition iot_pair_events (mode : string) (u v : Node) : list event :=
  if decide (mode = "both"%string) then
    if Qle_bool (euclid u v) (Qmin (r u) (r v))
    then [(id u, (id v, iot_avg u v)); (id v, (id u, iot_avg u v))]
    else []
  else
    (if in_range euclid u v then [(id u, (id v, weight_fn u v))] else []) ++
    (if in_range euclid v u then [(id v, (id u, weight_fn v u))] else []).

Definition known_mode (mode : string) : Prop :=
  mode = "both"%string ∨ mode = "either"%string.

End IotEvents.

Section Dij2Events.

Import Dij2.

Variable euclid : Node → Node → Q.
Variable weight_fn : Node → Node → Q.

Definition dij2_avg (u v : Node) : Q :=
  (1 # 2) * (weight_fn u v + weight_fn v u).

(** Mutual visibility; a node without a radius sees nothing. *)
Definition dij2_mutual (u v : Node) : Prop :=
  ∃ ru rv, r u = Some ru ∧ r v = Some rv ∧
           euclid u v <= ru ∧ euclid u v <= rv.

Definition dij2_pair_events (u v : Node) : list event :=
  if match r u with None => false | Some ru => Qle_bool (euclid u v) ru end
     && match r v with None => false | Some rv => Qle_bool (euclid u v) rv end
  then [(id u, (id v, dij2_avg u v)); (id v, (id u, dij2_avg u v))]
  else [].

(** A record that names a vertex absent from the node dictionary. *)
Definition dangling (nodes : list (string * Node)) (p : Path) : Prop :=
  start_id p ∉ nodes.*1 ∨ end_id p ∉ nodes.*1.

(** What the record [p] adds to the neighbour list of [u]. *)
Definition contribution (undirected : bool) (u : string) (p : Path)
    : list (string * Q) :=
  (if decide (start_id p = u) then [(end_id p, length p)] else []) ++
  (if undirected
   then if decide (end_id p = u) then [(start_id p, length p)] else []
   else []).

Definition path_events (undirected : bool) (p : Path) : list event :=
  (start_id p, (end_id p, length p)) ::
  (if undirected then [(end_id p, (start_id p, length p))] else []).

End Dij2Events.

(** ** The path engine: the loop invariant *)

Section Invariant.

Import Dijkstra Route.

Variable adj : gmap string (list (string * Q)).
Variable start : string.
Variable banned : gset string.

(** The edge [u → v] of weight [w] cannot improve the distance of [v]. *)
Definition relaxed (dist : gmap string cost) (u v : string) (w : Q) : Prop :=
  ∃ du dv, dist !! u = Some (Fin du) ∧ dist !! v = Some (Fin dv) ∧
           dv <= du + w.

(** The invariant of [while pq].  Besides the state it speaks of the key
    [m] of the last entry popped, of the list [done] of the vertices whose
    edges have been relaxed (the latest first), and, inside the loop over
    the edges of [cur], of the edges still [pending]. *)
Record Inv (m : Q) (done : list string) (cur : string)
    (pending : list (string * Q)) (st : state) : Prop := mkInv {
  inv_start_dist : dist st !! start = Some (Fin 0);
  inv_start_prev : prev st !! start = Some None;
  inv_mark : 0 <= m;
  inv_pq : ∀ d v, (d, v) ∈ pq st →
      m <= d ∧ ∃ dv, dist st !! v = Some (Fin dv) ∧ dv <= d;
  inv_prev : ∀ v u, prev st !! v = Some (Some u) →
      u ∈ done ∧
      ∃ du dv w nbrs, dist st !! u = Some (Fin du) ∧
                      dist st !! v = Some (Fin dv) ∧
                      adj !! u = Some nbrs ∧ (v, w) ∈ nbrs ∧ dv == du + w;
  inv_done : ∀ u, u ∈ done → ∃ du, dist st !! u = Some (Fin du) ∧ du <= m;
  inv_dist : ∀ v dv, dist st !! v = Some (Fin dv) →
      0 <= dv ∧ (v = start ∨ ∃ u, prev st !! v = Some (Some u));
  inv_order : ∀ l1 v l2 u, done = l1 ++ v :: l2 →
      prev st !! v = Some (Some u) → u ∈ l2;
  inv_nodup : NoDup done;
  inv_dom : ∀ u, u ∈ done → is_Some (adj !! u);
  inv_relaxed : ∀ u nbrs v w,
      u ∈ done → adj !! u = Some nbrs → (v, w) ∈ nbrs → v ∉ banned →
      (u = cur ∧ (v, w) ∈ pending) ∨ relaxed (dist st) u v w
}.

(** Edges of the vertices not yet relaxed: a bound on the pushes still to
    come. *)
Definition unexplored (done : list string) : nat :=
  sum_list_with
    (λ e : string * list (string * Q),
       if decide (e.1 ∈ done) then 0%nat else length e.2)
    (map_to_list adj).

(** A budget that covers the main loop and the walk back. *)
Definition enough_fuel : nat := (2 + size adj + unexplored [])%nat.

(** [L], read from its last element to its first, is a route from [start]
    to [v] whose weights add up to the distance recorded for [v]. *)
Definition route_to (st : state) (v : string) (L : list string) : Prop :=
  head L = Some v ∧ last L = Some start ∧
  ∃ dv q, dist st !! v = Some (Fin dv) ∧
          walk_cost adj (reverse L) q ∧ q == dv.

End Invariant.

#[global] Instance Qle_decision (a b : Q) : Decision (a <= b).
Proof.
  destruct (Qle_bool a b) eqn:Hle.
  - left. by apply Qle_bool_iff.
  - right. intros H%Qle_bool_iff. congruence.
Defined.

(** ** Concrete inputs *)

(** The demonstration graph of FindingPivots.py. *)
Definition demo_edges : gmap Z (list (Z * Q)) :=
  list_to_map
    [(0%Z, [(1%Z, 1); (2%Z, 2)]); (1%Z, [(3%Z, 1); (4%Z, 3)]);
     (2%Z, [(3%Z, 1); (4%Z, 2)]); (3%Z, [(5%Z, 1)]); (4%Z, [(5%Z, 1)]);
     (5%Z, [])].

Definition demo_d_hat : gmap Z Q :=
  list_to_map [(0%Z, 0); (1%Z, 1); (2%Z, 2); (3%Z, 2); (4%Z, 4); (5%Z, 3)].

Definition demo_S : gset Z := {[0%Z; 1%Z; 2%Z]}.

Definition demo_W : gset Z := {[0%Z; 1%Z; 2%Z; 3%Z; 4%Z; 5%Z]}.

(** The six nodes of the test suite. *)
Definition base_nodes : list (string * Iot.Node) :=
  [("A"%string, Iot.mkNode "A" 0 0 (7 # 2));
   ("B"%string, Iot.mkNode "B" 2 0 2);
   ("C"%string, Iot.mkNode "C" 4 0 (5 # 2));
   ("D"%string, Iot.mkNode "D" 4 2 2);
   ("E"%string, Iot.mkNode "E" 2 2 2);
   ("F"%string, Iot.mkNode "F" 0 2 2)].

Definition base_nodes2 : list (string * Dij2.Node) :=
  [("A"%string, Dij2.mkNode "A" 0 0 (Some (7 # 2)));
   ("B"%string, Dij2.mkNode "B" 2 0 (Some 2));
   ("C"%string, Dij2.mkNode "C" 4 0 None)].

(** Three nodes of radius zero on a diagonal (test T12). *)
Definition zero_nodes : list (string * Iot.Node) :=
  [("X"%string, Iot.mkNode "X" 0 0 0);
   ("Y"%string, Iot.mkNode "Y" 1 1 0);
   ("Z"%string, Iot.mkNode "Z" 2 2 0)].

(** Two nodes of radius zero at the same place. *)
Definition coincident_nodes : list (string * Iot.Node) :=
  [("X"%string, Iot.mkNode "X" 1 1 0);
   ("Y"%string, Iot.mkNode "Y" 1 1 0)].

Definition one_way : list Dij2.Path := [Dij2.mkPath "p1" "A" "B" 3].

(** The six-node layout of the tests, one unit per hop. *)
Definition hop_graph : gmap string (list (string * Q)) :=
  list_to_map
    [("A", [("B", 1); ("F", 1)]); ("B", [("A", 1); ("C", 1); ("E", 1)]);
     ("C", [("B", 1); ("D", 1)]); ("D", [("C", 1); ("E", 1)]);
     ("E", [("B", 1); ("D", 1); ("F", 1)]); ("F", [("A", 1); ("E", 1)])]%string.

(** Two vertices and no edge. *)
Definition two_isolated : gmap string (list (string * Q)) :=
  list_to_map [("P", []); ("Q", [])]%string.

(** * The rest of the code: reroute service and further notions *)

(** ** [reroute_on_failure], [reroute_with_banned], [has_reverse_path] *)

Module Reroute.

Section Service.

Variable euclid : Iot.Node → Iot.Node → Q.

(** [adj = build_graph(nodes, mode=mode, weight_fn=weight_fn)],
    [banned = {failed_id}], [return dijkstra(adj, start, goal, banned)]. *)
Definition reroute_on_failure (fuel : nat) (nodes : list (string * Iot.Node))
    (start goal failed_id mode : string)
    (weight_fn : Iot.Node → Iot.Node → Q)
    : option (result (cost * list string)) :=
  match Iot.build_graph euclid nodes mode weight_fn with
  | Err e => Some (Err e)
  | Ok adj => Dijkstra.dijkstra fuel adj start goal (Some {[failed_id]})
  end.


End Service.


End Reroute.

(** ** Routes that avoid the banned vertices *)

Module Shortest.

(** [route adj banned s t c]: there is a sequence of vertices from [s] to
    [t], all of them keys of [adj] and none of them banned, joined by
    edges of [adj] whose weights add up to [c]. *)
Inductive route (adj : gmap string (list (string * Q))) (banned : gset string)
    (s : string) : string → Q → Prop :=
| route_here : s ∈ dom adj → s ∉ banned → route adj banned s s 0
| route_step t v w nbrs c :
    route adj banned s t c →
    adj !! t = Some nbrs → (v, w) ∈ nbrs →
    v ∈ dom adj → v ∉ banned →
    route adj banned s v (c + w).

(** Every neighbour is itself a key of the dictionary. *)
Definition closed (adj : gmap string (list (string * Q))) : Prop :=
  ∀ u nbrs v w, adj !! u = Some nbrs → (v, w) ∈ nbrs → v ∈ dom adj.

(** The adjacency lists are symmetric. *)
Definition symmetric (adj : gmap string (list (string * Q))) : Prop :=
  ∀ u v w, (v, w) ∈ default [] (adj !! u) ↔ (u, w) ∈ default [] (adj !! v).

End Shortest.

(** ** Hops of the bounded relaxation *)

Module Hops.

Import Pivots.

(** The edge [u → v] passes both tests of the relaxation rounds. *)
Definition qualifying (edges : gmap Z (list (Z * Q))) (d_hat : gmap Z Q)
    (B : cost) (u v : Z) : Prop :=
  ∃ w du dv, (v, w) ∈ edges_get edges u ∧
             d_hat !! u = Some du ∧ d_hat !! v = Some dv ∧
             du + w <= dv ∧ cost_ltb (Fin (du + w)) B = true.

(** [hops edges d_hat B X n v]: [v] is reached from a vertex of [X] by a
    walk of exactly [n] qualifying edges. *)
Inductive hops (edges : gmap Z (list (Z * Q))) (d_hat : gmap Z Q)
    (B : cost) (X : gset Z) : nat → Z → Prop :=
| hops_zero v : v ∈ X → hops edges d_hat B X 0 v
| hops_succ n u v :
    hops edges d_hat B X n u → qualifying edges d_hat B u v →
    hops edges d_hat B X (S n) v.

(** Every vertex has at most one incoming tight edge: the tight edges
    inside [W] form a forest. *)
Definition forest_like (edges : gmap Z (list (Z * Q))) (d_hat : gmap Z Q)
    (W : gset Z) : Prop :=
  ∀ x x' y, PivotSpec.tight edges d_hat W x y →
            PivotSpec.tight edges d_hat W x' y → x = x'.

End Hops.

(** ** Further ghost state of the path engine *)

Section MoreInvariants.

Import Dijkstra.

Variable adj : gmap string (list (string * Q)).
Variable banned : gset string.

(** Every vertex with a finite distance whose edges have not been
    relaxed yet has a heap entry carrying that distance; finite distances
    belong to keys that are not banned. *)
Record Live (done : list string) (st : state) : Prop := mkLive {
  live_pq : ∀ v dv, dist st !! v = Some (Fin dv) → v ∉ done →
      ∃ d, (d, v) ∈ pq st ∧ d == dv;
  live_banned : ∀ v dv, dist st !! v = Some (Fin dv) → v ∉ banned;
  live_keys : ∀ v c, dist st !! v = Some c → v ∈ dom adj
}.

(** The tables range over the keys of the graph. *)
Record Keys (st : state) : Prop := mkKeys {
  keys_dist : ∀ v, v ∈ dom adj → is_Some (dist st !! v);
  keys_prev : ∀ v, v ∈ dom adj → is_Some (prev st !! v);
  keys_pq : ∀ d u, (d, u) ∈ pq st → u ∈ dom adj;
  keys_links : ∀ v u, prev st !! v = Some (Some u) → u ∈ dom adj
}.

(** What the main loop leaves behind: the distance recorded for [goal]
    is finite and at most the cost of any route. *)
Definition goal_settled (start goal : string) (st : state) : Prop :=
  ∀ c, Shortest.route adj banned start goal c →
       ∃ dg, dist st !! goal = Some (Fin dg) ∧ dg <= c.

End MoreInvariants.

(** ** Builders: the two edges a pair may append *)

Section DirectedEvents.

Context {N : Type}.
Variable nid : N → string.
Variable pair_events : N → N → list event.

(** The pair [(u, v)] appends the edge [u → v] of weight [w] when
    [fwd u v w], the edge [v → u] when [bwd u v w], and nothing else. *)
Definition directed (fwd bwd : N → N → Q → Prop) : Prop :=
  ∀ u v a b w,
    (a, (b, w)) ∈ pair_events u v ↔
    (a = nid u ∧ b = nid v ∧ fwd u v w) ∨
    (a = nid v ∧ b = nid u ∧ bwd u v w).

End DirectedEvents.

(** The dictionary [adj] holds, under the keys [ids], the events [evs]. *)
Definition holds_events (ids : list string) (evs : list event)
    (adj : gmap string (list (string * Q))) : Prop :=
  ∀ key, adj !! key
         = if decide (key ∈ ids) then Some (edges_for evs key) else None.

(** No vertex is its own neighbour. *)
Definition loop_free (adj : gmap string (list (string * Q))) : Prop :=
  ∀ u nbrs w, adj !! u = Some nbrs → (u, w) ∉ nbrs.

#[global] Instance Q_eq_dec : EqDecision Q.
Proof. solve_decision. Defined.

(** ** Further concrete inputs *)

(** A chain [1 → 2 → 3] of unit edges with exact estimates. *)
Definition chain_edges : gmap Z (list (Z * Q)) :=
  list_to_map [(1%Z, [(2%Z, 1)]); (2%Z, [(3%Z, 1)])].

Definition chain_d_hat : gmap Z Q :=
  list_to_map [(1%Z, 0); (2%Z, 1); (3%Z, 2)].

(** A graph one of whose neighbours is not a key. *)
Definition open_graph : gmap string (list (string * Q)) :=
  list_to_map [("A", [("Z", 1)]); ("B", [])]%string.


(** * Properties of the path engine: early exits *)

Section DijkstraEarlyExit.

Import Dijkstra.

(** C5.  If the start or the goal is banned, or either of them is not a
    key of the adjacency dictionary, [dijkstra] answers [(inf, [])] at once:
    no loop iteration is spent (the answer is the same for every iteration
    budget, zero included) and nothing is raised. *)
Theorem dijkstra_banned_or_absent (fuel : nat)
    (adj : gmap string (list (string * Q))) (start goal : string)
    (banned : option (gset string)) :
  start ∈ default ∅ banned ∨ goal ∈ default ∅ banned ∨
    start ∉ dom adj ∨ goal ∉ dom adj →
  dijkstra fuel adj start goal banned = Some (Ok (Inf, [])).
Proof.
  intros H. unfold dijkstra. cbv zeta.
  destruct (decide (start ∈ default ∅ banned ∨ goal ∈ default ∅ banned))
    as [|Hnb]; [reflexivity|].
  destruct (decide (start ∉ dom adj ∨ goal ∉ dom adj)) as [|Hin];
    [reflexivity|].
  exfalso. destruct H as [H|[H|[H|H]]]; tauto.
Qed.

End DijkstraEarlyExit.

Lemma dijkstra_banned_or_absent_witness :
  Dijkstra.dijkstra 0 {[ "A"%string := [("B"%string, 1)]; "B"%string := [] ]}
    "A" "B" (Some {[ "B"%string ]}) = Some (Ok (Inf, [])).
Proof.
  apply dijkstra_banned_or_absent. right; left. simpl. set_solver.
Defined.

(** * Properties of pivot selection *)

Section PivotsBasics.

Import Pivots.

Lemma bind_ok {A B} (r : result A) (k : A → result B) (b : B) :
  (r ≫= k) = Ok b → ∃ a, r = Ok a ∧ k a = Ok b.
Proof. destruct r as [a|e]; simpl; [eauto | discriminate]. Qed.

Lemma scan_edges_mono d_hat B u nbrs Wi Wi' :
  scan_edges d_hat B u nbrs Wi = Ok Wi' → Wi ⊆ Wi'.
Proof.
  revert Wi. induction nbrs as [|[v w] rest IH]; intros Wi; simpl.
  - intros [= <-]. done.
  - intros H. apply bind_ok in H as (du & _ & H).
    apply bind_ok in H as (dv & _ & H).
    destruct (Qle_bool _ _); [destruct (cost_ltb _ _)|];
      apply IH in H; set_solver.
Qed.

Lemma relax_rounds_super n edges d_hat B W Wi_1 W' :
  relax_rounds n edges d_hat B W Wi_1 = Ok W' → W ⊆ W'.
Proof.
  revert W Wi_1. induction n as [|n IH]; intros W Wi_1; simpl.
  - intros [= <-]. done.
  - intros H. apply bind_ok in H as (Wi & _ & H).
    destruct (decide (Wi = ∅)).
    + injection H as <-. set_solver.
    + apply IH in H. set_solver.
Qed.

Lemma select_pivots_sub fuel ch roots k us P P' :
  select_pivots fuel ch roots k us P = Some P' →
  P' ⊆ P ∪ list_to_set us.
Proof.
  revert P. induction us as [|u rest IH]; intros P; simpl.
  - intros [= <-]. set_solver.
  - destruct (decide (u ∈ roots)).
    + destruct (subtree_size fuel ch u) as [n|]; [|discriminate].
      destruct (decide (Z.of_nat n >= k)%Z); intros H; apply IH in H;
        set_solver.
    + intros H. apply IH in H. set_solver.
Qed.

(** Every branch of [find_pivots] that returns a pair went through the
    relaxation rounds first. *)
Lemma find_pivots_inv fuel edges d_hat S k B P W :
  find_pivots fuel edges d_hat S k B = Some (Ok (P, W)) →
  relax_rounds (Z.to_nat k) edges d_hat B S S = Ok W ∧
  ((fast_path W S k ∧ P = S) ∨
   (¬ fast_path W S k ∧ ∃ F,
      build_forest edges d_hat W (elements W) (Forest ∅ ∅) = Ok F ∧
      select_pivots fuel (children F)
        (filter (λ u, indeg_get F u = 0%nat) W) k (elements S) ∅ = Some P)).
Proof.
  unfold find_pivots.
  destruct (relax_rounds _ _ _ _ _ _) as [W0|e]; [|discriminate].
  destruct (decide (fast_path W0 S k)) as [Hf|Hf].
  - intros [= <- <-]. split; [done|]. left. done.
  - destruct (build_forest _ _ _ _ _) as [F|e] eqn:HF; [|discriminate].
    cbv zeta.
    destruct (select_pivots _ _ _ _ _ _) as [P0|] eqn:HP; [|discriminate].
    intros [= <- <-]. split; [done|]. right. split; [done|].
    exists F. done.
Qed.

(** C3.  When the frontier [W] accumulated by the relaxation rounds has
    more than [k * max(1, |S|)] vertices, [find_pivots] returns [(S, W)]:
    the pivot set is [S] itself. *)
Theorem find_pivots_fast_path (fuel : nat) (edges : gmap Z (list (Z * Q)))
    (d_hat : gmap Z Q) (S : gset Z) (k : Z) (B : cost) (W : gset Z) :
  relax_rounds (Z.to_nat k) edges d_hat B S S = Ok W →
  (Z.of_nat (size W) > k * Z.max 1 (Z.of_nat (size S)))%Z →
  find_pivots fuel edges d_hat S k B = Some (Ok (S, W)).
Proof.
  intros HW Hbig. unfold find_pivots. rewrite HW.
  destruct (decide (fast_path W S k)) as [|Hn]; [reflexivity|].
  exfalso. apply Hn. exact Hbig.
Qed.

(** C4.  Whatever pair [(P, W)] is returned, [W] contains [S] and [P] is
    contained in [S]. *)
Theorem find_pivots_bounds (fuel : nat) (edges : gmap Z (list (Z * Q)))
    (d_hat : gmap Z Q) (S : gset Z) (k : Z) (B : cost) (P W : gset Z) :
  find_pivots fuel edges d_hat S k B = Some (Ok (P, W)) →
  S ⊆ W ∧ P ⊆ S.
Proof.
  intros H. apply find_pivots_inv in H as [HW HP]. split.
  - eapply relax_rounds_super, HW.
  - destruct HP as [[_ ->]|(_ & F & _ & HP)]; [done|].
    apply select_pivots_sub in HP. set_solver.
Qed.

End PivotsBasics.

(** ** The subtree count is the size of the reachable set *)

Section SubtreeCount.

Import Pivots.

Variable ch : gmap Z (list Z).

Lemma potential_visit x visited :
  x ∉ visited →
  (potential ch ({[x]} ∪ visited) + length (edges_get ch x) ≤ potential ch visited)%nat.
Proof.
  intros Hx. unfold potential, edges_get.
  destruct (ch !! x) as [l|] eqn:Hl; simpl.
  - rewrite <- !(sum_list_with_Permutation_proper _ _ _
                  (map_to_list_delete ch x l Hl)).
    simpl. rewrite decide_True by set_solver.
    rewrite decide_False by done.
    assert (∀ L : list (Z * list Z), (∀ e, e ∈ L → e.1 ≠ x) →
      sum_list_with (λ e : Z * list Z,
        if decide (e.1 ∈ {[x]} ∪ visited) then 0 else S (length e.2))%nat L =
      sum_list_with (λ e : Z * list Z,
        if decide (e.1 ∈ visited) then 0 else S (length e.2))%nat L) as Heq.
    { induction L as [|e L IH]; intros HL; simpl; [done|].
      rewrite IH by (intros; apply HL; set_solver).
      assert (e.1 ≠ x) by (apply HL; set_solver).
      destruct (decide (e.1 ∈ visited)).
      - rewrite decide_True by set_solver. done.
      - rewrite decide_False by set_solver. done. }
    rewrite Heq; [lia|].
    intros [y l'] Hin%elem_of_map_to_list. simpl.
    intros ->. by rewrite lookup_delete_eq in Hin.
  - rewrite Nat.add_0_r.
    induction (map_to_list ch) as [|e L IH]; simpl; [done|].
    destruct (decide (e.1 ∈ visited)).
    + rewrite decide_True by set_solver. lia.
    + destruct (decide (e.1 ∈ {[x]} ∪ visited)); lia.
Qed.

Lemma subtree_loop_fuel fuel stack visited count :
  (length stack + potential ch visited ≤ fuel)%nat →
  is_Some (subtree_loop fuel ch stack visited count).
Proof.
  revert stack visited count.
  induction fuel as [|fuel IH]; intros stack visited count Hle.
  - destruct stack; simpl in *; [eauto | lia].
  - destruct stack as [|x stack]; simpl; [eauto|].
    destruct (decide (x ∈ visited)) as [Hin|Hin].
    + apply IH. simpl in Hle. lia.
    + apply IH. pose proof (potential_visit x visited Hin).
      rewrite length_app, length_rev. simpl in Hle. lia.
Qed.

Lemma subtree_loop_more fuel fuel' stack visited count n :
  (fuel ≤ fuel')%nat →
  subtree_loop fuel ch stack visited count = Some n →
  subtree_loop fuel' ch stack visited count = Some n.
Proof.
  revert fuel' stack visited count.
  induction fuel as [|fuel IH]; intros fuel' stack visited count Hle.
  - destruct stack; simpl; [|discriminate].
    destruct fuel'; simpl; done.
  - destruct fuel' as [|fuel']; [lia|].
    destruct stack as [|x stack]; simpl; [done|].
    destruct (decide (x ∈ visited)); apply IH; lia.
Qed.

Lemma elem_of_rev_iff {A} (a : A) (l : list A) : a ∈ rev l ↔ a ∈ l.
Proof. rewrite !list_elem_of_In. symmetry. apply in_rev. Qed.

Lemma closed_reach (root : Z) (visited : gset Z) :
  (∀ x y, x ∈ visited → child ch x y → y ∈ visited ∨ y ∈ @nil Z) →
  root ∈ visited ∨ root ∈ @nil Z →
  ∀ y, rtc (child ch) root y → y ∈ visited.
Proof.
  intros Hcl Hroot. apply rtc_ind_r.
  - destruct Hroot as [|Hr]; [done|]. by apply elem_of_nil in Hr.
  - intros a b _ Hab IH.
    destruct (Hcl a b IH Hab) as [|Hr]; [done|]. by apply elem_of_nil in Hr.
Qed.

Lemma subtree_loop_count (root : Z) fuel stack visited count n :
  subtree_loop fuel ch stack visited count = Some n →
  count = size visited →
  (∀ x, x ∈ visited → rtc (child ch) root x) →
  (∀ x, x ∈ stack → rtc (child ch) root x) →
  (∀ x y, x ∈ visited → child ch x y → y ∈ visited ∨ y ∈ stack) →
  root ∈ visited ∨ root ∈ stack →
  ∃ R : gset Z, (∀ y, y ∈ R ↔ rtc (child ch) root y) ∧ n = size R.
Proof.
  revert stack visited count.
  induction fuel as [|fuel IH]; intros stack visited count.
  - destruct stack; simpl; [|discriminate]. 
    intros [= <-] Hc Hv _ Hcl Hroot. exists visited. split; [|done].
    intros y. split; [apply Hv|]. by apply closed_reach.
  - destruct stack as [|x stack]; simpl.
    + intros [= <-] Hc Hv _ Hcl Hroot. exists visited. split; [|done].
      intros y. split; [apply Hv|]. by apply closed_reach.
    + destruct (decide (x ∈ visited)) as [Hin|Hin];
        intros Hloop Hc Hv Hs Hcl Hroot.
      * apply (IH _ _ _ Hloop Hc Hv).
        -- intros z Hz. apply Hs. set_solver.
        -- intros a b Ha Hab. destruct (Hcl a b Ha Hab) as [|Hb]; [auto|].
           apply elem_of_cons in Hb as [->|]; auto.
        -- destruct Hroot as [|Hr]; [auto|].
           apply elem_of_cons in Hr as [->|]; auto.
      * assert (rtc (child ch) root x) as Hx by (apply Hs; set_solver).
        apply (IH _ _ _ Hloop).
        -- rewrite size_union by set_solver. rewrite size_singleton. lia.
        -- intros z [->%elem_of_singleton|Hz]%elem_of_union; auto.
        -- intros z [Hz|Hz]%elem_of_app.
           ++ eapply rtc_r; [exact Hx|]. unfold child.
              rewrite elem_of_rev_iff in Hz. exact Hz.
           ++ apply Hs. set_solver.
        -- intros a b [->%elem_of_singleton|Ha]%elem_of_union Hab.
           ++ right. apply elem_of_app. left. rewrite elem_of_rev_iff.
              exact Hab.
           ++ destruct (Hcl a b Ha Hab) as [|Hb]; [set_solver|].
              apply elem_of_cons in Hb as [->|]; [set_solver|].
              right. apply elem_of_app. by right.
        -- destruct Hroot as [|Hr]; [set_solver|].
           apply elem_of_cons in Hr as [->|]; [set_solver|].
           right. apply elem_of_app. by right.
Qed.

End SubtreeCount.

(** ** The forest built by the code is the tight-edge forest *)

Section Forest.

Import Pivots PivotSpec.

Variable d_hat : gmap Z Q.
Variable W : gset Z.

Lemma Qltb_lt a b : Qltb a b = true ↔ a < b.
Proof.
  unfold Qltb. rewrite Qlt_alt. destruct (a ?= b); split; congruence.
Qed.

Lemma tight_via_nil x u : ¬ tight_via d_hat W x u [].
Proof. intros (_ & _ & w & dx & du & Hin & _). by apply elem_of_nil in Hin. Qed.

Lemma tight_via_cons x u v w rest :
  tight_via d_hat W x u ((v, w) :: rest) ↔
  tight_via d_hat W x u [(v, w)] ∨ tight_via d_hat W x u rest.
Proof.
  unfold tight_via. split.
  - intros (Hx & Hu & w' & dx & du & Hin & H).
    apply elem_of_cons in Hin as [Heq|Hin].
    + left. repeat split; try done. exists w', dx, du. split; [|done].
      rewrite Heq. apply list_elem_of_here.
    + right. repeat split; try done. exists w', dx, du. done.
  - intros [(Hx & Hu & w' & dx & du & Hin & H)
           |(Hx & Hu & w' & dx & du & Hin & H)];
      repeat split; try done; exists w', dx, du; (split; [|done]).
    + apply list_elem_of_singleton in Hin. rewrite Hin. apply list_elem_of_here.
    + by apply list_elem_of_further.
Qed.

Lemma forest_edges_spec u nbrs F F' :
  forest_edges d_hat W u nbrs F = Ok F' →
  u ∈ W →
  (∀ x y, y ∈ edges_get (children F') x ↔
          y ∈ edges_get (children F) x ∨ (x = u ∧ tight_via d_hat W u y nbrs)) ∧
  (∀ v, indeg_get F' v = 0%nat ↔
        indeg_get F v = 0%nat ∧ ¬ tight_via d_hat W u v nbrs).
Proof.
  intros Hrun Hu. revert F Hrun.
  induction nbrs as [|[v w] rest IH]; intros F; cbn [forest_edges].
  - intros [= <-]. split.
    + intros x y. pose proof (tight_via_nil u y). tauto.
    + intros v. pose proof (tight_via_nil u v). tauto.
  - destruct (decide (v ∈ W)) as [Hv|Hv].
    + intros H. apply bind_ok in H as (du & Hdu & H).
      apply bind_ok in H as (dv & Hdv & H).
      unfold subscript in Hdu, Hdv.
      destruct (d_hat !! u) as [du'|] eqn:Eu; [|discriminate].
      destruct (d_hat !! v) as [dv'|] eqn:Ev; [|discriminate].
      injection Hdu as ->. injection Hdv as ->.
      destruct (Qltb (Qabs (du + w - dv)) tol) eqn:Ht.
      * apply IH in H as [Hch Hin]. clear IH. simpl in Hch, Hin.
        assert (∀ y, tight_via d_hat W u y [(v, w)] ↔ y = v) as Hhead.
        { intros y. split.
          - intros (_ & _ & w' & _ & _ & Hy & _).
            apply list_elem_of_singleton in Hy. congruence.
          - intros ->. repeat split; try done. exists w, du, dv.
            repeat split; try done; [apply list_elem_of_here|].
            by apply Qltb_lt. }
        split.
        -- intros x y. rewrite Hch, tight_via_cons, Hhead.
           unfold edges_get at 1.
           destruct (decide (x = u)) as [->|Hne].
           ++ rewrite lookup_insert_eq. simpl. rewrite elem_of_app.
              rewrite list_elem_of_singleton. tauto.
           ++ rewrite lookup_insert_ne by done. fold (edges_get (children F) x).
              tauto.
        -- intros z. rewrite Hin, tight_via_cons, Hhead.
           unfold indeg_get at 1. simpl.
           destruct (decide (z = v)) as [->|Hne].
           ++ rewrite lookup_insert_eq. simpl. split; [lia|]. tauto.
           ++ rewrite lookup_insert_ne by done. fold (indeg_get F z). tauto.
      * apply IH in H as [Hch Hin]. clear IH.
        assert (∀ y, ¬ tight_via d_hat W u y [(v, w)]) as Hhead.
        { intros y (_ & _ & w' & dx & dy & Hy & Hx & Hy' & Hlt).
          apply list_elem_of_singleton in Hy. injection Hy as -> ->.
          rewrite Eu in Hx. rewrite Ev in Hy'.
          injection Hx as <-. injection Hy' as <-.
          apply Qltb_lt in Hlt. congruence. }
        split.
        -- intros x y. rewrite Hch, tight_via_cons.
           pose proof (Hhead y). tauto.
        -- intros z. rewrite Hin, tight_via_cons.
           pose proof (Hhead z). tauto.
    + intros H. apply IH in H as [Hch Hin]. clear IH.
      assert (∀ y, ¬ tight_via d_hat W u y [(v, w)]) as Hhead.
      { intros y (_ & Hy' & w' & _ & _ & Hy & _).
        apply list_elem_of_singleton in Hy. injection Hy as -> ->. done. }
      split.
      * intros x y. rewrite Hch, tight_via_cons.
        pose proof (Hhead y). tauto.
      * intros z. rewrite Hin, tight_via_cons.
        pose proof (Hhead z). tauto.
Qed.

Variable edges : gmap Z (list (Z * Q)).

Lemma build_forest_spec us F F' :
  build_forest edges d_hat W us F = Ok F' →
  (∀ u, u ∈ us → u ∈ W) →
  (∀ x y, y ∈ edges_get (children F') x ↔
          y ∈ edges_get (children F) x ∨
          (x ∈ us ∧ tight edges d_hat W x y)) ∧
  (∀ v, indeg_get F' v = 0%nat ↔
        indeg_get F v = 0%nat ∧ ∀ x, x ∈ us → ¬ tight edges d_hat W x v).
Proof.
  revert F. induction us as [|u rest IH]; intros F; simpl.
  - intros [= <-] _. split.
    + intros x y. rewrite elem_of_nil. tauto.
    + intros v. split; [|tauto]. intros Hv. split; [done|].
      intros x Hx. by apply elem_of_nil in Hx.
  - intros H Hus. apply bind_ok in H as (F1 & H1 & H).
    apply forest_edges_spec in H1 as [Hch1 Hin1]; [|apply Hus; left].
    apply IH in H as [Hch Hin]; [|intros; apply Hus; by right].
    split.
    + intros x y. rewrite Hch, Hch1, elem_of_cons. unfold tight.
      split; [|intros [?|[[->|?] ?]]; tauto].
      intros [[?|[-> ?]]|[? ?]]; tauto.
    + intros v. rewrite Hin, Hin1. unfold tight. split.
      * intros [[? ?] Hrest]. split; [done|].
        intros x [->|Hx]%elem_of_cons; auto.
      * intros [? Hall]. repeat split; try done.
        -- apply Hall. left.
        -- intros x Hx. apply Hall. by right.
Qed.

(** After a successful construction from the empty forest, [children] holds
    exactly the tight edges and [indeg] is zero exactly on the roots. *)
Lemma built_forest F :
  build_forest edges d_hat W (elements W) (Forest ∅ ∅) = Ok F →
  (∀ x y, child (children F) x y ↔ tight edges d_hat W x y) ∧
  (∀ v, indeg_get F v = 0%nat ↔ ∀ x, ¬ tight edges d_hat W x v).
Proof.
  intros H. apply build_forest_spec in H as [Hch Hin];
    [|intros u Hu; by apply elem_of_elements in Hu].
  split.
  - intros x y. unfold child. rewrite Hch. simpl.
    unfold edges_get at 1. rewrite lookup_empty. simpl.
    rewrite elem_of_nil, elem_of_elements. split; [tauto|].
    intros Ht. right. split; [|done]. by destruct Ht as [? _].
  - intros v. rewrite Hin. unfold indeg_get at 1. simpl.
    rewrite lookup_empty. simpl. split.
    + intros [_ Hall] x Ht. apply (Hall x); [|done].
      apply elem_of_elements. by destruct Ht as [? _].
    + intros Hall. split; [done|]. intros x _. apply Hall.
Qed.

Lemma reach_child_tight F root y :
  build_forest edges d_hat W (elements W) (Forest ∅ ∅) = Ok F →
  rtc (child (children F)) root y ↔ rtc (tight edges d_hat W) root y.
Proof.
  intros [Hch _]%built_forest.
  split; apply rtc_subrel; intros a b; apply Hch.
Qed.

End Forest.

(** ** The pivots selected by the code *)

Section Selection.

Import Pivots PivotSpec.

Lemma select_pivots_spec fuel ch roots k us P P' :
  select_pivots fuel ch roots k us P = Some P' →
  (∀ u, u ∈ P' ↔
        u ∈ P ∨ (u ∈ us ∧ u ∈ roots ∧
                 ∃ n, subtree_size fuel ch u = Some n ∧ (Z.of_nat n >= k)%Z)) ∧
  (∀ u, u ∈ us → u ∈ roots → is_Some (subtree_size fuel ch u)).
Proof.
  revert P. induction us as [|u0 rest IH]; intros P; simpl.
  - intros [= <-]. split.
    + intros u. rewrite elem_of_nil. tauto.
    + intros u Hu. by apply elem_of_nil in Hu.
  - destruct (decide (u0 ∈ roots)) as [Hr|Hr].
    + destruct (subtree_size fuel ch u0) as [n|] eqn:Hn; [|discriminate].
      destruct (decide (Z.of_nat n >= k)%Z) as [Hk|Hk];
        intros H; apply IH in H as [Hmem Hsome]; (split;
          [ intros u; rewrite Hmem, elem_of_cons
          | intros u [->|Hu]%elem_of_cons ?; [rewrite Hn; eauto | auto] ]).
      * rewrite elem_of_union, elem_of_singleton. split.
        -- intros [[->|?]|(? & ? & ?)]; eauto 10.
        -- intros [?|([->|?] & ? & ?)]; eauto 10.
      * split.
        -- intros [?|(? & ? & ?)]; eauto 10.
        -- intros [?|([->|?] & ? & m & Hm & ?)]; eauto 10.
           rewrite Hn in Hm. injection Hm as <-. lia.
    + intros H. apply IH in H as [Hmem Hsome]. split.
      * intros u. rewrite Hmem, elem_of_cons. split.
        -- intros [?|(? & ? & ?)]; eauto 10.
        -- intros [?|([->|?] & ? & ?)]; eauto 10. done.
      * intros u [->|Hu]%elem_of_cons ?; [done | auto].
Qed.

Lemma select_pivots_fuel fuel ch roots k us P :
  (1 + potential ch ∅ ≤ fuel)%nat →
  is_Some (select_pivots fuel ch roots k us P).
Proof.
  intros Hfuel. revert P. induction us as [|u rest IH]; intros P; simpl;
    [eauto|].
  destruct (decide (u ∈ roots)); [|apply IH].
  destruct (subtree_loop_fuel ch fuel [u] ∅ 0%nat) as [n Hn];
    [simpl; lia|].
  unfold subtree_size. rewrite Hn.
  destruct (decide (Z.of_nat n >= k)%Z); apply IH.
Qed.

(** [find_pivots] always finishes: some iteration budget is enough. *)
Lemma find_pivots_terminates edges d_hat S k B :
  ∃ fuel r, find_pivots fuel edges d_hat S k B = Some r.
Proof.
  unfold find_pivots.
  destruct (relax_rounds _ _ _ _ _ _) as [W|e]; [|exists 0%nat; eauto].
  destruct (decide (fast_path W S k)); [exists 0%nat; eauto|].
  destruct (build_forest _ _ _ _ _) as [F|e]; [|exists 0%nat; eauto].
  cbv zeta. exists (1 + potential (children F) ∅)%nat.
  destruct (select_pivots_fuel (1 + potential (children F) ∅) (children F)
    (filter (λ u, indeg_get F u = 0%nat) W) k (elements S) ∅) as [P HP];
    [lia|].
  rewrite HP. eauto.
Qed.

(** C2.  When the fast path is not taken, the returned [P] is exactly the
    set of vertices [u] of [S] into which no tight edge of the forest on
    [W] points and from which at least [k] vertices, [u] included, can be
    reached along tight edges. *)
Theorem find_pivots_slow_path (fuel : nat) (edges : gmap Z (list (Z * Q)))
    (d_hat : gmap Z Q) (S : gset Z) (k : Z) (B : cost) (P W : gset Z) :
  find_pivots fuel edges d_hat S k B = Some (Ok (P, W)) →
  ¬ (Z.of_nat (size W) > k * Z.max 1 (Z.of_nat (size S)))%Z →
  ∀ u, u ∈ P ↔ pivot edges d_hat W S k u.
Proof.
  intros Hrun Hslow u.
  apply find_pivots_inv in Hrun as [HW [[Hfast _]|(_ & F & HF & HP)]];
    [done|].
  pose proof (relax_rounds_super _ _ _ _ _ _ _ HW) as HSW.
  apply select_pivots_spec in HP as [Hmem Hsome].
  pose proof (built_forest d_hat W edges F HF) as [_ Hroot].
  rewrite Hmem. unfold pivot. rewrite elem_of_elements, elem_of_filter.
  split.
  - intros [Hemp|(HuS & [Hdeg HuW] & n & Hn & Hk)];
      [by apply not_elem_of_empty in Hemp|].
    split; [done|]. split; [by apply Hroot|].
    unfold subtree_size in Hn.
    apply (subtree_loop_count (children F) u) in Hn as (R & HR & ->);
      [| done | set_solver | | set_solver | right; left].
    + exists R. split; [|done]. intros y. rewrite HR.
      by apply reach_child_tight.
    + intros x ->%list_elem_of_singleton. done.
  - intros (HuS & Hnone & R & HR & Hk). right.
    assert (u ∈ filter (λ u, indeg_get F u = 0%nat) W) as Hr.
    { apply elem_of_filter. split; [by apply Hroot | by apply HSW]. }
    apply elem_of_filter in Hr as Hr'.
    split; [done|]. split; [done|].
    destruct (Hsome u) as [n Hn];
      [by apply elem_of_elements | by apply elem_of_filter |].
    exists n. split; [done|].
    unfold subtree_size in Hn.
    apply (subtree_loop_count (children F) u) in Hn as (R' & HR' & ->);
      [| done | set_solver | | set_solver | right; left].
    + assert (R' = R) as ->; [|done].
      apply set_eq. intros y. rewrite HR', (HR y).
      by apply reach_child_tight.
    + intros x ->%list_elem_of_singleton. done.
Qed.

End Selection.

(** ** Which estimates are read *)

Section Lookups.

Import Pivots PivotSpec.

Variable edges : gmap Z (list (Z * Q)).
Variable d_hat : gmap Z Q.
Variable B : cost.

Lemma scan_edges_ok u nbrs Wi :
  (∀ v w, (v, w) ∈ nbrs → is_Some (d_hat !! u) ∧ is_Some (d_hat !! v)) →
  scan_edges d_hat B u nbrs Wi = Ok (Wi ∪ list_to_set (reached d_hat B u nbrs)).
Proof.
  revert Wi. induction nbrs as [|[v w] rest IH]; intros Wi Hcov.
  - cbn. f_equal. set_solver.
  - cbn [scan_edges]. destruct (Hcov v w) as [[du Hu] [dv Hv]]; [left|].
    unfold subscript. rewrite Hu, Hv. cbn [mbind result_bind].
    unfold reached. cbn [List.filter]. unfold qualifies at 1.
    cbn [fst snd]. rewrite Hu, Hv.
    fold (reached d_hat B u rest).
    destruct (Qle_bool (du + w) dv); cbn [andb].
    + destruct (cost_ltb (Fin (du + w)) B); cbn [fmap list_fmap].
      * rewrite IH by (intros v' w' Hin; apply (Hcov v' w'); by right).
        f_equal. unfold reached. cbn. set_solver.
      * apply IH. intros v' w' Hin; apply (Hcov v' w'); by right.
    + apply IH. intros v' w' Hin; apply (Hcov v' w'); by right.
Qed.

Lemma scan_layer_ok us Wi :
  (∀ u v w, u ∈ us → (v, w) ∈ edges_get edges u →
            is_Some (d_hat !! u) ∧ is_Some (d_hat !! v)) →
  scan_layer edges d_hat B us Wi = Ok (Wi ∪ next_layer edges d_hat B us).
Proof.
  revert Wi. induction us as [|u rest IH]; intros Wi Hcov.
  - cbn. f_equal. set_solver.
  - cbn [scan_layer].
    rewrite scan_edges_ok
      by (intros v w Hin; apply (Hcov u v w); [left | exact Hin]).
    cbn [mbind result_bind].
    rewrite IH
      by (intros u' v w Hu' Hin; apply (Hcov u' v w); [by right | exact Hin]).
    f_equal. unfold next_layer. cbn [flat_map].
    rewrite list_to_set_app_L. set_solver.
Qed.

Lemma frontier_rounds_super n W Wi_1 :
  W ⊆ frontier_rounds n edges d_hat B W Wi_1.
Proof.
  revert W Wi_1. induction n as [|n IH]; intros W Wi_1; cbn; [done|].
  destruct (decide _); [set_solver|].
  etrans; [|apply IH]. set_solver.
Qed.

Lemma relax_rounds_ok n W Wi_1 :
  Wi_1 ⊆ W →
  (∀ u v w, u ∈ frontier_rounds n edges d_hat B W Wi_1 →
            (v, w) ∈ edges_get edges u →
            is_Some (d_hat !! u) ∧ is_Some (d_hat !! v)) →
  relax_rounds n edges d_hat B W Wi_1 = Ok (frontier_rounds n edges d_hat B W Wi_1).
Proof.
  revert W Wi_1. induction n as [|n IH]; intros W Wi_1 Hsub Hcov; [done|].
  cbn [relax_rounds frontier_rounds] in *.
  rewrite scan_layer_ok.
  - cbn [mbind result_bind]. rewrite union_empty_l_L.
    destruct (decide (next_layer edges d_hat B (elements Wi_1) = ∅));
      [done|].
    apply IH; [set_solver | done].
  - intros u v w Hu. apply Hcov. apply elem_of_elements in Hu.
    destruct (decide _); [set_solver|].
    apply frontier_rounds_super. set_solver.
Qed.

Lemma forest_edges_ok W u nbrs F :
  (∀ v w, (v, w) ∈ nbrs → is_Some (d_hat !! u) ∧ is_Some (d_hat !! v)) →
  ∃ F', forest_edges d_hat W u nbrs F = Ok F'.
Proof.
  revert F. induction nbrs as [|[v w] rest IH]; intros F Hcov;
    cbn [forest_edges]; [eauto|].
  destruct (decide (v ∈ W));
    [|apply IH; intros v' w' Hin; apply (Hcov v' w'); by right].
  destruct (Hcov v w) as [[du Hu] [dv Hv]]; [left|].
  unfold subscript. rewrite Hu, Hv. cbn [mbind result_bind].
  destruct (Qltb _ _); apply IH; intros v' w' Hin; apply (Hcov v' w');
    by right.
Qed.

Lemma build_forest_ok W us F :
  (∀ u v w, u ∈ us → (v, w) ∈ edges_get edges u →
            is_Some (d_hat !! u) ∧ is_Some (d_hat !! v)) →
  ∃ F', build_forest edges d_hat W us F = Ok F'.
Proof.
  revert F. induction us as [|u rest IH]; intros F Hcov;
    cbn [build_forest]; [eauto|].
  destruct (forest_edges_ok W u (edges_get edges u) F) as [F1 ->];
    [intros v w Hin; apply (Hcov u v w); [left | exact Hin]|].
  cbn [mbind result_bind]. apply IH.
  intros u' v w Hu' Hin; apply (Hcov u' v w); [by right | exact Hin].
Qed.

(** The only exception that [find_pivots] can raise is [KeyError]. *)
Lemma scan_edges_err u nbrs Wi e :
  scan_edges d_hat B u nbrs Wi = Err e → e = KeyError.
Proof.
  revert Wi. induction nbrs as [|[v w] rest IH]; intros Wi;
    cbn [scan_edges]; [discriminate|].
  unfold subscript.
  destruct (d_hat !! u); cbn [mbind result_bind]; [|congruence].
  destruct (d_hat !! v); cbn [mbind result_bind]; [|congruence].
  destruct (Qle_bool _ _); [destruct (cost_ltb _ _)|]; apply IH.
Qed.

Lemma scan_layer_err us Wi e :
  scan_layer edges d_hat B us Wi = Err e → e = KeyError.
Proof.
  revert Wi. induction us as [|u rest IH]; intros Wi;
    cbn [scan_layer]; [discriminate|].
  destruct (scan_edges _ _ _ _ _) eqn:Hs; cbn [mbind result_bind].
  - apply IH.
  - intros [= <-]. by apply scan_edges_err in Hs.
Qed.

Lemma relax_rounds_err n W Wi_1 e :
  relax_rounds n edges d_hat B W Wi_1 = Err e → e = KeyError.
Proof.
  revert W Wi_1. induction n as [|n IH]; intros W Wi_1;
    cbn [relax_rounds]; [discriminate|].
  destruct (scan_layer _ _ _ _ _) as [Wi|e'] eqn:Hs; cbn [mbind result_bind].
  - destruct (decide _); [discriminate | apply IH].
  - intros [= <-]. by apply scan_layer_err in Hs.
Qed.

Lemma forest_edges_err W u nbrs F e :
  forest_edges d_hat W u nbrs F = Err e → e = KeyError.
Proof.
  revert F. induction nbrs as [|[v w] rest IH]; intros F;
    cbn [forest_edges]; [discriminate|].
  destruct (decide _); [|apply IH]. unfold subscript.
  destruct (d_hat !! u); cbn [mbind result_bind]; [|congruence].
  destruct (d_hat !! v); cbn [mbind result_bind]; [|congruence].
  destruct (Qltb _ _); apply IH.
Qed.

Lemma build_forest_err W us F e :
  build_forest edges d_hat W us F = Err e → e = KeyError.
Proof.
  revert F. induction us as [|u rest IH]; intros F;
    cbn [build_forest]; [discriminate|].
  destruct (forest_edges _ _ _ _ _) eqn:Hs; cbn [mbind result_bind].
  - apply IH.
  - intros [= <-]. by apply forest_edges_err in Hs.
Qed.

Lemma covered_runs (S : gset Z) (k : Z) :
  estimates_cover edges d_hat S (frontier edges d_hat S k B) →
  relax_rounds (Z.to_nat k) edges d_hat B S S
    = Ok (frontier edges d_hat S k B) ∧
  ∃ F, build_forest edges d_hat (frontier edges d_hat S k B)
         (elements (frontier edges d_hat S k B)) (Forest ∅ ∅) = Ok F.
Proof.
  intros [_ Hcov]. split.
  - apply relax_rounds_ok; [done|]. intros u v w Hu. by apply Hcov.
  - apply build_forest_ok. intros u v w Hu%elem_of_elements.
    by apply Hcov.
Qed.

(** C10, as amended.  The lookups [d_hat[...]] are unguarded.  When
    [d_hat] has a value for every vertex of [S] and for both end points of
    every edge that leaves a vertex of the accumulated frontier [W], no
    lookup fails and [find_pivots] returns a pair [(P, W)].  The only
    exception the function can raise is the key-lookup error, and it is
    raised only when that condition is violated. *)
Theorem find_pivots_lookups (S : gset Z) (k : Z) :
  (estimates_cover edges d_hat S (frontier edges d_hat S k B) →
   ∃ fuel P, find_pivots fuel edges d_hat S k B
             = Some (Ok (P, frontier edges d_hat S k B))) ∧
  (∀ fuel e, find_pivots fuel edges d_hat S k B = Some (Err e) →
     e = KeyError ∧
     ¬ estimates_cover edges d_hat S (frontier edges d_hat S k B)).
Proof.
  split.
  - intros Hcov. destruct (covered_runs S k Hcov) as [HW [F HF]].
    destruct (find_pivots_terminates edges d_hat S k B) as (fuel & r & Hr).
    exists fuel. unfold find_pivots in *. rewrite HW in *.
    destruct (decide _); [eauto|]. rewrite HF in *. cbv zeta in *.
    destruct (select_pivots _ _ _ _ _ _); [eauto | discriminate].
  - intros fuel e Hrun. unfold find_pivots in Hrun.
    destruct (relax_rounds _ _ _ _ _ _) as [W|e'] eqn:HW.
    + destruct (decide _); [discriminate|].
      destruct (build_forest _ _ _ _ _) as [F|e''] eqn:HF.
      * cbv zeta in Hrun. destruct (select_pivots _ _ _ _ _ _); discriminate.
      * injection Hrun as ->. split; [by apply build_forest_err in HF|].
        intros Hcov. destruct (covered_runs S k Hcov) as [HW' [F HF']].
        rewrite HW in HW'. injection HW' as ->. congruence.
    + injection Hrun as ->. split; [by apply relax_rounds_err in HW|].
      intros Hcov. destruct (covered_runs S k Hcov) as [HW' _]. congruence.
Qed.

End Lookups.

Example demo_run :
  Pivots.find_pivots 7 demo_edges demo_d_hat demo_S 2 (Fin 10)
  = Some (Ok ({[0%Z]}, demo_W)).
Proof. vm_compute. reflexivity. Qed.

Lemma find_pivots_slow_path_witness :
  Pivots.find_pivots 7 demo_edges demo_d_hat demo_S 2 (Fin 10)
    = Some (Ok ({[0%Z]}, demo_W)) ∧
  ¬ (Z.of_nat (size demo_W) > 2 * Z.max 1 (Z.of_nat (size demo_S)))%Z ∧
  (0%Z ∈ ({[0%Z]} : gset Z)
   ↔ PivotSpec.pivot demo_edges demo_d_hat demo_W demo_S 2 0%Z).
Proof.
  assert (Pivots.find_pivots 7 demo_edges demo_d_hat demo_S 2 (Fin 10)
          = Some (Ok ({[0%Z]}, demo_W))) as Hrun
    by (vm_compute; reflexivity).
  assert (¬ (Z.of_nat (size demo_W)
             > 2 * Z.max 1 (Z.of_nat (size demo_S)))%Z) as Hslow
    by (vm_compute; congruence).
  split; [exact Hrun|]. split; [exact Hslow|].
  exact (find_pivots_slow_path 7 demo_edges demo_d_hat demo_S 2 (Fin 10)
           {[0%Z]} demo_W Hrun Hslow 0%Z).
Defined.

Lemma find_pivots_fast_path_witness :
  Pivots.relax_rounds (Z.to_nat 1) demo_edges demo_d_hat (Fin 10)
    {[0%Z]} {[0%Z]} = Ok {[0%Z; 1%Z; 2%Z]} ∧
  Pivots.find_pivots 0 demo_edges demo_d_hat {[0%Z]} 1 (Fin 10)
    = Some (Ok ({[0%Z]}, {[0%Z; 1%Z; 2%Z]})).
Proof.
  assert (Pivots.relax_rounds (Z.to_nat 1) demo_edges demo_d_hat (Fin 10)
            {[0%Z]} {[0%Z]} = Ok {[0%Z; 1%Z; 2%Z]}) as HW
    by (vm_compute; reflexivity).
  split; [exact HW|].
  apply (find_pivots_fast_path 0 demo_edges demo_d_hat {[0%Z]} 1 (Fin 10)
           {[0%Z; 1%Z; 2%Z]} HW).
  vm_compute. reflexivity.
Defined.

Lemma find_pivots_bounds_witness :
  demo_S ⊆ demo_W ∧ ({[0%Z]} : gset Z) ⊆ demo_S.
Proof.
  apply (find_pivots_bounds 7 demo_edges demo_d_hat demo_S 2 (Fin 10)).
  vm_compute. reflexivity.
Defined.

(** A vertex of [S] without an estimate and without outgoing edges: its
    estimate is never read, and the call returns. *)
Lemma find_pivots_unread_estimate :
  0%Z ∈ ({[0%Z]} : gset Z) ∧
  (∅ : gmap Z Q) !! 0%Z = None ∧
  Pivots.find_pivots 1 ∅ ∅ {[0%Z]} 1 (Fin 10)
    = Some (Ok ({[0%Z]}, {[0%Z]})).
Proof.
  split; [set_solver|]. split; [reflexivity|]. vm_compute. reflexivity.
Qed.

Lemma find_pivots_lookups_witness :
  PivotSpec.estimates_cover demo_edges demo_d_hat demo_S
    (PivotSpec.frontier demo_edges demo_d_hat demo_S 2 (Fin 10)) ∧
  ∃ fuel P,
    Pivots.find_pivots fuel demo_edges demo_d_hat demo_S 2 (Fin 10)
    = Some (Ok (P, PivotSpec.frontier demo_edges demo_d_hat demo_S 2 (Fin 10))).
Proof.
  assert (PivotSpec.estimates_cover demo_edges demo_d_hat demo_S
    (PivotSpec.frontier demo_edges demo_d_hat demo_S 2 (Fin 10))) as Hcov.
  { split.
    - intros u Hu. apply elem_of_dom.
      assert (demo_S ⊆ dom demo_d_hat) as Hsub; [|by apply Hsub].
      apply (bool_decide_unpack _). vm_compute. reflexivity.
    - intros u v w _ Hin. unfold Pivots.edges_get in Hin.
      assert (Forall (λ e : Z * list (Z * Q),
                is_Some (demo_d_hat !! e.1) ∧
                Forall (λ vw : Z * Q, is_Some (demo_d_hat !! vw.1)) e.2)
              (map_to_list demo_edges)) as Hedges.
      { apply (bool_decide_unpack _). vm_compute. reflexivity. }
      destruct (demo_edges !! u) as [l|] eqn:Hl;
        [|by apply elem_of_nil in Hin].
      apply elem_of_map_to_list in Hl.
      rewrite Forall_forall in Hedges. destruct (Hedges _ Hl) as [Hu Hvs].
      split; [exact Hu|]. rewrite Forall_forall in Hvs.
      exact (Hvs _ Hin). }
  split; [exact Hcov|].
  exact (proj1 (find_pivots_lookups demo_edges demo_d_hat (Fin 10) demo_S 2)
           Hcov).
Defined.

(** * Properties of the graph builders *)

Section Events.

Lemma append_edge_ok adj key l e :
  adj !! key = Some l → append_edge adj key e = Ok (<[key := l ++ [e]]> adj).
Proof. intros Hl. unfold append_edge, subscript. by rewrite Hl. Qed.

Lemma apply_events_app evs1 evs2 adj :
  apply_events (evs1 ++ evs2) adj
  = (adj' ← apply_events evs1 adj; apply_events evs2 adj').
Proof.
  revert adj. induction evs1 as [|[key e] rest IH]; intros adj; cbn; [done|].
  destruct (append_edge adj key e); cbn; [apply IH | done].
Qed.

Lemma edges_for_app evs1 evs2 key :
  edges_for (evs1 ++ evs2) key = edges_for evs1 key ++ edges_for evs2 key.
Proof. unfold edges_for. by rewrite filter_app, fmap_app. Qed.

Lemma elem_of_edges_for evs key e :
  e ∈ edges_for evs key ↔ (key, e) ∈ evs.
Proof.
  unfold edges_for. rewrite list_elem_of_fmap. split.
  - intros ([k e'] & -> & [Hk Hin]%list_elem_of_filter). simpl in *.
    by subst.
  - intros Hin. exists (key, e). split; [done|].
    apply list_elem_of_filter. done.
Qed.

Lemma apply_events_ok evs adj :
  (∀ ev, ev ∈ evs → is_Some (adj !! ev.1)) →
  ∃ adj', apply_events evs adj = Ok adj' ∧
          ∀ key, adj' !! key = (λ l, l ++ edges_for evs key) <$> adj !! key.
Proof.
  revert adj. induction evs as [|[k0 e] rest IH]; intros adj Hdom.
  - exists adj. split; [done|]. intros key. unfold edges_for. cbn.
    destruct (adj !! key); cbn; [|done]. by rewrite app_nil_r.
  - destruct (Hdom (k0, e)) as [l Hl]; [left|]. cbn in Hl.
    cbn [apply_events]. unfold append_edge, subscript. rewrite Hl.
    cbn [mbind result_bind].
    destruct (IH (<[k0 := l ++ [e]]> adj)) as (adj' & Hrun & Hlook).
    { intros ev Hev. destruct (decide (k0 = ev.1)) as [<-|Hne].
      - rewrite lookup_insert_eq. eauto.
      - rewrite lookup_insert_ne by done. apply Hdom. by right. }
    exists adj'. split; [done|]. intros key. rewrite Hlook.
    unfold edges_for. rewrite filter_cons. cbn [fst].
    destruct (decide (k0 = key)) as [->|Hne].
    + rewrite lookup_insert_eq, Hl. cbn. by rewrite <- app_assoc.
    + rewrite lookup_insert_ne by done. done.
Qed.

Lemma empty_adj_lookup ids key :
  empty_adj ids !! key = if decide (key ∈ ids) then Some [] else None.
Proof.
  unfold empty_adj. induction ids as [|i ids IH]; cbn.
  - rewrite lookup_empty. by rewrite decide_False by apply not_elem_of_nil.
  - destruct (decide (i = key)) as [->|Hne].
    + rewrite lookup_insert_eq. by rewrite decide_True by left.
    + rewrite lookup_insert_ne by done. rewrite IH.
      destruct (decide (key ∈ ids)).
      * by rewrite decide_True by (by right).
      * rewrite decide_False; [done|].
        intros [->|?]%elem_of_cons; done.
Qed.

(** Events whose keys are all among [ids], applied to the empty
    dictionary over [ids]. *)
Lemma apply_events_empty ids evs :
  (∀ ev, ev ∈ evs → ev.1 ∈ ids) →
  ∃ adj, apply_events evs (empty_adj ids) = Ok adj ∧
         ∀ key, adj !! key
                = if decide (key ∈ ids) then Some (edges_for evs key) else None.
Proof.
  intros Hkeys. destruct (apply_events_ok evs (empty_adj ids)) as (adj & Hrun & Hl).
  - intros ev Hev. rewrite empty_adj_lookup.
    rewrite decide_True by auto. eauto.
  - exists adj. split; [done|]. intros key. rewrite Hl, empty_adj_lookup.
    by destruct (decide (key ∈ ids)).
Qed.

End Events.

(** ** Loops over the unordered pairs of a node dictionary *)

Section PairLoops.

Context {N : Type}.
Variable nid : N → string.
Variable pair_events : N → N → list event.

(** An event comes from a pair of entries, the first of which stands
    earlier in the dictionary. *)
Lemma elem_of_pairs_events nodes ev :
  ev ∈ pairs_events pair_events nodes ↔
  ∃ i j ku u kv v, (i < j)%nat ∧ nodes !! i = Some (ku, u) ∧
                   nodes !! j = Some (kv, v) ∧ ev ∈ pair_events u v.
Proof.
  induction nodes as [|[k0 u0] rest IH]; cbn [pairs_events].
  - split; [by intros ?%elem_of_nil|].
    intros (i & j & ku & u & kv & v & _ & Hi & _). by destruct i.
  - rewrite elem_of_app, IH. split.
    + intros [Hin|(i & j & ku & u & kv & v & Hlt & Hi & Hj & Hev)].
      * apply list_elem_of_In, in_flat_map in Hin as ([kv v] & Hv & Hev).
        apply list_elem_of_In, list_elem_of_lookup in Hv as [j Hj].
        exists 0%nat, (S j), k0, u0, kv, v.
        split_and!; [lia | done | done | by apply list_elem_of_In].
      * exists (S i), (S j), ku, u, kv, v. split_and!; [lia|done..].
    + intros (i & j & ku & u & kv & v & Hlt & Hi & Hj & Hev).
      destruct j as [|j]; [lia|]. cbn in Hj.
      destruct i as [|i]; cbn in Hi.
      * injection Hi as <- <-. left.
        apply list_elem_of_In, in_flat_map. exists (kv, v).
        split; [|by apply list_elem_of_In].
        apply list_elem_of_In, list_elem_of_lookup. eauto.
      * right. exists i, j, ku, u, kv, v. split_and!; [lia|done..].
Qed.

Lemma node_key nodes i key n :
  well_formed nid nodes → nodes !! i = Some (key, n) → nid n ∈ nodes.*1.
Proof.
  intros [_ Hid] Hi. apply list_elem_of_fmap. exists (key, n).
  split; [|by eapply list_elem_of_lookup_2].
  cbn. apply Hid. by eapply list_elem_of_lookup_2.
Qed.

Lemma same_node nodes i j ku u kv v :
  well_formed nid nodes →
  nodes !! i = Some (ku, u) → nodes !! j = Some (kv, v) →
  nid u = nid v → i = j.
Proof.
  intros [Hnd Hid] Hi Hj Heq.
  eapply NoDup_lookup; [exact Hnd | |].
  - rewrite list_lookup_fmap, Hi. reflexivity.
  - rewrite list_lookup_fmap, Hj. cbn. f_equal.
    rewrite <- (Hid ku u), <- (Hid kv v), Heq; [done|..];
      by eapply list_elem_of_lookup_2.
Qed.

Lemma pairs_events_keys nodes ev :
  local_events nid pair_events → well_formed nid nodes →
  ev ∈ pairs_events pair_events nodes → ev.1 ∈ nodes.*1.
Proof.
  intros Hloc Hwf
    (i & j & ku & u & kv & v & _ & Hi & Hj & Hev)%elem_of_pairs_events.
  destruct (Hloc u v ev Hev) as [-> | ->]; by eapply node_key.
Qed.

Lemma mirrored_local linked weight : mirrored nid pair_events linked weight → local_events nid pair_events.
Proof.
  intros Hm u v [a [b w]] (_ & _ & [[-> _]|[-> _]])%Hm; cbn; auto.
Qed.

Lemma mirrored_edges linked weight nodes
    (adj : gmap string (list (string * Q))) :
  mirrored nid pair_events linked weight → well_formed nid nodes →
  (∀ key, adj !! key
          = if decide (key ∈ nodes.*1)
            then Some (edges_for (pairs_events pair_events nodes) key) else None) →
  ∀ i j ku u kv v w,
    (i < j)%nat → nodes !! i = Some (ku, u) → nodes !! j = Some (kv, v) →
    ((nid v, w) ∈ default [] (adj !! nid u)
       ↔ linked u v ∧ w = weight u v) ∧
    ((nid u, w) ∈ default [] (adj !! nid v)
       ↔ linked u v ∧ w = weight u v).
Proof.
  intros Hpair Hwf Hl i j ku u kv v w Hlt Hi Hj.
  rewrite !Hl.
  rewrite !decide_True by (eapply node_key; eassumption).
  cbn [default from_option]. unfold Datatypes.id.
  rewrite !elem_of_edges_for, !elem_of_pairs_events.
  split; split.
  - intros (i' & j' & ku' & u' & kv' & v' & Hlt' & Hi' & Hj' & Hev).
    apply Hpair in Hev as (Hm & -> & [[Hu Hv]|[Hu Hv]]).
    + assert (i = i') as <- by (eapply same_node; eassumption).
      assert (j = j') as <- by (eapply same_node; eassumption).
      rewrite Hi in Hi'. rewrite Hj in Hj'.
      injection Hi' as <- <-. injection Hj' as <- <-. done.
    + assert (i = j') as <- by (eapply same_node; eassumption).
      assert (j = i') as <- by (eapply same_node; eassumption).
      lia.
  - intros [Hm ->]. exists i, j, ku, u, kv, v.
    split_and!; try done. apply Hpair. auto.
  - intros (i' & j' & ku' & u' & kv' & v' & Hlt' & Hi' & Hj' & Hev).
    apply Hpair in Hev as (Hm & -> & [[Hu Hv]|[Hu Hv]]).
    + assert (j = i') as <- by (eapply same_node; eassumption).
      assert (i = j') as <- by (eapply same_node; eassumption).
      lia.
    + assert (i = i') as <- by (eapply same_node; eassumption).
      assert (j = j') as <- by (eapply same_node; eassumption).
      rewrite Hi in Hi'. rewrite Hj in Hj'.
      injection Hi' as <- <-. injection Hj' as <- <-. done.
  - intros [Hm ->]. exists i, j, ku, u, kv, v.
    split_and!; try done. apply Hpair. auto.
Qed.

(** When no pair appends anything, there is no event at all. *)
Lemma pairs_events_nil nodes :
  (∀ i j ku u kv v, (i < j)%nat → nodes !! i = Some (ku, u) →
                    nodes !! j = Some (kv, v) → pair_events u v = []) →
  pairs_events pair_events nodes = [].
Proof.
  intros Hnone. destruct (pairs_events pair_events nodes) as [|ev evs] eqn:Hev; [done|].
  assert (ev ∈ pairs_events pair_events nodes) as Hin by (rewrite Hev; left).
  apply elem_of_pairs_events in Hin
    as (i & j & ku & u & kv & v & Hlt & Hi & Hj & Hin).
  rewrite (Hnone i j ku u kv v) in Hin by done. by apply elem_of_nil in Hin.
Qed.

End PairLoops.

Lemma Qle_bool_min d a b : Qle_bool d (Qmin a b) = true ↔ d <= a ∧ d <= b.
Proof. rewrite Qle_bool_iff. apply Q.min_glb_iff. Qed.

(** ** The coverage builder of iot_routing_dijkstra.py *)

Section IotBuilder.

Import Iot.

Variable euclid : Node → Node → Q.
Variable weight_fn : Node → Node → Q.

Lemma iot_visit_pair_events mode u v adj :
  known_mode mode →
  visit_pair euclid mode weight_fn u v adj
  = apply_events (iot_pair_events euclid weight_fn mode u v) adj.
Proof.
  intros Hmode. unfold visit_pair, iot_pair_events. cbv zeta.
  destruct (decide (mode = "both"%string)) as [->|Hnb].
  - destruct (Qle_bool _ _); [|done]. cbn [apply_events]. fold (iot_avg weight_fn u v).
    destruct (append_edge adj _ _); cbn; [|done].
    by destruct (append_edge _ _ _).
  - destruct Hmode as [Hb| ->]; [done|]. rewrite decide_True by done.
    rewrite apply_events_app.
    destruct (in_range euclid u v); cbn [apply_events].
    + destruct (append_edge adj _ _); cbn; [|done].
      destruct (in_range euclid v u); cbn; [|done].
      by destruct (append_edge _ _ _).
    + cbn. destruct (in_range euclid v u); cbn; [|done].
      by destruct (append_edge _ _ _).
Qed.

Lemma iot_inner_loop_events mode u vs adj :
  known_mode mode →
  inner_loop euclid mode weight_fn u vs adj
  = apply_events
      (flat_map (λ kv : string * Node, iot_pair_events euclid weight_fn mode u kv.2) vs) adj.
Proof.
  intros Hmode. revert adj. induction vs as [|[kv v] rest IH]; intros adj;
    cbn [inner_loop flat_map]; [done|].
  rewrite apply_events_app, iot_visit_pair_events by done. cbn [snd].
  destruct (apply_events _ adj); cbn; [apply IH | done].
Qed.

Lemma iot_outer_loop_events mode nodes adj :
  known_mode mode →
  outer_loop euclid mode weight_fn nodes adj
  = apply_events (pairs_events (iot_pair_events euclid weight_fn mode) nodes) adj.
Proof.
  intros Hmode. revert adj. induction nodes as [|[ku u] rest IH]; intros adj;
    cbn [outer_loop pairs_events]; [done|].
  rewrite apply_events_app, iot_inner_loop_events by done.
  destruct (apply_events _ adj); cbn; [apply IH | done].
Qed.

Lemma iot_both_mirrored :
  mirrored id (iot_pair_events euclid weight_fn "both")
    (iot_mutual euclid) (iot_avg weight_fn).
Proof.
  intros u v a b w. unfold iot_pair_events, iot_mutual.
  rewrite decide_True by done. rewrite <- Qle_bool_min.
  destruct (Qle_bool _ _).
  - rewrite elem_of_cons, list_elem_of_singleton. split.
    + intros [[= -> -> ->]|[= -> -> ->]]; auto.
    + intros (_ & -> & [[-> ->]|[-> ->]]); auto.
  - split; [by intros ?%elem_of_nil|]. by intros [? _].
Qed.

(** In mode ['both'] the edge [u → v] and the edge [v → u] are present
    exactly when the two nodes see each other, with the averaged weight. *)
Lemma iot_both_edges nodes :
  well_formed id nodes →
  ∃ adj, build_graph euclid nodes "both" weight_fn = Ok adj ∧
    ∀ i j ku u kv v w,
      (i < j)%nat → nodes !! i = Some (ku, u) → nodes !! j = Some (kv, v) →
      ((id v, w) ∈ default [] (adj !! id u)
         ↔ iot_mutual euclid u v ∧ w = iot_avg weight_fn u v) ∧
      ((id u, w) ∈ default [] (adj !! id v)
         ↔ iot_mutual euclid u v ∧ w = iot_avg weight_fn u v).
Proof.
  intros Hwf. unfold build_graph.
  rewrite iot_outer_loop_events by (by left).
  destruct (apply_events_empty nodes.*1
              (pairs_events (iot_pair_events euclid weight_fn "both") nodes))
    as (adj & Hrun & Hl).
  { intros ev. apply pairs_events_keys with (nid := id); [|done].
    eapply mirrored_local, iot_both_mirrored. }
  exists adj. split; [done|].
  eapply mirrored_edges; [apply iot_both_mirrored | done | done].
Qed.

(** With all radii zero and all distances positive, no pair qualifies. *)
Lemma iot_zero_radius_events mode nodes :
  (∀ key n, (key, n) ∈ nodes → r n == 0) →
  (∀ i j ku u kv v, i ≠ j → nodes !! i = Some (ku, u) →
                    nodes !! j = Some (kv, v) → 0 < euclid u v) →
  pairs_events (iot_pair_events euclid weight_fn mode) nodes = [].
Proof.
  intros Hzero Hpos. apply pairs_events_nil.
  intros i j ku u kv v Hlt Hi Hj.
  pose proof (Hzero ku u (list_elem_of_lookup_2 _ _ _ Hi)) as Hru.
  pose proof (Hzero kv v (list_elem_of_lookup_2 _ _ _ Hj)) as Hrv.
  assert (0 < euclid u v) as Huv by (apply (Hpos i j ku u kv v); [lia|done..]).
  assert (0 < euclid v u) as Hvu by (apply (Hpos j i kv v ku u); [lia|done..]).
  unfold iot_pair_events, in_range.
  destruct (decide _).
  - destruct (Qle_bool _ _) eqn:Hle; [|done].
    apply Qle_bool_min in Hle as [Hle _]. lra.
  - destruct (Qle_bool (euclid u v) (r u)) eqn:H1;
      [apply Qle_bool_iff in H1; lra|].
    destruct (Qle_bool (euclid v u) (r v)) eqn:H2;
      [apply Qle_bool_iff in H2; lra|].
    done.
Qed.

(** An unknown mode is noticed only when a pair is visited. *)
Lemma iot_unknown_mode_small nodes mode :
  (length nodes ≤ 1)%nat →
  build_graph euclid nodes mode weight_fn = Ok (empty_adj nodes.*1).
Proof.
  intros Hlen. destruct nodes as [|[k u] [|? ?]]; cbn in Hlen; [done..|lia].
Qed.

Lemma iot_unknown_mode_large nodes mode :
  ¬ known_mode mode → (2 ≤ length nodes)%nat →
  build_graph euclid nodes mode weight_fn = Err ValueError.
Proof.
  intros Hmode Hlen. destruct nodes as [|[k u] [|[k' v] rest]];
    cbn in Hlen; [lia..|].
  unfold build_graph. cbn [outer_loop inner_loop]. unfold visit_pair.
  cbv zeta. unfold known_mode in Hmode.
  rewrite !decide_False by tauto. done.
Qed.

End IotBuilder.

(** ** The builder of dijistra2.py *)

Section Dij2Builder.

Import Dij2.

Variable euclid : Node → Node → Q.
Variable weight_fn : Node → Node → Q.

Lemma dij2_visit_pair_events u v adj :
  visit_pair euclid weight_fn u v adj
  = apply_events ((dij2_pair_events euclid weight_fn) u v) adj.
Proof.
  unfold visit_pair, dij2_pair_events. cbv zeta.
  destruct (_ && _); [|done]. cbn [apply_events]. fold (dij2_avg weight_fn u v).
  destruct (append_edge adj _ _); cbn; [|done].
  by destruct (append_edge _ _ _).
Qed.

Lemma dij2_inner_loop_events u vs adj :
  inner_loop euclid weight_fn u vs adj
  = apply_events
      (flat_map (λ kv : string * Node, dij2_pair_events euclid weight_fn u kv.2) vs) adj.
Proof.
  revert adj. induction vs as [|[kv v] rest IH]; intros adj;
    cbn [inner_loop flat_map]; [done|].
  rewrite apply_events_app, dij2_visit_pair_events. cbn [snd].
  destruct (apply_events _ adj); cbn; [apply IH | done].
Qed.

Lemma dij2_outer_loop_events nodes adj :
  outer_loop euclid weight_fn nodes adj
  = apply_events (pairs_events (dij2_pair_events euclid weight_fn) nodes) adj.
Proof.
  revert adj. induction nodes as [|[ku u] rest IH]; intros adj;
    cbn [outer_loop pairs_events]; [done|].
  rewrite apply_events_app, dij2_inner_loop_events.
  destruct (apply_events _ adj); cbn; [apply IH | done].
Qed.

Lemma dij2_range_mirrored :
  mirrored id (dij2_pair_events euclid weight_fn)
    (dij2_mutual euclid) (dij2_avg weight_fn).
Proof.
  intros u v a b w. unfold dij2_pair_events, dij2_mutual.
  destruct (r u) as [ru|]; cbn [andb].
  - destruct (r v) as [rv|].
    + destruct (Qle_bool (euclid u v) ru) eqn:H1; cbn [andb].
      * destruct (Qle_bool (euclid u v) rv) eqn:H2.
        -- apply Qle_bool_iff in H1, H2.
           rewrite elem_of_cons, list_elem_of_singleton. split.
           ++ intros [[= -> -> ->]|[= -> -> ->]];
                (split; [exists ru, rv; auto | auto]).
           ++ intros (_ & -> & [[-> ->]|[-> ->]]); auto.
        -- split; [by intros ?%elem_of_nil|].
           intros [(ru' & rv' & _ & [= <-] & _ & Hle) _].
           apply Qle_bool_iff in Hle. congruence.
      * split; [by intros ?%elem_of_nil|].
        intros [(ru' & rv' & [= <-] & _ & Hle & _) _].
        apply Qle_bool_iff in Hle. congruence.
    + rewrite andb_false_r. split; [by intros ?%elem_of_nil|].
      intros [(ru' & rv' & _ & [=] & _) _].
  - split; [by intros ?%elem_of_nil|].
    intros [(ru' & rv' & [=] & _) _].
Qed.

Lemma dij2_range_edges nodes paths undirected :
  well_formed id nodes →
  ∃ adj, build_graph euclid nodes "range" paths undirected weight_fn = Ok adj ∧
    ∀ i j ku u kv v w,
      (i < j)%nat → nodes !! i = Some (ku, u) → nodes !! j = Some (kv, v) →
      ((id v, w) ∈ default [] (adj !! id u)
         ↔ dij2_mutual euclid u v ∧ w = dij2_avg weight_fn u v) ∧
      ((id u, w) ∈ default [] (adj !! id v)
         ↔ dij2_mutual euclid u v ∧ w = dij2_avg weight_fn u v).
Proof.
  intros Hwf. unfold build_graph. cbv zeta.
  rewrite decide_False by done. rewrite decide_True by done.
  rewrite dij2_outer_loop_events.
  destruct (apply_events_empty nodes.*1 (pairs_events (dij2_pair_events euclid weight_fn) nodes))
    as (adj & Hrun & Hl).
  { intros ev. apply pairs_events_keys with (nid := id); [|done].
    eapply mirrored_local, dij2_range_mirrored. }
  exists adj. split; [done|].
  eapply mirrored_edges; [apply dij2_range_mirrored | done | done].
Qed.

(** *** Mode ['paths'] *)

Lemma edges_for_path_events undirected paths u :
  edges_for (flat_map (path_events undirected) paths) u
  = flat_map (contribution undirected u) paths.
Proof.
  induction paths as [|p rest IH]; [done|]. cbn [flat_map].
  rewrite edges_for_app, IH. f_equal.
  unfold edges_for, path_events, contribution.
  rewrite filter_cons. cbn [fst].
  destruct (decide (start_id p = u)); destruct undirected; cbn;
    try rewrite filter_cons; cbn [fst];
    destruct (decide (end_id p = u)); cbn; done.
Qed.

Lemma paths_loop_dangling nodes undirected paths adj :
  (∀ key, key ∈ nodes.*1 → is_Some (adj !! key)) →
  Exists (dangling nodes) paths →
  paths_loop nodes undirected paths adj = Err KeyError.
Proof.
  intros Hdom Hex. revert adj Hdom.
  induction paths as [|p rest IH]; intros adj Hdom; [by inversion Hex|].
  cbn [paths_loop]. destruct (decide _) as [|Hok]; [done|].
  apply Exists_cons in Hex as [Hp|Hex]; [done|].
  apply Decidable.not_or in Hok as [Hs%dec_stable He%dec_stable].
  destruct (Hdom _ Hs) as [ls Hls].
  rewrite (append_edge_ok _ _ _ _ Hls). cbn [mbind result_bind].
  assert (∀ key, key ∈ nodes.*1 →
    is_Some (<[start_id p := ls ++ [(end_id p, length p)]]> adj !! key))
    as Hdom1.
  { intros key Hkey. rewrite lookup_insert. destruct (decide _); eauto. }
  destruct undirected; cbn [mbind result_bind]; [|by apply IH].
  destruct (Hdom1 _ He) as [le Hle].
  rewrite (append_edge_ok _ _ _ _ Hle). cbn [mbind result_bind].
  apply IH; [done|]. intros key Hkey. rewrite lookup_insert.
  destruct (decide _); eauto.
Qed.

Lemma paths_loop_events nodes undirected paths adj :
  Forall (λ p, ¬ dangling nodes p) paths →
  paths_loop nodes undirected paths adj
  = apply_events (flat_map (path_events undirected) paths) adj.
Proof.
  intros Hall. revert adj. induction Hall as [|p rest Hp _ IH]; intros adj;
    [done|].
  cbn [paths_loop flat_map]. rewrite decide_False by done.
  rewrite apply_events_app. unfold path_events. cbn [apply_events].
  destruct (append_edge adj _ _) as [adj1|]; cbn [mbind result_bind]; [|done].
  destruct undirected; cbn [apply_events mbind result_bind]; [|apply IH].
  destruct (append_edge adj1 _ _); cbn [mbind result_bind]; [apply IH|done].
Qed.

Lemma path_events_keys nodes undirected paths ev :
  Forall (λ p, ¬ dangling nodes p) paths →
  ev ∈ flat_map (path_events undirected) paths → ev.1 ∈ nodes.*1.
Proof.
  intros Hall (p & Hp & Hev)%list_elem_of_In%in_flat_map.
  rewrite Forall_forall in Hall.
  apply list_elem_of_In in Hp, Hev.
  apply Hall in Hp. apply Decidable.not_or in Hp as [Hs%dec_stable He%dec_stable].
  unfold path_events in Hev. apply elem_of_cons in Hev as [->|Hev]; [done|].
  destruct undirected; [|by apply elem_of_nil in Hev].
  by apply list_elem_of_singleton in Hev as ->.
Qed.

End Dij2Builder.

(** ** The claims about graph construction *)

(** C6.  In the symmetric coverage mode (['both'] of
    iot_routing_dijkstra.py, ['range'] of dijistra2.py), for two entries
    [u], [v] of a well-formed node dictionary, [u] standing first, the
    edge [u → v] is in the graph exactly when the distance [euclid u v] is
    at most both radii, and so is the edge [v → u]; the weight of either
    edge is [0.5 * (weight_fn u v + weight_fn v u)]. *)
Theorem build_graph_symmetric_edges :
  (∀ (euclid weight_fn : Iot.Node → Iot.Node → Q)
     (nodes : list (string * Iot.Node)),
     well_formed Iot.id nodes →
     ∃ adj, Iot.build_graph euclid nodes "both" weight_fn = Ok adj ∧
       ∀ i j ku u kv v w,
         (i < j)%nat → nodes !! i = Some (ku, u) → nodes !! j = Some (kv, v) →
         ((Iot.id v, w) ∈ default [] (adj !! Iot.id u) ↔
            (euclid u v <= Iot.r u ∧ euclid u v <= Iot.r v) ∧
            w = (1 # 2) * (weight_fn u v + weight_fn v u)) ∧
         ((Iot.id u, w) ∈ default [] (adj !! Iot.id v) ↔
            (euclid u v <= Iot.r u ∧ euclid u v <= Iot.r v) ∧
            w = (1 # 2) * (weight_fn u v + weight_fn v u))) ∧
  (∀ (euclid weight_fn : Dij2.Node → Dij2.Node → Q)
     (nodes : list (string * Dij2.Node)) paths undirected,
     well_formed Dij2.id nodes →
     ∃ adj, Dij2.build_graph euclid nodes "range" paths undirected weight_fn
            = Ok adj ∧
       ∀ i j ku u kv v w,
         (i < j)%nat → nodes !! i = Some (ku, u) → nodes !! j = Some (kv, v) →
         ((Dij2.id v, w) ∈ default [] (adj !! Dij2.id u) ↔
            (∃ ru rv, Dij2.r u = Some ru ∧ Dij2.r v = Some rv ∧
                      euclid u v <= ru ∧ euclid u v <= rv) ∧
            w = (1 # 2) * (weight_fn u v + weight_fn v u)) ∧
         ((Dij2.id u, w) ∈ default [] (adj !! Dij2.id v) ↔
            (∃ ru rv, Dij2.r u = Some ru ∧ Dij2.r v = Some rv ∧
                      euclid u v <= ru ∧ euclid u v <= rv) ∧
            w = (1 # 2) * (weight_fn u v + weight_fn v u))).
Proof.
  split.
  - intros euclid weight_fn nodes Hwf.
    exact (iot_both_edges euclid weight_fn nodes Hwf).
  - intros euclid weight_fn nodes paths undirected Hwf.
    exact (dij2_range_edges euclid weight_fn nodes paths undirected Hwf).
Qed.

(** C7.  In mode ['paths'], [build_graph] raises [KeyError] exactly when
    some record names a start or an end that is not a key of the node
    dictionary.  When no record does, the neighbour list of every node is
    the concatenation, in input order, of what each record contributes:
    [(end, length)] to its start and, when [undirected] is set,
    [(start, length)] to its end. *)
Theorem build_graph_paths (euclid weight_fn : Dij2.Node → Dij2.Node → Q)
    (nodes : list (string * Dij2.Node)) (paths : list Dij2.Path)
    (undirected : bool) :
  (Dij2.build_graph euclid nodes "paths" (Some paths) undirected weight_fn
     = Err KeyError
   ↔ Exists (dangling nodes) paths) ∧
  (Forall (λ p, ¬ dangling nodes p) paths →
   ∃ adj,
     Dij2.build_graph euclid nodes "paths" (Some paths) undirected weight_fn
       = Ok adj ∧
     ∀ u, adj !! u
          = if decide (u ∈ nodes.*1)
            then Some (flat_map (contribution undirected u) paths)
            else None).
Proof.
  assert (Forall (λ p, ¬ dangling nodes p) paths →
    ∃ adj,
      Dij2.build_graph euclid nodes "paths" (Some paths) undirected weight_fn
        = Ok adj ∧
      ∀ u, adj !! u
           = if decide (u ∈ nodes.*1)
             then Some (flat_map (contribution undirected u) paths)
             else None) as Hgood.
  { intros Hall. unfold Dij2.build_graph. cbv zeta.
    rewrite decide_True by done. rewrite paths_loop_events by done.
    destruct (apply_events_empty nodes.*1
                (flat_map (path_events undirected) paths))
      as (adj & Hrun & Hl).
    { intros ev. by apply path_events_keys. }
    exists adj. split; [done|]. intros u. rewrite Hl.
    by rewrite edges_for_path_events. }
  split; [|exact Hgood]. split.
  - intros Herr.
    destruct (decide (Exists (dangling nodes) paths)) as [|Hno]; [done|].
    apply not_Exists_Forall in Hno; [|apply _].
    destruct (Hgood Hno) as (adj & Hrun & _). congruence.
  - intros Hex. unfold Dij2.build_graph. cbv zeta.
    rewrite decide_True by done. apply paths_loop_dangling; [|done].
    intros key Hkey. rewrite empty_adj_lookup.
    rewrite decide_True by done. eauto.
Qed.

(** C8, as amended.  In a coverage mode, when every node has radius zero
    and any two distinct entries of the dictionary are at a positive
    distance, the graph has no edge at all: every neighbour list is
    empty. *)
Theorem zero_radius_no_edges (euclid weight_fn : Iot.Node → Iot.Node → Q)
    (nodes : list (string * Iot.Node)) (mode : string) :
  mode = "both"%string ∨ mode = "either"%string →
  (∀ key n, (key, n) ∈ nodes → Iot.r n == 0) →
  (∀ i j ku u kv v, i ≠ j → nodes !! i = Some (ku, u) →
                    nodes !! j = Some (kv, v) → 0 < euclid u v) →
  ∃ adj, Iot.build_graph euclid nodes mode weight_fn = Ok adj ∧
         ∀ key, adj !! key = if decide (key ∈ nodes.*1) then Some [] else None.
Proof.
  intros Hmode Hzero Hpos. exists (empty_adj nodes.*1).
  split; [|apply empty_adj_lookup].
  unfold Iot.build_graph. rewrite iot_outer_loop_events by done.
  by rewrite iot_zero_radius_events.
Qed.

(** C9, where the code departs from the claim.  The builder of
    iot_routing_dijkstra.py tests the mode inside the loop over pairs: with
    a single node no pair is visited and an unknown mode goes unnoticed,
    whereas the builder of dijistra2.py rejects it. *)
Theorem unknown_mode_single_node :
  ∀ (euclid weight_fn : Iot.Node → Iot.Node → Q)
    (euclid' weight_fn' : Dij2.Node → Dij2.Node → Q),
    Iot.build_graph euclid [("A"%string, Iot.mkNode "A" 0 0 1)] "mesh" weight_fn
      = Ok {[ "A"%string := [] ]} ∧
    Dij2.build_graph euclid' [("A"%string, Dij2.mkNode "A" 0 0 (Some 1))]
      "mesh" None false weight_fn' = Err ValueError.
Proof. intros. split; reflexivity. Qed.

Lemma dij2_unknown_mode (euclid weight_fn : Dij2.Node → Dij2.Node → Q)
    nodes mode paths undirected :
  mode ≠ "paths"%string → mode ≠ "range"%string →
  Dij2.build_graph euclid nodes mode paths undirected weight_fn
  = Err ValueError.
Proof.
  intros H1 H2. unfold Dij2.build_graph. cbv zeta.
  by rewrite !decide_False by done.
Qed.

(** *** Worked layouts *)

Lemma well_formed_check {N} (nid : N → string) (nodes : list (string * N)) :
  NoDup nodes.*1 → Forall (λ kn, nid kn.2 = kn.1) nodes →
  well_formed nid nodes.
Proof.
  intros Hnd Hall. split; [done|]. intros key n Hin.
  rewrite Forall_forall in Hall. exact (Hall _ Hin).
Qed.

Lemma base_nodes_well_formed : well_formed Iot.id base_nodes.
Proof.
  apply well_formed_check.
  - apply (bool_decide_unpack _). vm_compute. reflexivity.
  - repeat constructor.
Qed.

Lemma base_nodes2_well_formed : well_formed Dij2.id base_nodes2.
Proof.
  apply well_formed_check.
  - apply (bool_decide_unpack _). vm_compute. reflexivity.
  - repeat constructor.
Qed.

Lemma build_graph_symmetric_edges_witness :
  well_formed Iot.id base_nodes ∧ well_formed Dij2.id base_nodes2 ∧
  (∃ adj, Iot.build_graph iot_euclid base_nodes "both" iot_euclid = Ok adj ∧
     (("B"%string, 2) ∈ default [] (adj !! "A"%string) ↔
        (iot_euclid (Iot.mkNode "A" 0 0 (7 # 2)) (Iot.mkNode "B" 2 0 2)
           <= 7 # 2 ∧
         iot_euclid (Iot.mkNode "A" 0 0 (7 # 2)) (Iot.mkNode "B" 2 0 2)
           <= 2) ∧
        2 = (1 # 2) *
            (iot_euclid (Iot.mkNode "A" 0 0 (7 # 2)) (Iot.mkNode "B" 2 0 2) +
             iot_euclid (Iot.mkNode "B" 2 0 2) (Iot.mkNode "A" 0 0 (7 # 2))))) ∧
  (∃ adj, Dij2.build_graph dij2_euclid base_nodes2 "range" None false
            dij2_euclid = Ok adj).
Proof.
  pose proof base_nodes_well_formed as Hwf1.
  pose proof base_nodes2_well_formed as Hwf2.
  split; [exact Hwf1|]. split; [exact Hwf2|].
  destruct build_graph_symmetric_edges as [Hiot Hdij2]. split.
  - destruct (Hiot iot_euclid iot_euclid base_nodes Hwf1) as (adj & Hrun & Hedges).
    exists adj. split; [exact Hrun|].
    destruct (Hedges 0%nat 1%nat "A"%string (Iot.mkNode "A" 0 0 (7 # 2))
                "B"%string (Iot.mkNode "B" 2 0 2) 2) as [Huv _];
      [lia | reflexivity | reflexivity |].
    exact Huv.
  - destruct (Hdij2 dij2_euclid dij2_euclid base_nodes2 None false Hwf2)
      as (adj & Hrun & _).
    exists adj. exact Hrun.
Defined.

Lemma build_graph_paths_witness :
  Forall (λ p, ¬ dangling base_nodes2 p) one_way ∧
  ∃ adj,
    Dij2.build_graph dij2_euclid base_nodes2 "paths" (Some one_way) false
      dij2_euclid = Ok adj ∧
    ∀ u, adj !! u
         = if decide (u ∈ base_nodes2.*1)
           then Some (flat_map (contribution false u) one_way)
           else None.
Proof.
  assert (Forall (λ p, ¬ dangling base_nodes2 p) one_way) as Hall.
  { apply (bool_decide_unpack _). vm_compute. reflexivity. }
  split; [exact Hall|].
  exact (proj2 (build_graph_paths dij2_euclid dij2_euclid base_nodes2
                  one_way false) Hall).
Defined.

Lemma zero_radius_no_edges_witness :
  ∃ adj, Iot.build_graph iot_euclid zero_nodes "both" iot_euclid = Ok adj ∧
         ∀ key, adj !! key
                = if decide (key ∈ zero_nodes.*1) then Some [] else None.
Proof.
  apply zero_radius_no_edges.
  - left. reflexivity.
  - intros key n Hin.
    assert (Forall (λ kn : string * Iot.Node, Iot.r kn.2 == 0) zero_nodes)
      as Hall by (repeat constructor).
    rewrite Forall_forall in Hall. exact (Hall _ Hin).
  - intros i j ku u kv v Hne Hi Hj.
    destruct i as [|[|[|i]]]; destruct j as [|[|[|j]]];
      try done; cbn in Hi, Hj;
      injection Hi as <- <-; injection Hj as <- <-;
      vm_compute; reflexivity.
Defined.

(** Two zero-radius nodes at the same place: the distance is [0], the
    test [d <= min(0, 0)] holds, and the two edges are added. *)
Lemma zero_radius_coincident_edge :
  (∀ key n, (key, n) ∈ coincident_nodes → Iot.r n == 0) ∧
  ∃ adj w,
    Iot.build_graph iot_euclid coincident_nodes "both" iot_euclid = Ok adj ∧
    adj !! "X"%string = Some [("Y"%string, w)] ∧
    adj !! "Y"%string = Some [("X"%string, w)].
Proof.
  split.
  - intros key n Hin.
    assert (Forall (λ kn : string * Iot.Node, Iot.r kn.2 == 0)
              coincident_nodes) as Hall by (repeat constructor).
    rewrite Forall_forall in Hall. exact (Hall _ Hin).
  - eexists _, _. split; [vm_compute; reflexivity|].
    split; vm_compute; reflexivity.
Qed.


(** * The path engine on graphs with nonnegative weights *)

Section CostFacts.

Lemma cost_ltb_fin a b : cost_ltb (Fin a) (Fin b) = true ↔ a < b.
Proof.
  unfold cost_ltb. rewrite Qlt_alt. destruct (a ?= b); split; congruence.
Qed.

Lemma cost_ltb_true a c :
  cost_ltb (Fin a) c = true → c = Inf ∨ ∃ b, c = Fin b ∧ a < b.
Proof.
  destruct c as [b|]; [|auto]. intros H%cost_ltb_fin. eauto.
Qed.

Lemma cost_ltb_false a c :
  cost_ltb (Fin a) c = false → ∃ b, c = Fin b ∧ b <= a.
Proof.
  destruct c as [b|]; [|discriminate]. intros H. exists b. split; [done|].
  destruct (Qlt_le_dec a b) as [Hlt|]; [|done].
  apply cost_ltb_fin in Hlt. congruence.
Qed.

Lemma cost_eqb_true a c :
  cost_eqb (Fin a) c = true → ∃ b, c = Fin b ∧ a == b.
Proof.
  destruct c as [b|]; [|discriminate]. unfold cost_eqb.
  intros H%Qeq_bool_iff. eauto.
Qed.

End CostFacts.

Section Heap.

Import Dijkstra.

Lemma entry_ltb_false (a b : entry) : entry_ltb a b = false → b.1 <= a.1.
Proof.
  unfold entry_ltb. destruct (a.1 ?= b.1) eqn:Hc; intros H.
  - apply Qeq_alt in Hc. lra.
  - discriminate.
  - apply Qgt_alt in Hc. lra.
Qed.

Lemma entry_ltb_true (a b : entry) : entry_ltb a b = true → a.1 <= b.1.
Proof.
  unfold entry_ltb. destruct (a.1 ?= b.1) eqn:Hc; intros H.
  - apply Qeq_alt in Hc. lra.
  - apply Qlt_alt in Hc. lra.
  - discriminate.
Qed.

Lemma heappop_none pq : heappop pq = None → pq = [].
Proof.
  destruct pq as [|x rest]; [done|]. cbn.
  destruct (heappop rest) as [[m rest']|]; [destruct (entry_ltb m x)|];
    discriminate.
Qed.

(** [heappop] takes out one entry, a least one, and leaves the others. *)
Lemma heappop_spec pq e pq' :
  heappop pq = Some (e, pq') →
  pq ≡ₚ e :: pq' ∧ ∀ e', e' ∈ pq → e.1 <= e'.1.
Proof.
  revert e pq'. induction pq as [|x rest IH]; intros e pq'; cbn [heappop];
    [discriminate|].
  destruct (heappop rest) as [[m rest']|] eqn:Hrest.
  - destruct (IH m rest' eq_refl) as [Hperm Hmin].
    destruct (entry_ltb m x) eqn:Hlt; intros [= <- <-].
    + split.
      * rewrite Hperm. apply perm_swap.
      * intros e' [->|He']%elem_of_cons; [by apply entry_ltb_true|auto].
    + split; [done|].
      intros e' [->|He']%elem_of_cons; [lra|].
      apply entry_ltb_false in Hlt. specialize (Hmin e' He'). lra.
  - apply heappop_none in Hrest as ->. intros [= <- <-].
    split; [done|]. intros e' ->%list_elem_of_singleton. lra.
Qed.

End Heap.

(** ** The loop invariant *)

Section DijkstraInvariant.

Import Dijkstra Route.

Variable adj : gmap string (list (string * Q)).
Variable start : string.
Variable banned : gset string.
Hypothesis Hnonneg : nonneg_weights adj.

Lemma init_inv cur :
  start ∈ dom adj → Inv adj start banned 0 [] cur [] (init adj start).
Proof.
  intros Hin. apply elem_of_dom in Hin as [nbrs Hin]. unfold init.
  constructor; cbn [dist prev pq].
  - apply lookup_insert_eq.
  - by rewrite lookup_fmap, Hin.
  - lra.
  - intros d v [= -> ->]%list_elem_of_singleton. split; [lra|].
    exists 0. rewrite lookup_insert_eq. split; [done|lra].
  - intros v u. rewrite lookup_fmap. by destruct (adj !! v).
  - intros u Hu. by apply elem_of_nil in Hu.
  - intros v dv. rewrite lookup_insert. destruct (decide (start = v)) as [->|].
    + intros [= <-]. split; [lra|auto].
    + rewrite lookup_fmap. by destruct (adj !! v).
  - intros l1 v l2 u Heq. by destruct l1.
  - constructor.
  - intros u Hu. by apply elem_of_nil in Hu.
  - intros u nbrs' v w Hu. by apply elem_of_nil in Hu.
Qed.

(** Outside the loop over edges nothing is pending, and [cur] is
    immaterial. *)
Lemma inv_cur m done cur cur' st :
  Inv adj start banned m done cur [] st → Inv adj start banned m done cur' [] st.
Proof.
  intros [? ? ? ? ? ? ? ? ? ? Hrel]. constructor; try done.
  intros u nbrs v w Hu Hn Hv Hb.
  destruct (Hrel u nbrs v w Hu Hn Hv Hb) as [[_ Hp]|]; [|by right].
  by apply elem_of_nil in Hp.
Qed.

(** Popping a least entry raises the mark to its key. *)
Lemma inv_pop m done cur st d u pq' :
  Inv adj start banned m done cur [] st →
  heappop (pq st) = Some ((d, u), pq') →
  Inv adj start banned d done cur [] (State (dist st) (prev st) pq') ∧
  (∃ du, dist st !! u = Some (Fin du) ∧ du <= d) ∧
  S (length pq') = length (pq st).
Proof.
  intros [Hsd Hsp Hm Hpq Hprev Hdone Hdist Hord Hnd Hdom Hrel] Hpop.
  apply heappop_spec in Hpop as [Hperm Hmin].
  assert ((d, u) ∈ pq st) as Hin by (rewrite Hperm; left).
  destruct (Hpq d u Hin) as [Hmd Hdu].
  split; [|split; [done | by rewrite Hperm]].
  constructor; cbn [dist prev pq]; try done.
  - lra.
  - intros d' v Hv.
    assert ((d', v) ∈ pq st) as Hv' by (rewrite Hperm; by right).
    destruct (Hpq d' v Hv') as [_ Hdv]. split; [|done].
    exact (Hmin (d', v) Hv').
  - intros x Hx. destruct (Hdone x Hx) as (dx & ? & ?). exists dx.
    split; [done|lra].
Qed.

(** An edge that brings no improvement leaves the state as it is. *)
Lemma relax_noop d u nbrs st :
  (∀ v w, (v, w) ∈ nbrs → v ∉ banned →
          ∃ dv, dist st !! v = Some (Fin dv) ∧ dv <= d + w) →
  relax banned d u nbrs st = Ok st.
Proof.
  induction nbrs as [|[v w] rest IH]; intros Hall; cbn [relax]; [done|].
  assert (relax banned d u rest st = Ok st) as Hrest.
  { apply IH. intros v' w' Hin. apply Hall. by right. }
  destruct (decide (v ∈ banned)); [done|].
  destruct (Hall v w) as (dv & Hdv & Hle); [left | done |].
  unfold subscript. rewrite Hdv. cbn [mbind result_bind].
  destruct (cost_ltb (Fin (d + w)) (Fin dv)) eqn:Hlt; [|done].
  apply cost_ltb_fin in Hlt. lra.
Qed.

(** The edge [u → v] improves the distance of [v]. *)
Lemma inv_update d done u v w rest st all_nbrs du dv :
  Inv adj start banned d done u ((v, w) :: rest) st →
  u ∈ done → adj !! u = Some all_nbrs → (v, w) ∈ all_nbrs →
  dist st !! u = Some (Fin du) → du == d →
  dist st !! v = Some dv → cost_ltb (Fin (d + w)) dv = true →
  Inv adj start banned d done u rest
    (State (<[v := Fin (d + w)]> (dist st)) (<[v := Some u]> (prev st))
           (heappush (pq st) (d + w, v))).
Proof.
  intros [Hsd Hsp Hm Hpq Hprev Hdone Hdist Hord Hnd Hdom Hrel]
    Hu Hadj Hvw Hdu Hdud Hdv Hlt.
  assert (0 <= w) as Hw by (eapply Hnonneg; eassumption).
  assert (∀ dv', dv = Fin dv' → d + w < dv') as Hltq.
  { intros dv' ->. by apply cost_ltb_fin. }
  assert (v ∉ done) as Hvdone.
  { intros Hin. destruct (Hdone v Hin) as (dv' & Hdv' & Hle).
    rewrite Hdv in Hdv'. injection Hdv' as ->.
    specialize (Hltq dv' eq_refl). lra. }
  assert (v ≠ start) as Hvs.
  { intros ->. rewrite Hsd in Hdv. injection Hdv as <-.
    specialize (Hltq 0 eq_refl). lra. }
  assert (∀ x, x ∈ done → x ≠ v) as Hne by (intros x Hx ->; done).
  constructor; cbn [dist prev pq]; try done.
  - by rewrite lookup_insert_ne.
  - by rewrite lookup_insert_ne.
  - unfold heappush. intros d' x [[= -> ->]|Hin]%elem_of_cons.
    + split; [lra|]. exists (d + w). rewrite lookup_insert_eq.
      split; [done|lra].
    + destruct (Hpq d' x Hin) as [Hmd (dx & Hdx & Hle)]. split; [done|].
      destruct (decide (v = x)) as [->|Hvx].
      * exists (d + w). rewrite lookup_insert_eq. split; [done|].
        rewrite Hdv in Hdx. injection Hdx as ->.
        specialize (Hltq dx eq_refl). lra.
      * exists dx. by rewrite lookup_insert_ne.
  - intros v' x. destruct (decide (v = v')) as [<-|Hvv].
    + rewrite lookup_insert_eq. intros [= <-]. split; [done|].
      exists du, (d + w), w, all_nbrs.
      rewrite lookup_insert_ne by (apply not_eq_sym, Hne, Hu).
      rewrite lookup_insert_eq. split_and!; try done. lra.
    + rewrite lookup_insert_ne by done. intros Hp.
      destruct (Hprev v' x Hp) as [Hx (dx & dv' & w' & nbrs & ? & ? & ? & ? & ?)].
      split; [done|]. exists dx, dv', w', nbrs.
      rewrite lookup_insert_ne by (apply not_eq_sym, Hne, Hx).
      rewrite lookup_insert_ne by done. done.
  - intros x Hx. rewrite lookup_insert_ne by (apply not_eq_sym, Hne, Hx).
    by apply Hdone.
  - intros v' dv'. destruct (decide (v = v')) as [<-|Hvv].
    + rewrite !lookup_insert_eq. intros [= <-]. split; [lra|]. right. eauto.
    + rewrite !lookup_insert_ne by done. apply Hdist.
  - intros l1 v' l2 x Heq.
    assert (v' ∈ done) as Hv' by (rewrite Heq; set_solver).
    rewrite lookup_insert_ne by (apply not_eq_sym, Hne, Hv').
    intros Hp. eapply Hord; eassumption.
  - intros u' nbrs v' w' Hu' Hn Hin Hb.
    assert (∀ du' dv', dist st !! u' = Some (Fin du') →
              dist st !! v' = Some (Fin dv') → dv' <= du' + w' →
              relaxed (<[v := Fin (d + w)]> (dist st)) u' v' w') as Hkeep.
    { intros du' dv' Hdu' Hdv' Hle. unfold relaxed.
      rewrite lookup_insert_ne by (apply not_eq_sym, Hne, Hu').
      destruct (decide (v = v')) as [<-|Hvv].
      - exists du', (d + w). rewrite lookup_insert_eq. split_and!; try done.
        rewrite Hdv in Hdv'. injection Hdv' as ->.
        specialize (Hltq dv' eq_refl). lra.
      - exists du', dv'. rewrite lookup_insert_ne by done. done. }
    destruct (Hrel u' nbrs v' w' Hu' Hn Hin Hb)
      as [[-> [[= -> ->]|Hrest]%elem_of_cons]|(du' & dv' & ? & ? & ?)].
    + right. exists du, (d + w).
      rewrite lookup_insert_ne by (apply not_eq_sym, Hne, Hu).
      rewrite lookup_insert_eq. split_and!; try done. lra.
    + left. done.
    + right. by eapply Hkeep.
Qed.

(** The edge at the head of the pending list is skipped or brings no
    improvement. *)
Lemma inv_skip d done u v w rest st :
  Inv adj start banned d done u ((v, w) :: rest) st →
  v ∈ banned ∨ relaxed (dist st) u v w →
  Inv adj start banned d done u rest st.
Proof.
  intros [Hsd Hsp Hm Hpq Hprev Hdone Hdist Hord Hnd Hdom Hrel] Hskip.
  constructor; try done.
  intros u' nbrs v' w' Hu' Hn Hin Hb.
  destruct (Hrel u' nbrs v' w' Hu' Hn Hin Hb)
    as [[-> [[= -> ->]|Hrest]%elem_of_cons]|?]; [|by left|by right].
  right. by destruct Hskip.
Qed.

(** The loop over the edges of [u]. *)
Lemma relax_inv d done u all_nbrs du nbrs st st' :
  adj !! u = Some all_nbrs → u ∈ done → du == d →
  nbrs ⊆ all_nbrs →
  Inv adj start banned d done u nbrs st →
  dist st !! u = Some (Fin du) →
  relax banned d u nbrs st = Ok st' →
  Inv adj start banned d done u [] st' ∧
  (length (pq st') ≤ length (pq st) + length nbrs)%nat.
Proof.
  intros Hadj Hu Hdud. revert st.
  induction nbrs as [|[v w] rest IH]; intros st Hsub Hinv Hdu;
    cbn [relax].
  - intros [= <-]. split; [done|lia].
  - assert (rest ⊆ all_nbrs) as Hsub' by set_solver.
    assert ((v, w) ∈ all_nbrs) as Hvw by set_solver.
    destruct (decide (v ∈ banned)) as [Hb|Hb].
    + intros Hrun. apply IH in Hrun as [Hinv' Hlen]; [| done | | done].
      * split; [done|]. cbn [length]. lia.
      * eapply inv_skip; [exact Hinv | by left].
    + unfold subscript. destruct (dist st !! v) as [dv|] eqn:Hdv;
        cbn [mbind result_bind]; [|discriminate].
      destruct (cost_ltb (Fin (d + w)) dv) eqn:Hlt.
      * intros Hrun. apply IH in Hrun as [Hinv' Hlen]; [| done | |].
        -- split; [done|]. cbn [length pq heappush] in *. lia.
        -- eapply inv_update; eassumption.
        -- cbn [dist]. rewrite lookup_insert_ne; [done|].
           intros <-. destruct (inv_done _ _ _ _ _ _ _ _ Hinv v Hu) as (du' & Hdu' & Hle).
           rewrite Hdv in Hdu'. injection Hdu' as ->.
           apply cost_ltb_fin in Hlt.
           assert (0 <= w) by (eapply Hnonneg; eassumption). lra.
      * intros Hrun. apply IH in Hrun as [Hinv' Hlen]; [| done | | done].
        -- split; [done|]. cbn [length]. lia.
        -- eapply inv_skip; [exact Hinv|]. right.
           apply cost_ltb_false in Hlt as (dv' & -> & Hle).
           exists du, dv'. split_and!; try done. lra.
Qed.

(** Relaxing the edges of a vertex for the first time. *)
Lemma inv_expand d done cur u nbrs du st :
  Inv adj start banned d done cur [] st →
  u ∉ done → adj !! u = Some nbrs →
  dist st !! u = Some (Fin du) → du <= d →
  Inv adj start banned d (u :: done) u nbrs st.
Proof.
  intros [Hsd Hsp Hm Hpq Hprev Hdone Hdist Hord Hnd Hdom Hrel]
    Hu Hadj Hdu Hle.
  constructor; try done.
  - intros v x Hp. destruct (Hprev v x Hp) as [Hx ?]. split; [by right|done].
  - intros x [->|Hx]%elem_of_cons; [eauto | auto].
  - intros l1 v l2 x Heq Hp. destruct l1 as [|a l1]; cbn in Heq.
    + injection Heq as <- <-. by destruct (Hprev _ _ Hp).
    + injection Heq as <- Heq. eapply Hord; eassumption.
  - by constructor.
  - intros x [->|Hx]%elem_of_cons; [eauto | auto].
  - intros u' nbrs' v w [->|Hu']%elem_of_cons Hn Hin Hb.
    + left. split; [done|]. congruence.
    + destruct (Hrel u' nbrs' v w Hu' Hn Hin Hb) as [[_ Hp]|]; [|by right].
      by apply elem_of_nil in Hp.
Qed.

Lemma unexplored_cons u nbrs done :
  u ∉ done → adj !! u = Some nbrs →
  (unexplored adj (u :: done) + length nbrs)%nat = unexplored adj done.
Proof.
  intros Hu Hadj. unfold unexplored.
  rewrite <- !(sum_list_with_Permutation_proper _ _ _
                (map_to_list_delete adj u nbrs Hadj)).
  cbn [sum_list_with fst snd].
  rewrite decide_True by left. rewrite decide_False by done.
  assert (∀ L : list (string * list (string * Q)),
    (∀ e, e ∈ L → e.1 ≠ u) →
    sum_list_with (λ e : string * list (string * Q),
      if decide (e.1 ∈ u :: done) then 0%nat else length e.2) L =
    sum_list_with (λ e : string * list (string * Q),
      if decide (e.1 ∈ done) then 0%nat else length e.2) L) as Heq.
  { induction L as [|e L IH]; intros HL; cbn [sum_list_with]; [done|].
    rewrite IH by (intros; apply HL; by right).
    assert (e.1 ≠ u) by (apply HL; left).
    destruct (decide (e.1 ∈ done)).
    - rewrite decide_True by (by right). done.
    - rewrite decide_False; [done|]. intros [?|?]%elem_of_cons; done. }
  rewrite Heq; [lia|].
  intros [y l'] Hin%elem_of_map_to_list. cbn.
  intros ->. by rewrite lookup_delete_eq in Hin.
Qed.

Variable goal : string.

(** The main loop keeps the invariant, and it ends within the budget
    whenever the budget covers the heap and the unexplored edges. *)
Lemma main_loop_inv fuel st m done cur :
  Inv adj start banned m done cur [] st →
  (∀ st', main_loop fuel adj goal banned st = Some (Ok st') →
          ∃ m' done', Inv adj start banned m' done' cur [] st') ∧
  ((length (pq st) + unexplored adj done ≤ fuel)%nat →
   is_Some (main_loop fuel adj goal banned st)).
Proof.
  revert st m done. induction fuel as [|fuel IH]; intros st m done Hinv.
  - cbn [main_loop]. destruct (heappop (pq st)) as [[[d u] pq']|] eqn:Hpop.
    + split; [discriminate|].
      destruct (inv_pop _ _ _ _ _ _ _ Hinv Hpop) as (_ & _ & Hlen). lia.
    + split; [|eauto]. intros st' [= <-]. eauto.
  - cbn [main_loop]. destruct (heappop (pq st)) as [[[d u] pq']|] eqn:Hpop.
    2: { split; [|eauto]. intros st' [= <-]. eauto. }
    destruct (inv_pop _ _ _ _ _ _ _ Hinv Hpop)
      as (Hinv1 & (du & Hdu & Hdule) & Hlen).
    cbn [dist].
    assert (subscript (dist st) u = Ok (Fin du)) as ->
      by (unfold subscript; by rewrite Hdu).
    destruct (negb (cost_eqb (Fin d) (Fin du)) || bool_decide (u ∈ banned))
      eqn:Hstale.
    { destruct (IH _ _ _ Hinv1) as [Hsound Htotal]. split; [done|].
      intros Hfuel. apply Htotal. cbn [pq]. lia. }
    apply orb_false_elim in Hstale as [Heq _].
    apply negb_false_iff, cost_eqb_true in Heq as (du' & [= <-] & Hddu).
    destruct (bool_decide (u = goal)).
    { split; [|eauto]. intros st' [= <-]. eauto. }
    destruct (adj !! u) as [nbrs|] eqn:Hadj.
    2: { assert (subscript adj u = Err KeyError) as ->
           by (unfold subscript; by rewrite Hadj).
         cbn [mbind result_bind]. split; [discriminate|eauto]. }
    assert (subscript adj u = Ok nbrs) as ->
      by (unfold subscript; by rewrite Hadj).
    cbn [mbind result_bind].
    destruct (decide (u ∈ done)) as [Hdone|Hdone].
    + rewrite relax_noop.
      * destruct (IH _ _ _ Hinv1) as [Hsound Htotal]. split; [done|].
        intros Hfuel. apply Htotal. cbn [pq]. lia.
      * intros v w Hin Hb.
        destruct (inv_relaxed _ _ _ _ _ _ _ _ Hinv1 u nbrs v w Hdone Hadj Hin Hb)
          as [[_ Hp]|(du' & dv & Hdu' & Hdv & Hle)];
          [by apply elem_of_nil in Hp|].
        cbn [dist] in *. rewrite Hdu in Hdu'. injection Hdu' as <-.
        exists dv. split; [done|lra].
    + pose proof (inv_expand _ _ _ _ _ _ _ Hinv1 Hdone Hadj Hdu Hdule)
        as Hinv2.
      destruct (relax banned d u nbrs _) as [st2|e] eqn:Hrelax;
        [|split; [discriminate|eauto]].
      assert (u ∈ u :: done) as Hhere by left.
      assert (du == d) as Hdud by lra.
      assert (nbrs ⊆ nbrs) as Hsub by done.
      destruct (relax_inv d (u :: done) u nbrs du nbrs
                  (State (dist st) (prev st) pq') st2
                  Hadj Hhere Hdud Hsub Hinv2 Hdu Hrelax)
        as [Hinv3 Hlen2].
      apply (inv_cur _ _ _ cur) in Hinv3.
      destruct (IH _ _ _ Hinv3) as [Hsound Htotal]. split; [done|].
      intros Hfuel. apply Htotal.
      pose proof (unexplored_cons u nbrs done Hdone Hadj).
      cbn [pq] in Hlen2. lia.
Qed.

End DijkstraInvariant.

(** ** Walking the predecessor links back *)

Section Reconstruction.

Import Dijkstra Route.

Variable adj : gmap string (list (string * Q)).
Variable start : string.
Variable banned : gset string.

Lemma walk_snoc p u v w nbrs q :
  walk_cost adj (p ++ [u]) q →
  adj !! u = Some nbrs → (v, w) ∈ nbrs →
  ∃ q', walk_cost adj (p ++ [u; v]) q' ∧ q' == q + w.
Proof.
  intros Hwalk Hadj Hin. revert q Hwalk.
  induction p as [|a p IH]; intros q Hwalk.
  - cbn in *. inversion Hwalk; subst.
    exists (w + 0). split; [|lra].
    eapply walk_cons; [exact Hadj | exact Hin | apply walk_one].
  - destruct p as [|b p].
    + cbn in *. inversion Hwalk as [| |? ? w0 nbrs0 ? c Ha Hb Hrest]; subst.
      destruct (IH c Hrest) as (c' & Hc' & Heq).
      exists (w0 + c'). split; [|lra].
      eapply walk_cons; [exact Ha | exact Hb | exact Hc'].
    + cbn in *. inversion Hwalk as [| |? ? w0 nbrs0 ? c Ha Hb Hrest]; subst.
      destruct (IH c Hrest) as (c' & Hc' & Heq).
      exists (w0 + c'). split; [|lra].
      eapply walk_cons; [exact Ha | exact Hb | exact Hc'].
Qed.

Lemma walk_back_more fuel fuel' prev cur acc r :
  (fuel ≤ fuel')%nat →
  walk_back fuel prev cur acc = Some r →
  walk_back fuel' prev cur acc = Some r.
Proof.
  revert fuel' cur acc. induction fuel as [|fuel IH]; intros fuel' cur acc Hle.
  - destruct cur; cbn; [discriminate|]. by destruct fuel'.
  - destruct fuel' as [|fuel']; [lia|]. destruct cur as [c|]; cbn; [|done].
    destruct (subscript prev c); [|done]. apply IH. lia.
Qed.

Lemma route_start m done cur st :
  Inv adj start banned m done cur [] st → route_to adj start st start [start].
Proof.
  intros Hinv. split; [done|]. split; [done|].
  exists 0, 0. split; [apply (inv_start_dist _ _ _ _ _ _ _ _ Hinv)|].
  split; [apply walk_one | lra].
Qed.

Lemma route_extend m done cur st u v L :
  Inv adj start banned m done cur [] st →
  prev st !! v = Some (Some u) →
  route_to adj start st u L → route_to adj start st v (v :: L).
Proof.
  intros Hinv Hp (Hhead & Hlast & du & q & Hdu & Hwalk & Hq).
  destruct (inv_prev _ _ _ _ _ _ _ _ Hinv v u Hp)
    as (_ & du' & dv & w & nbrs & Hdu' & Hdv & Hadj & Hin & Heq).
  rewrite Hdu in Hdu'. injection Hdu' as <-.
  apply head_Some in Hhead as [L' ->].
  split; [done|]. split; [by rewrite last_cons, Hlast|].
  rewrite reverse_cons in Hwalk.
  destruct (walk_snoc _ _ _ _ _ _ Hwalk Hadj Hin) as (q' & Hwalk' & Hq').
  exists dv, q'. split; [done|]. split; [|lra].
  rewrite !reverse_cons, <- app_assoc. exact Hwalk'.
Qed.

(** From a vertex of [done] the walk stays among the vertices relaxed
    before it, hence ends. *)
Lemma walk_from_done m done cur st n :
  Inv adj start banned m done cur [] st →
  ∀ l1 v l2 fuel acc,
    done = l1 ++ v :: l2 → (length l2 < n)%nat → (length l2 < fuel)%nat →
    ∃ L, walk_back fuel (prev st) (Some v) acc = Some (Ok (acc ++ L)) ∧
         route_to adj start st v L.
Proof.
  intros Hinv. induction n as [|n IH]; intros l1 v l2 fuel acc Hdone Hn Hfuel;
    [lia|].
  destruct fuel as [|fuel]; [lia|].
  assert (v ∈ done) as Hv by (rewrite Hdone; set_solver).
  destruct (inv_done _ _ _ _ _ _ _ _ Hinv v Hv) as (dv & Hdv & _).
  destruct (inv_dist _ _ _ _ _ _ _ _ Hinv v dv Hdv) as [_ [->|[u Hu]]].
  - exists [start]. split; [|by eapply route_start].
    cbn. unfold subscript.
    rewrite (inv_start_prev _ _ _ _ _ _ _ _ Hinv). by destruct fuel.
  - pose proof (inv_order _ _ _ _ _ _ _ _ Hinv _ _ _ _ Hdone Hu) as Hin.
    apply list_elem_of_split in Hin as (l2a & l2b & ->).
    rewrite length_app in Hn, Hfuel. cbn in Hn, Hfuel.
    destruct (IH (l1 ++ v :: l2a) u l2b fuel (acc ++ [v]))
      as (L & Hwalk & Hroute); [by rewrite <- app_assoc | lia | lia |].
    exists (v :: L). split; [|by eapply route_extend].
    cbn. unfold subscript. rewrite Hu. rewrite Hwalk.
    by rewrite <- app_assoc.
Qed.

(** From any vertex with a finite distance. *)
Lemma walk_from_any m done cur st v dv fuel :
  Inv adj start banned m done cur [] st →
  dist st !! v = Some (Fin dv) →
  (length done + 1 < fuel)%nat →
  ∃ L, walk_back fuel (prev st) (Some v) [] = Some (Ok L) ∧ route_to adj start st v L.
Proof.
  intros Hinv Hdv Hfuel. destruct fuel as [|fuel]; [lia|].
  destruct (inv_dist _ _ _ _ _ _ _ _ Hinv v dv Hdv) as [_ [->|[u Hu]]].
  - exists [start]. split; [|by eapply route_start].
    cbn. unfold subscript.
    rewrite (inv_start_prev _ _ _ _ _ _ _ _ Hinv). by destruct fuel.
  - destruct (inv_prev _ _ _ _ _ _ _ _ Hinv v u Hu) as [Hdone _].
    apply list_elem_of_split in Hdone as (l1 & l2 & Hdone).
    assert (length l2 < length done)%nat as Hlen
      by (rewrite Hdone, length_app; cbn; lia).
    destruct (walk_from_done m done cur st (S (length l2)) Hinv
                l1 u l2 fuel ([] ++ [v]) Hdone)
      as (L & Hwalk & Hroute); [lia | lia |].
    exists (v :: L). split; [|by eapply route_extend].
    cbn. unfold subscript. rewrite Hu. exact Hwalk.
Qed.

Lemma done_length m done cur st :
  Inv adj start banned m done cur [] st → (length done ≤ size adj)%nat.
Proof.
  intros Hinv. rewrite <- size_dom.
  change (size (dom adj)) with (length (elements (dom adj))).
  apply submseteq_length, NoDup_submseteq.
  - apply (inv_nodup _ _ _ _ _ _ _ _ Hinv).
  - intros u Hu. apply elem_of_elements, elem_of_dom.
    by apply (inv_dom _ _ _ _ _ _ _ _ Hinv).
Qed.

End Reconstruction.

(** ** The cost returned by [dijkstra] *)

Section DijkstraCost.

Import Dijkstra Route.

Variable adj : gmap string (list (string * Q)).
Variable start goal : string.
Variable banned : option (gset string).
Hypothesis Hnonneg : nonneg_weights adj.

Lemma dijkstra_sound fuel c p :
  dijkstra fuel adj start goal banned = Some (Ok (c, p)) →
  (c = Inf ∧ p = []) ∨
  (∃ q q', c = Fin q ∧ 0 <= q ∧ walk_cost adj p q' ∧ q' == q ∧
           head p = Some start ∧ last p = Some goal).
Proof.
  unfold dijkstra. cbv zeta.
  destruct (decide _) as [|_]; [intros [= <- <-]; by left|].
  destruct (decide _) as [|Hdom]; [intros [= <- <-]; by left|].
  assert (start ∈ dom adj) as Hstart.
  { destruct (decide (start ∈ dom adj)); [done|]. exfalso. apply Hdom. auto. }
  destruct (main_loop _ _ _ _ _) as [[st|e]|] eqn:Hloop; [|discriminate..].
  destruct (main_loop_inv adj start (default ∅ banned) Hnonneg goal fuel
              (init adj start) 0 [] start
              (init_inv adj start (default ∅ banned) start Hstart))
    as [Hsound _].
  destruct (Hsound st Hloop) as (m & done & Hinv).
  unfold finish, subscript.
  destruct (dist st !! goal) as [[c0|]|] eqn:Hgoal; [| |discriminate].
  2: { intros [= <- <-]. by left. }
  destruct (walk_back fuel (prev st) (Some goal) []) as [[path|e]|] eqn:Hwalk;
    [|discriminate..].
  intros [= <- <-]. right.
  destruct (walk_from_any adj start (default ∅ banned) m done start st goal c0
              (fuel + (length done + 2)) Hinv Hgoal)
    as (L & Hwalk' & Hhead & Hlast & dv & q & Hdv & Hcost & Hq); [lia|].
  apply (walk_back_more fuel (fuel + (length done + 2))) in Hwalk; [|lia].
  rewrite Hwalk in Hwalk'. injection Hwalk' as <-.
  rewrite Hgoal in Hdv. injection Hdv as <-.
  exists c0, q. split_and!; try done.
  - by destruct (inv_dist _ _ _ _ _ _ _ _ Hinv goal c0 Hgoal).
  - by rewrite head_reverse.
  - by rewrite last_reverse.
Qed.

Lemma dijkstra_total :
  is_Some (dijkstra (enough_fuel adj) adj start goal banned).
Proof.
  unfold dijkstra. cbv zeta.
  destruct (decide _) as [|_]; [eauto|].
  destruct (decide _) as [|Hdom]; [eauto|].
  assert (start ∈ dom adj) as Hstart.
  { destruct (decide (start ∈ dom adj)); [done|]. exfalso. apply Hdom. auto. }
  destruct (main_loop_inv adj start (default ∅ banned) Hnonneg goal
              (enough_fuel adj) (init adj start) 0 [] start
              (init_inv adj start (default ∅ banned) start Hstart))
    as [Hsound Htotal].
  destruct Htotal as [r Hr]; [unfold enough_fuel; cbn; lia|].
  rewrite Hr. destruct r as [st|e]; [|eauto].
  destruct (Hsound st Hr) as (m & done & Hinv).
  unfold finish, subscript.
  destruct (dist st !! goal) as [[c0|]|] eqn:Hgoal; [|eauto..].
  pose proof (done_length adj start (default ∅ banned) m done start st Hinv).
  destruct (walk_from_any adj start (default ∅ banned) m done start st goal c0
              (enough_fuel adj) Hinv Hgoal)
    as (L & -> & _); [unfold enough_fuel; lia|].
  eauto.
Qed.

End DijkstraCost.

(** C1, as amended.  On a graph with nonnegative weights [dijkstra]
    comes to an end, and whatever pair (cost, sequence) it returns, the
    cost is not negative and either the pair is [(inf, [])] or the cost is
    finite and equals the sum of the weights of the edges along the
    sequence, which leads from [start] to [goal]. *)
Theorem dijkstra_cost_is_route_sum (adj : gmap string (list (string * Q)))
    (start goal : string) (banned : option (gset string)) :
  Route.nonneg_weights adj →
  (∃ fuel r, Dijkstra.dijkstra fuel adj start goal banned = Some r) ∧
  ∀ fuel c p,
    Dijkstra.dijkstra fuel adj start goal banned = Some (Ok (c, p)) →
    Route.cost_nonneg c ∧
    ((c = Inf ∧ p = []) ∨
     (Route.cost_is_sum adj c p ∧
      head p = Some start ∧ last p = Some goal)).
Proof.
  intros Hnonneg. split.
  - destruct (dijkstra_total adj start goal banned Hnonneg) as [r Hr]. eauto.
  - intros fuel c p Hrun.
    destruct (dijkstra_sound adj start goal banned Hnonneg fuel c p Hrun)
      as [[-> ->]|(q & q' & -> & Hq & Hwalk & Heq & Hhead & Hlast)].
    + split; [done|]. by left.
    + split; [done|]. right. split; [|done]. exists q, q'. done.
Qed.

Lemma nonneg_weights_check (adj : gmap string (list (string * Q))) :
  map_Forall (λ _ nbrs, Forall (λ vw : string * Q, 0 <= vw.2) nbrs) adj →
  Route.nonneg_weights adj.
Proof.
  intros Hall u nbrs v w Hadj Hin. specialize (Hall u nbrs Hadj).
  rewrite Forall_forall in Hall. exact (Hall (v, w) Hin).
Qed.

Example hop_route :
  Dijkstra.dijkstra 12 hop_graph "A" "D" None
  = Some (Ok (Fin 3, ["A"; "B"; "C"; "D"]%string)).
Proof. vm_compute. reflexivity. Qed.

Example hop_route_banned :
  Dijkstra.dijkstra 12 hop_graph "A" "D" (Some {["B"; "C"]}%string)
  = Some (Ok (Fin 3, ["A"; "F"; "E"; "D"]%string)).
Proof. vm_compute. reflexivity. Qed.

Lemma hop_graph_nonneg : Route.nonneg_weights hop_graph.
Proof.
  apply nonneg_weights_check, (bool_decide_unpack _).
  vm_compute. reflexivity.
Qed.

Lemma dijkstra_cost_is_route_sum_witness :
  Route.nonneg_weights hop_graph ∧
  (∃ fuel r, Dijkstra.dijkstra fuel hop_graph "A" "D" None = Some r) ∧
  (Route.cost_nonneg (Fin 3) ∧
   ((Fin 3 = Inf ∧ ["A"; "B"; "C"; "D"]%string = []) ∨
    (Route.cost_is_sum hop_graph (Fin 3) ["A"; "B"; "C"; "D"]%string ∧
     head ["A"; "B"; "C"; "D"]%string = Some "A"%string ∧
     last ["A"; "B"; "C"; "D"]%string = Some "D"%string))).
Proof.
  pose proof hop_graph_nonneg as Hnonneg.
  destruct (dijkstra_cost_is_route_sum hop_graph "A" "D" None Hnonneg)
    as [Hends Hcost].
  split; [exact Hnonneg|]. split; [exact Hends|].
  apply (Hcost 12%nat). vm_compute. reflexivity.
Defined.

(** No route: the pair is [(inf, [])], and [inf] is not the sum of the
    weights along the empty sequence. *)
Lemma dijkstra_unreachable_not_sum :
  Route.nonneg_weights two_isolated ∧
  Dijkstra.dijkstra 2 two_isolated "P" "Q" None = Some (Ok (Inf, [])) ∧
  ¬ Route.cost_is_sum two_isolated Inf [].
Proof.
  split; [|split].
  - apply nonneg_weights_check, (bool_decide_unpack _).
    vm_compute. reflexivity.
  - vm_compute. reflexivity.
  - intros (q & q' & Heq & _). discriminate.
Qed.

(** * Further properties of the path engine *)

Section DijkstraEdgeCases.

Import Dijkstra Shortest.

Variable adj : gmap string (list (string * Q)).
Variable banned : gset string.

Lemma heappop_single e : heappop [e] = Some (e, []).
Proof. reflexivity. Qed.

(** X1. The goal test comes before any relaxation: when start and goal
    coincide (a key, not banned) the first pop ends the loop, and the answer
    is cost [0] with the one-vertex sequence, whatever the weights. *)
Theorem dijkstra_start_is_goal (fuel : nat) (start : string)
    (obanned : option (gset string)) :
  start ∈ dom adj → start ∉ default ∅ obanned →
  dijkstra (S fuel) adj start start obanned = Some (Ok (Fin 0, [start])).
Proof.
  intros Hin Hnb. unfold dijkstra. cbv zeta.
  rewrite decide_False by tauto. rewrite decide_False by tauto.
  apply elem_of_dom in Hin as [nbrs Hadj].
  assert (main_loop (S fuel) adj start (default ∅ obanned) (init adj start)
          = Some (Ok (State (dist (init adj start)) (prev (init adj start)) [])))
    as ->.
  { cbn [main_loop init pq dist prev]. rewrite heappop_single.
    unfold subscript at 1. rewrite lookup_insert_eq.
    assert (cost_eqb (Fin 0) (Fin 0) = true) as -> by reflexivity.
    rewrite bool_decide_eq_false_2 by done.
    rewrite bool_decide_eq_true_2 by done. reflexivity. }
  unfold finish, subscript. cbn [dist prev init].
  rewrite lookup_insert_eq. cbn [walk_back]. unfold subscript.
  rewrite lookup_fmap, Hadj. cbn. by destruct fuel.
Qed.

(** *** No exception on a closed graph *)

Lemma relax_keys d u nbrs st :
  Keys adj st → u ∈ dom adj →
  (∀ v w, (v, w) ∈ nbrs → v ∈ dom adj) →
  ∃ st', relax banned d u nbrs st = Ok st' ∧ Keys adj st'.
Proof.
  intros Hkeys Hu. revert st Hkeys.
  induction nbrs as [|[v w] rest IH]; intros st Hkeys Hnb; cbn [relax];
    [eauto|].
  assert (∀ v' w', (v', w') ∈ rest → v' ∈ dom adj) as Hrest
    by (intros v' w' Hin; apply (Hnb v' w'); by right).
  destruct (decide (v ∈ banned)); [by apply IH|].
  assert (v ∈ dom adj) as Hv by (apply (Hnb v w); left).
  destruct (keys_dist _ _ Hkeys v Hv) as [dv Hdv].
  unfold subscript. rewrite Hdv. cbn [mbind result_bind].
  destruct (cost_ltb (Fin (d + w)) dv); [|by apply IH].
  apply IH; [|done].
  destruct Hkeys as [Hd Hp Hq Hl]. constructor; cbn [dist prev pq].
  - intros x Hx. rewrite lookup_insert. destruct (decide _); eauto.
  - intros x Hx. rewrite lookup_insert. destruct (decide _); eauto.
  - unfold heappush. intros d' x [[= -> ->]|Hin]%elem_of_cons; eauto.
  - intros x y. rewrite lookup_insert. destruct (decide _).
    + by intros [= <-].
    + apply Hl.
Qed.

Lemma main_loop_keys (goal : string) fuel st r :
  closed adj → Keys adj st →
  main_loop fuel adj goal banned st = Some r →
  ∃ st', r = Ok st' ∧ Keys adj st'.
Proof.
  intros Hclosed. revert st.
  induction fuel as [|fuel IH]; intros st Hkeys; cbn [main_loop].
  - destruct (heappop (pq st)) as [[[d u] pq']|]; [discriminate|].
    intros [= <-]. eauto.
  - destruct (heappop (pq st)) as [[[d u] pq']|] eqn:Hpop;
      [|intros [= <-]; eauto].
    apply heappop_spec in Hpop as [Hperm _].
    assert (Keys adj (State (dist st) (prev st) pq')) as Hkeys1.
    { destruct Hkeys as [Hd Hp Hq Hl]. constructor; cbn [dist prev pq];
        try done.
      intros d' x Hin. apply (Hq d' x). rewrite Hperm. by right. }
    assert (u ∈ dom adj) as Hu.
    { apply (keys_pq _ _ Hkeys d u). rewrite Hperm. left. }
    destruct (keys_dist _ _ Hkeys u Hu) as [du Hdu].
    cbn [dist]. unfold subscript at 1. rewrite Hdu.
    destruct (negb (cost_eqb (Fin d) du) || bool_decide (u ∈ banned));
      [by apply IH|].
    destruct (bool_decide (u = goal)); [intros [= <-]; eauto|].
    apply elem_of_dom in Hu as Hadj. destruct Hadj as [nbrs Hadj].
    unfold subscript. rewrite Hadj. cbn [mbind result_bind].
    destruct (relax_keys d u nbrs (State (dist st) (prev st) pq') Hkeys1 Hu)
      as (st2 & -> & Hkeys2).
    { intros v w Hin. by eapply Hclosed. }
    by apply IH.
Qed.

Lemma walk_back_keys st fuel cur acc r :
  Keys adj st →
  (∀ c, cur = Some c → c ∈ dom adj) →
  walk_back fuel (prev st) cur acc = Some r →
  ∃ path, r = Ok path.
Proof.
  intros Hkeys. revert cur acc.
  induction fuel as [|fuel IH]; intros cur acc Hcur; destruct cur as [c|];
    cbn [walk_back]; try discriminate; try (intros [= <-]; eauto).
  destruct (keys_prev _ _ Hkeys c (Hcur c eq_refl)) as [p Hp].
  unfold subscript. rewrite Hp. apply IH.
  intros c' ->. by apply (keys_links _ _ Hkeys c c').
Qed.

Lemma init_keys start : start ∈ dom adj → Keys adj (init adj start).
Proof.
  intros Hin. unfold init. constructor; cbn [dist prev pq].
  - intros v [nbrs Hv]%elem_of_dom. rewrite lookup_insert.
    destruct (decide _); [eauto|]. rewrite lookup_fmap, Hv. eauto.
  - intros v [nbrs Hv]%elem_of_dom. rewrite lookup_fmap, Hv. eauto.
  - by intros d u [= -> ->]%list_elem_of_singleton.
  - intros v u. rewrite lookup_fmap. by destruct (adj !! v).
Qed.

(** *** Only [KeyError] can be raised *)

Lemma relax_error d u nbrs st e :
  relax banned d u nbrs st = Err e → e = KeyError.
Proof.
  revert st. induction nbrs as [|[v w] rest IH]; intros st; cbn [relax];
    [discriminate|].
  destruct (decide _); [apply IH|]. unfold subscript.
  destruct (dist st !! v) as [dv|]; cbn [mbind result_bind]; [|congruence].
  destruct (cost_ltb _ _); apply IH.
Qed.

Lemma main_loop_error (goal : string) fuel st e :
  main_loop fuel adj goal banned st = Some (Err e) → e = KeyError.
Proof.
  revert st. induction fuel as [|fuel IH]; intros st; cbn [main_loop].
  - by destruct (heappop (pq st)) as [[[d u] pq']|].
  - destruct (heappop (pq st)) as [[[d u] pq']|]; [|discriminate].
    cbn [dist]. unfold subscript at 1.
    destruct (dist st !! u) as [du|]; [|congruence].
    destruct (_ || _); [apply IH|].
    destruct (bool_decide _); [discriminate|].
    unfold subscript. destruct (adj !! u) as [nbrs|];
      cbn [mbind result_bind]; [|congruence].
    destruct (relax _ _ _ _ _) eqn:Hrelax; [apply IH|].
    intros [= <-]. by apply relax_error in Hrelax.
Qed.

Lemma walk_back_error fuel (prev : gmap string (option string)) cur acc e :
  walk_back fuel prev cur acc = Some (Err e) → e = KeyError.
Proof.
  revert cur acc. induction fuel as [|fuel IH]; intros cur acc;
    destruct cur as [c|]; cbn [walk_back]; try discriminate.
  unfold subscript. destruct (prev !! c); [apply IH | congruence].
Qed.

End DijkstraEdgeCases.

Lemma dijkstra_error_open
    (adj : gmap string (list (string * Q))) (start goal : string)
    (banned : option (gset string)) (fuel : nat) (e : error) :
  Dijkstra.dijkstra fuel adj start goal banned = Some (Err e) →
  e = KeyError ∧ ¬ Shortest.closed adj.
Proof.
  unfold Dijkstra.dijkstra. cbv zeta.
  destruct (decide _) as [|_]; [discriminate|].
  destruct (decide _) as [|Hdom]; [discriminate|].
  assert (start ∈ dom adj ∧ goal ∈ dom adj) as [Hs Hg].
  { split; apply dec_stable; tauto. }
  destruct (Dijkstra.main_loop _ _ _ _ _) as [[st|e']|] eqn:Hloop;
    [| |discriminate].
  - unfold Dijkstra.finish, subscript.
    destruct (Dijkstra.dist st !! goal) as [[c0|]|] eqn:Hgoal.
    + destruct (Dijkstra.walk_back _ _ _ _) as [[path|e']|] eqn:Hwalk;
        [discriminate| |discriminate].
      intros [= <-]. split; [by apply walk_back_error in Hwalk|].
      intros Hclosed.
      destruct (main_loop_keys adj (default ∅ banned) goal fuel _ _ Hclosed
                  (init_keys adj start Hs) Hloop) as (st' & [= <-] & Hkeys).
      destruct (walk_back_keys adj st fuel (Some goal) [] (Err e') Hkeys)
        as [path Hpath]; [by intros c [= <-] | exact Hwalk | discriminate].
    + discriminate.
    + intros [= <-]. split; [done|]. intros Hclosed.
      destruct (main_loop_keys adj (default ∅ banned) goal fuel _ _ Hclosed
                  (init_keys adj start Hs) Hloop) as (st' & [= <-] & Hkeys).
      destruct (keys_dist _ _ Hkeys goal Hg) as [? ?]. congruence.
  - intros [= <-]. split; [by apply main_loop_error in Hloop|].
    intros Hclosed.
    destruct (main_loop_keys adj (default ∅ banned) goal fuel _ _ Hclosed
                (init_keys adj start Hs) Hloop) as (st' & [=] & _).
Qed.

(** X2. On a graph all of whose neighbours are keys, [dijkstra] raises
    nothing; on any graph, what it raises is the key-lookup error. *)
Theorem dijkstra_raises_only_on_open_graph
    (adj : gmap string (list (string * Q))) (start goal : string)
    (banned : option (gset string)) (fuel : nat) (e : error) :
  Dijkstra.dijkstra fuel adj start goal banned = Some (Err e) →
  e = KeyError ∧ ¬ Shortest.closed adj.
Proof. apply dijkstra_error_open. Qed.

(** ** The returned route is a shortest one *)

Section DijkstraShortest.

Import Dijkstra Route Shortest.

Variable adj : gmap string (list (string * Q)).
Variable start : string.
Variable banned : gset string.
Hypothesis Hnonneg : nonneg_weights adj.

Lemma route_ends s t c :
  route adj banned s t c →
  (s ∈ dom adj ∧ s ∉ banned) ∧ (t ∈ dom adj ∧ t ∉ banned).
Proof. induction 1 as [|t v w nbrs c _ [IHs _]]; auto. Qed.

Lemma init_live :
  start ∈ dom adj → start ∉ banned → Live adj banned [] (init adj start).
Proof.
  intros Hin Hnb. unfold init. constructor; cbn [dist prev pq].
  - intros v dv. rewrite lookup_insert. destruct (decide (start = v)) as [<-|].
    + intros [= <-] _. exists 0. split; [left | lra].
    + rewrite lookup_fmap. by destruct (adj !! v).
  - intros v dv. rewrite lookup_insert. destruct (decide (start = v)) as [<-|].
    + done.
    + rewrite lookup_fmap. by destruct (adj !! v).
  - intros v c. rewrite lookup_insert. destruct (decide (start = v)) as [<-|].
    + done.
    + rewrite lookup_fmap. intros Hv. apply elem_of_dom.
      destruct (adj !! v); [eauto | discriminate].
Qed.

(** Taking an entry out of the heap keeps the live entries, provided the
    entry taken is not the live entry of a vertex still to be relaxed. *)
Lemma live_pop done done' st d u pq' :
  Live adj banned done st →
  pq st ≡ₚ (d, u) :: pq' →
  (∀ x, x ∈ done → x ∈ done') →
  (∀ dv, dist st !! u = Some (Fin dv) → u ∉ done' → ¬ d == dv) →
  Live adj banned done' (State (dist st) (prev st) pq').
Proof.
  intros [Hpq Hb Hk] Hperm Hsub Hstale. constructor; cbn [dist prev pq];
    try done.
  intros v dv Hdv Hv.
  destruct (Hpq v dv Hdv) as (d' & Hin & Heq); [by intros ?%Hsub|].
  exists d'. split; [|done].
  rewrite Hperm in Hin. apply elem_of_cons in Hin as [[= -> ->]|]; [|done].
  exfalso. by apply (Hstale dv).
Qed.

Lemma live_relax done d u nbrs st st' :
  Live adj banned done st →
  relax banned d u nbrs st = Ok st' →
  Live adj banned done st'.
Proof.
  revert st. induction nbrs as [|[v w] rest IH]; intros st Hlive;
    cbn [relax]; [by intros [= <-]|].
  destruct (decide (v ∈ banned)) as [|Hnb]; [by apply IH|].
  unfold subscript. destruct (dist st !! v) as [dv|] eqn:Hdv;
    cbn [mbind result_bind]; [|discriminate].
  destruct (cost_ltb (Fin (d + w)) dv); [|by apply IH].
  apply IH. destruct Hlive as [Hpq Hb Hk].
  constructor; cbn [dist prev pq]; unfold heappush.
  - intros x dx. rewrite lookup_insert. destruct (decide (v = x)) as [<-|].
    + intros [= <-] _. exists (d + w). split; [left | lra].
    + intros Hdx Hx. destruct (Hpq x dx Hdx Hx) as (d' & ? & ?).
      exists d'. split; [by right | done].
  - intros x dx. rewrite lookup_insert. destruct (decide (v = x)) as [<-|].
    + done.
    + apply Hb.
  - intros x c. rewrite lookup_insert. destruct (decide (v = x)) as [<-|].
    + intros _. by eapply Hk.
    + apply Hk.
Qed.

(** A route to [t] either ends in a relaxed vertex whose distance it
    cannot beat, or passes through a vertex with a finite distance that is
    still waiting and that it cannot beat. *)
Lemma route_bound m done cur st t c :
  Inv adj start banned m done cur [] st →
  route adj banned start t c →
  (∃ dt, dist st !! t = Some (Fin dt) ∧ (dt <= c) ∧ t ∈ done) ∨
  (∃ x dx, (x ∉ done) ∧ dist st !! x = Some (Fin dx) ∧ dx <= c).
Proof.
  intros Hinv. induction 1 as [Hs Hb|t v w nbrs c Hroute IH Hadj Hin Hv Hb].
  - pose proof (inv_start_dist _ _ _ _ _ _ _ _ Hinv) as Hsd.
    destruct (decide (start ∈ done)).
    + left. exists 0. split_and!; [done | lra | done].
    + right. exists start, 0. split_and!; [done | done | lra].
  - assert (0 <= w) as Hw by (eapply Hnonneg; eassumption).
    destruct IH as [(dt & Hdt & Hle & Ht)|(x & dx & Hx & Hdx & Hle)].
    + destruct (inv_relaxed _ _ _ _ _ _ _ _ Hinv t nbrs v w Ht Hadj Hin Hb)
        as [[_ Hp]|(dt' & dv & Hdt' & Hdv & Hrel)];
        [by apply elem_of_nil in Hp|].
      rewrite Hdt in Hdt'. injection Hdt' as <-.
      destruct (decide (v ∈ done)).
      * left. exists dv. split_and!; [done | lra | done].
      * right. exists v, dv. split_and!; [done | done | lra].
    + right. exists x, dx. split_and!; [done | done | lra].
Qed.

(** The loop ends on an empty heap. *)
Lemma settled_empty (goal : string) m done cur st :
  Inv adj start banned m done cur [] st → Live adj banned done st →
  pq st = [] →
  goal_settled adj banned start goal st.
Proof.
  intros Hinv Hlive Hempty c Hroute.
  destruct (route_bound _ _ _ _ _ _ Hinv Hroute)
    as [(dt & Hdt & Hle & _)|(x & dx & Hx & Hdx & _)]; [eauto|].
  destruct (live_pq _ _ _ _ Hlive x dx Hdx Hx) as (d & Hin & _).
  rewrite Hempty in Hin. by apply elem_of_nil in Hin.
Qed.

(** The loop ends on popping the goal with its current distance. *)
Lemma settled_pop (goal : string) m done cur st d pq' dg :
  Inv adj start banned m done cur [] st → Live adj banned done st →
  heappop (pq st) = Some ((d, goal), pq') →
  dist st !! goal = Some (Fin dg) → d == dg →
  goal_settled adj banned start goal (State (dist st) (prev st) pq').
Proof.
  intros Hinv Hlive Hpop Hdg Heq c Hroute. cbn [dist].
  apply heappop_spec in Hpop as [_ Hmin].
  exists dg. split; [done|].
  destruct (route_bound _ _ _ _ _ _ Hinv Hroute)
    as [(dt & Hdt & Hle & _)|(x & dx & Hx & Hdx & Hle)].
  - rewrite Hdg in Hdt. injection Hdt as <-. done.
  - destruct (live_pq _ _ _ _ Hlive x dx Hdx Hx) as (d' & Hin & Hd').
    specialize (Hmin (d', x) Hin). cbn in Hmin. lra.
Qed.

Lemma main_loop_settles (goal : string) fuel st st' m done cur :
  Inv adj start banned m done cur [] st → Live adj banned done st →
  main_loop fuel adj goal banned st = Some (Ok st') →
  goal_settled adj banned start goal st' ∧
  (∀ v dv, dist st' !! v = Some (Fin dv) → v ∉ banned) ∧
  (∀ v c, dist st' !! v = Some c → v ∈ dom adj).
Proof.
  revert st m done. induction fuel as [|fuel IH]; intros st m done Hinv Hlive;
    cbn [main_loop].
  - destruct (heappop (pq st)) as [[[d u] pq']|] eqn:Hpop; [discriminate|].
    intros [= <-]. apply heappop_none in Hpop. split_and!.
    + by eapply settled_empty.
    + apply (live_banned _ _ _ _ Hlive).
    + apply (live_keys _ _ _ _ Hlive).
  - destruct (heappop (pq st)) as [[[d u] pq']|] eqn:Hpop.
    2: { intros [= <-]. apply heappop_none in Hpop. split_and!.
         - by eapply settled_empty.
         - apply (live_banned _ _ _ _ Hlive).
         - apply (live_keys _ _ _ _ Hlive). }
    destruct (inv_pop _ _ _ _ _ _ _ _ _ _ Hinv Hpop)
      as (Hinv1 & (du & Hdu & Hdule) & Hlen).
    pose proof (heappop_spec _ _ _ Hpop) as [Hperm _].
    cbn [dist].
    assert (subscript (dist st) u = Ok (Fin du)) as ->
      by (unfold subscript; by rewrite Hdu).
    destruct (negb (cost_eqb (Fin d) (Fin du)) || bool_decide (u ∈ banned))
      eqn:Hstale.
    { apply (IH _ _ _ Hinv1). apply (live_pop done done st d u pq' Hlive Hperm);
        [done|].
      intros dv Hdv _ Heq. rewrite Hdu in Hdv. injection Hdv as <-.
      apply orb_true_iff in Hstale as [Hne|Hb].
      - apply negb_true_iff in Hne. unfold cost_eqb in Hne.
        apply Qeq_bool_iff in Heq. congruence.
      - apply bool_decide_eq_true in Hb.
        by apply (live_banned _ _ _ _ Hlive u du Hdu). }
    apply orb_false_elim in Hstale as [Heq _].
    apply negb_false_iff, cost_eqb_true in Heq as (du' & [= <-] & Hddu).
    destruct (bool_decide (u = goal)) eqn:Hgoal.
    { apply bool_decide_eq_true in Hgoal as ->. intros [= <-]. split_and!.
      - by eapply settled_pop.
      - apply (live_banned _ _ _ _ Hlive).
      - apply (live_keys _ _ _ _ Hlive). }
    destruct (adj !! u) as [nbrs|] eqn:Hadj.
    2: { assert (subscript adj u = Err KeyError) as ->
           by (unfold subscript; by rewrite Hadj).
         discriminate. }
    assert (subscript adj u = Ok nbrs) as ->
      by (unfold subscript; by rewrite Hadj).
    cbn [mbind result_bind].
    destruct (decide (u ∈ done)) as [Hdone|Hdone].
    + rewrite (relax_noop banned).
      * apply (IH _ _ _ Hinv1).
        apply (live_pop done done st d u pq' Hlive Hperm); [done|].
        intros dv _ Hu. done.
      * intros v w Hin Hb.
        destruct (inv_relaxed _ _ _ _ _ _ _ _ Hinv1 u nbrs v w
                    Hdone Hadj Hin Hb)
          as [[_ Hp]|(du' & dv & Hdu' & Hdv & Hle)];
          [by apply elem_of_nil in Hp|].
        cbn [dist] in *. rewrite Hdu in Hdu'. injection Hdu' as <-.
        exists dv. split; [done|lra].
    + pose proof (inv_expand _ _ _ _ _ _ _ _ _ _ Hinv1 Hdone Hadj Hdu Hdule)
        as Hinv2.
      assert (Live adj banned (u :: done) (State (dist st) (prev st) pq'))
        as Hlive2.
      { apply (live_pop done (u :: done) st d u pq' Hlive Hperm).
        - intros x Hx. by right.
        - intros dv _ Hu. exfalso. apply Hu. left. }
      destruct (relax banned d u nbrs _) as [st2|e] eqn:Hrelax;
        [|discriminate].
      assert (u ∈ u :: done) as Hhere by left.
      assert (du == d) as Hdud by lra.
      assert (nbrs ⊆ nbrs) as Hsub by done.
      destruct (relax_inv adj start banned Hnonneg d (u :: done) u nbrs du nbrs
                  (State (dist st) (prev st) pq') st2
                  Hadj Hhere Hdud Hsub Hinv2 Hdu Hrelax)
        as [Hinv3 _].
      apply (inv_cur _ _ _ _ _ _ cur) in Hinv3.
      apply (IH _ _ _ Hinv3). by eapply live_relax.
Qed.

(** *** Every vertex of the returned sequence has a finite distance *)

Lemma walk_back_all (P : string → Prop) fuel
    (prev : gmap string (option string)) cur acc path :
  walk_back fuel prev cur acc = Some (Ok path) →
  Forall P acc →
  (∀ c, cur = Some c → P c) →
  (∀ v u, P v → prev !! v = Some (Some u) → P u) →
  Forall P path.
Proof.
  intros Hwalk Hacc Hcur Hstep. revert cur acc Hwalk Hacc Hcur.
  induction fuel as [|fuel IH]; intros cur acc; destruct cur as [c|];
    cbn [walk_back]; try discriminate; try (by intros [= <-]).
  unfold subscript. destruct (prev !! c) as [p|] eqn:Hp; [|discriminate].
  intros Hwalk Hacc Hcur. apply (IH p (acc ++ [c])); [done | |].
  - apply Forall_app. split; [done|]. constructor; [|done]. by apply Hcur.
  - intros c' ->. apply (Hstep c c'); [by apply Hcur | done].
Qed.

(** From a sequence of allowed vertices joined by edges to a route. *)
Lemma route_prepend u v w nbrs t c :
  adj !! u = Some nbrs → (v, w) ∈ nbrs → u ∈ dom adj → u ∉ banned →
  route adj banned v t c →
  ∃ c', route adj banned u t c' ∧ c' == w + c.
Proof.
  intros Hadj Hin Hu Hb.
  induction 1 as [Hv Hvb|t t' w' nbrs' c Hroute IH Hadj' Hin' Ht' Hb'].
  - exists (0 + w). split; [|lra].
    eapply route_step; [by apply route_here | done..].
  - destruct IH as (c' & Hc' & Heq). exists (c' + w'). split; [|lra].
    eapply route_step; eassumption.
Qed.

Lemma walk_route p q s t :
  walk_cost adj p q →
  Forall (λ v, v ∈ dom adj ∧ v ∉ banned) p →
  head p = Some s → last p = Some t →
  ∃ q', route adj banned s t q' ∧ q' == q.
Proof.
  intros Hwalk. revert s.
  induction Hwalk as [|v|u v w nbrs p c Hadj Hin Hwalk IH];
    intros s Hall Hhead Hlast.
  - discriminate.
  - cbn in Hhead, Hlast. injection Hhead as <-. injection Hlast as <-.
    apply Forall_singleton in Hall as [? ?].
    exists 0. split; [by apply route_here | lra].
  - cbn in Hhead. injection Hhead as <-.
    apply Forall_cons in Hall as [[Hu Hb] Hall].
    destruct (IH v Hall eq_refl) as (c' & Hc' & Heq);
      [by rewrite last_cons_cons in Hlast|].
    destruct (route_prepend u v w nbrs t c' Hadj Hin Hu Hb Hc')
      as (c'' & Hc'' & Heq').
    exists c''. split; [done|lra].
Qed.

End DijkstraShortest.

Section DijkstraRuns.

Import Dijkstra Route Shortest.

Variable adj : gmap string (list (string * Q)).
Variable start goal : string.
Variable banned : option (gset string).
Hypothesis Hnonneg : nonneg_weights adj.

(** What a returning run of [dijkstra] went through. *)
Lemma dijkstra_run fuel c p :
  dijkstra fuel adj start goal banned = Some (Ok (c, p)) →
  ((start ∈ default ∅ banned ∨ goal ∈ default ∅ banned ∨
    start ∉ dom adj ∨ goal ∉ dom adj) ∧ c = Inf ∧ p = []) ∨
  (∃ st m done,
     Inv adj start (default ∅ banned) m done start [] st ∧
     goal_settled adj (default ∅ banned) start goal st ∧
     (∀ v dv, dist st !! v = Some (Fin dv) → v ∉ default ∅ banned) ∧
     (∀ v c', dist st !! v = Some c' → v ∈ dom adj) ∧
     finish fuel goal st = Some (Ok (c, p))).
Proof.
  unfold dijkstra. cbv zeta.
  destruct (decide _) as [Hb|Hb]; [intros [= <- <-]; left; tauto|].
  destruct (decide _) as [Hd|Hd]; [intros [= <- <-]; left; tauto|].
  assert (start ∈ dom adj) as Hs by (apply dec_stable; tauto).
  assert (start ∉ default ∅ banned) as Hsb by tauto.
  destruct (main_loop _ _ _ _ _) as [[st|e]|] eqn:Hloop; [|discriminate..].
  intros Hfin. right.
  pose proof (init_inv adj start (default ∅ banned) start Hs) as Hinv0.
  destruct (main_loop_inv adj start (default ∅ banned) Hnonneg goal fuel
              (init adj start) 0 [] start Hinv0) as [Hsound _].
  destruct (Hsound st Hloop) as (m & done & Hinv).
  destruct (main_loop_settles adj start (default ∅ banned) Hnonneg goal fuel
              (init adj start) st 0 [] start Hinv0
              (init_live adj start (default ∅ banned) Hs Hsb) Hloop)
    as (Hset & Hnb & Hkeys).
  exists st, m, done. done.
Qed.

Lemma dijkstra_allowed fuel c p :
  dijkstra fuel adj start goal banned = Some (Ok (c, p)) →
  Forall (λ v, v ∈ dom adj ∧ v ∉ default ∅ banned) p.
Proof.
  intros [(_ & _ & ->)|(st & m & done & Hinv & _ & Hnb & Hkeys & Hfin)]
    %dijkstra_run; [constructor|].
  unfold finish, subscript in Hfin.
  destruct (dist st !! goal) as [[c0|]|] eqn:Hgoal; [| |discriminate].
  2: { injection Hfin as <- <-. constructor. }
  destruct (walk_back fuel (prev st) (Some goal) []) as [[path|e]|] eqn:Hwalk;
    [|discriminate..].
  injection Hfin as <- <-.
  assert (Forall (λ v, ∃ dv, dist st !! v = Some (Fin dv)) path) as Hall.
  { eapply walk_back_all; [exact Hwalk | constructor | |].
    - intros c [= <-]. eauto.
    - intros v u _ Hp.
      destruct (inv_prev _ _ _ _ _ _ _ _ Hinv v u Hp)
        as (_ & du & _ & _ & _ & Hdu & _). eauto. }
  apply Forall_reverse. eapply Forall_impl; [exact Hall|].
  intros v [dv Hdv]. split; [by eapply Hkeys | by eapply Hnb].
Qed.

End DijkstraRuns.

Lemma dijkstra_least (adj : gmap string (list (string * Q)))
    (start goal : string) (banned : option (gset string)) (fuel : nat)
    (c : cost) (p : list string) (c' : Q) :
  Route.nonneg_weights adj →
  Dijkstra.dijkstra fuel adj start goal banned = Some (Ok (c, p)) →
  Shortest.route adj (default ∅ banned) start goal c' →
  ∃ q, c = Fin q ∧ q <= c'.
Proof.
  intros Hnonneg Hrun Hroute.
  destruct (route_ends adj (default ∅ banned) _ _ _ Hroute)
    as [[Hs Hsb] [Hg Hgb]].
  destruct (dijkstra_run adj start goal banned Hnonneg fuel c p Hrun)
    as [(Hearly & _)|(st & m & done & _ & Hset & _ & _ & Hfin)].
  { exfalso. tauto. }
  destruct (Hset c' Hroute) as (dg & Hdg & Hle).
  unfold Dijkstra.finish, subscript in Hfin. rewrite Hdg in Hfin.
  destruct (Dijkstra.walk_back _ _ _ _) as [[path|e]|]; [|discriminate..].
  injection Hfin as <- <-. eauto.
Qed.


(** X4. The sequence returned by [dijkstra] consists of keys of the graph and
    contains no banned vertex. *)
Theorem dijkstra_route_allowed (adj : gmap string (list (string * Q)))
    (start goal : string) (banned : option (gset string)) (fuel : nat)
    (c : cost) (p : list string) :
  Route.nonneg_weights adj →
  Dijkstra.dijkstra fuel adj start goal banned = Some (Ok (c, p)) →
  Forall (λ v, v ∈ dom adj ∧ v ∉ default ∅ banned) p.
Proof. intros Hnonneg. by apply dijkstra_allowed. Qed.

(** The two possible answers of [dijkstra]. *)
Lemma dijkstra_verdict (adj : gmap string (list (string * Q)))
    (start goal : string) (banned : option (gset string)) (fuel : nat)
    (c : cost) (p : list string) :
  Route.nonneg_weights adj →
  Dijkstra.dijkstra fuel adj start goal banned = Some (Ok (c, p)) →
  (c = Inf ∧ p = [] ∧
   ∀ c', ¬ Shortest.route adj (default ∅ banned) start goal c') ∨
  (∃ q c', c = Fin q ∧ p ≠ [] ∧
           Shortest.route adj (default ∅ banned) start goal c' ∧ c' == q).
Proof.
  intros Hnonneg Hrun.
  pose proof (dijkstra_allowed adj start goal banned Hnonneg fuel c p Hrun)
    as Hall.
  destruct (dijkstra_sound adj start goal banned Hnonneg fuel c p Hrun)
    as [[-> ->]|(q & q' & -> & Hq & Hwalk & Heq & Hhead & Hlast)].
  - left. split; [done|]. split; [done|]. intros c' Hroute.
    destruct (dijkstra_run adj start goal banned Hnonneg fuel Inf [] Hrun)
      as [(Hearly & _)|(st & m & done & _ & Hset & _ & _ & Hfin)].
    + destruct (route_ends adj (default ∅ banned) _ _ _ Hroute)
        as [[? ?] [? ?]]. tauto.
    + destruct (Hset c' Hroute) as (dg & Hdg & _).
      unfold Dijkstra.finish, subscript in Hfin. rewrite Hdg in Hfin.
      destruct (Dijkstra.walk_back _ _ _ _) as [[path|e]|]; discriminate.
  - right.
    destruct (walk_route adj (default ∅ banned) p q' start goal
                Hwalk Hall Hhead Hlast) as (q'' & Hroute & Hsame).
    exists q, q''. split_and!; [done | | done | by rewrite Hsame].
    intros ->. discriminate.
Qed.


(** * Further properties of pivot selection *)

Section PivotsMore.

Import Pivots PivotSpec Hops.

Variable edges : gmap Z (list (Z * Q)).
Variable d_hat : gmap Z Q.
Variable B : cost.

(** X9. With a budget [k <= 0] no round is run and no estimate is read: the
    result is [(S, S)]. *)
Theorem find_pivots_no_budget (fuel : nat) (S : gset Z) (k : Z) :
  (k <= 0)%Z →
  find_pivots fuel edges d_hat S k B = Some (Ok (S, S)).
Proof.
  intros Hk. unfold find_pivots.
  replace (Z.to_nat k) with 0%nat by lia. cbn [relax_rounds].
  destruct (decide (fast_path S S k)) as [|Hslow]; [done|].
  assert (S = ∅) as ->.
  { apply leibniz_equiv, size_empty_iff. unfold fast_path in Hslow.
    destruct (size S) as [|n]; [done|]. exfalso. apply Hslow.
    assert (0 < Z.max 1 (Z.of_nat (Datatypes.S n)))%Z by lia. nia. }
  rewrite elements_empty. cbn. reflexivity.
Qed.

(** *** The frontier is what a walk of at most [k] qualifying edges
    reaches *)

Lemma qualifies_spec u v w :
  qualifies d_hat B u (v, w) = true ↔
  ∃ du dv, d_hat !! u = Some du ∧ d_hat !! v = Some dv ∧
           du + w <= dv ∧ cost_ltb (Fin (du + w)) B = true.
Proof.
  unfold qualifies. cbn [fst snd].
  destruct (d_hat !! u) as [du|]; [|split; [done|by intros (? & ? & ? & _)]].
  destruct (d_hat !! v) as [dv|]; [|split; [done|by intros (? & ? & _ & ? & _)]].
  rewrite andb_true_iff, Qle_bool_iff. split.
  - intros [? ?]. eauto 10.
  - intros (? & ? & [= <-] & [= <-] & ? & ?). done.
Qed.

Lemma elem_of_next_layer (X : gset Z) v :
  v ∈ next_layer edges d_hat B (elements X) ↔
  ∃ u, u ∈ X ∧ qualifying edges d_hat B u v.
Proof.
  unfold next_layer, reached, qualifying.
  rewrite elem_of_list_to_set, list_elem_of_In, in_flat_map. split.
  - intros (u & Hu & Hv). apply list_elem_of_In in Hu, Hv.
    apply elem_of_elements in Hu.
    apply list_elem_of_fmap in Hv as ([v' w] & -> & Hin).
    apply list_elem_of_In, filter_In in Hin as [Hin Hq].
    apply list_elem_of_In in Hin.
    apply qualifies_spec in Hq as (du & dv & ? & ? & ? & ?).
    exists u. split; [done|]. exists w, du, dv. done.
  - intros (u & Hu & w & du & dv & Hin & Hdu & Hdv & Hle & Hlt).
    exists u. split; [by apply list_elem_of_In, elem_of_elements|].
    apply list_elem_of_In, list_elem_of_fmap. exists (v, w). split; [done|].
    apply list_elem_of_In, filter_In. split; [by apply list_elem_of_In|].
    apply qualifies_spec. eauto 10.
Qed.

Lemma hops_empty n v : ¬ hops edges d_hat B ∅ n v.
Proof.
  intros H. induction H as [v Hv|n u v _ IH _]; [set_solver | done].
Qed.

(** Peeling the first edge of a walk. *)
Lemma hops_first (X : gset Z) n v :
  hops edges d_hat B X (S n) v ↔
  hops edges d_hat B (next_layer edges d_hat B (elements X)) n v.
Proof.
  revert v. induction n as [|n IH]; intros v.
  - split.
    + intros H. inversion H as [|? u ? Hu Hq]; subst.
      inversion Hu; subst. constructor. apply elem_of_next_layer. eauto.
    + intros H. inversion H as [? Hv|]; subst.
      apply elem_of_next_layer in Hv as (u & Hu & Hq).
      eapply hops_succ; [by constructor | done].
  - split.
    + intros H. inversion H as [|? u ? Hu Hq]; subst.
      eapply hops_succ; [by apply IH | done].
    + intros H. inversion H as [|? u ? Hu Hq]; subst.
      eapply hops_succ; [by apply IH | done].
Qed.

Lemma elem_of_frontier_rounds n (W X : gset Z) v :
  v ∈ frontier_rounds n edges d_hat B W X ↔
  v ∈ W ∨ ∃ m, (1 ≤ m ≤ n)%nat ∧ hops edges d_hat B X m v.
Proof.
  revert W X. induction n as [|n IH]; intros W X; cbn [frontier_rounds].
  - split; [auto|]. intros [?|(m & ? & _)]; [done|lia].
  - cbv zeta.
    destruct (decide (next_layer edges d_hat B (elements X) = ∅)) as [He|He].
    + rewrite He, union_empty_r_L. split; [auto|].
      intros [?|(m & Hm & Hh)]; [done|].
      destruct m as [|m]; [lia|]. apply hops_first in Hh.
      rewrite He in Hh. by apply hops_empty in Hh.
    + rewrite IH, elem_of_union. split.
      * intros [[?|Hv]|(m & Hm & Hh)]; [auto| |].
        -- right. exists 1%nat. split; [lia|]. apply hops_first.
           by constructor.
        -- right. exists (S m). split; [lia|]. by apply hops_first.
      * intros [?|(m & Hm & Hh)]; [auto|].
        destruct m as [|m]; [lia|]. apply hops_first in Hh.
        destruct m as [|m].
        -- left. right. by inversion Hh.
        -- right. exists (S m). split; [lia|done].
Qed.

(** When the rounds raise nothing, they compute the frontier. *)
Lemma scan_edges_frontier u nbrs Wi Wi' :
  scan_edges d_hat B u nbrs Wi = Ok Wi' →
  Wi' = Wi ∪ list_to_set (reached d_hat B u nbrs).
Proof.
  revert Wi. induction nbrs as [|[v w] rest IH]; intros Wi.
  - cbn. intros [= <-]. set_solver.
  - cbn [scan_edges]. unfold subscript.
    destruct (d_hat !! u) as [du|] eqn:Hu; cbn [mbind result_bind];
      [|discriminate].
    destruct (d_hat !! v) as [dv|] eqn:Hv; cbn [mbind result_bind];
      [|discriminate].
    unfold reached. cbn [List.filter]. unfold qualifies at 1.
    cbn [fst snd]. rewrite Hu, Hv. fold (reached d_hat B u rest).
    destruct (Qle_bool (du + w) dv); cbn [andb].
    + destruct (cost_ltb (Fin (du + w)) B); cbn [fmap list_fmap];
        intros ->%IH; unfold reached; cbn; set_solver.
    + apply IH.
Qed.

Lemma scan_layer_frontier us Wi Wi' :
  scan_layer edges d_hat B us Wi = Ok Wi' →
  Wi' = Wi ∪ next_layer edges d_hat B us.
Proof.
  revert Wi. induction us as [|u rest IH]; intros Wi.
  - cbn. intros [= <-]. set_solver.
  - cbn [scan_layer]. intros (Wi1 & H1 & H2)%bind_ok.
    apply scan_edges_frontier in H1 as ->. apply IH in H2 as ->.
    unfold next_layer. cbn [flat_map]. rewrite list_to_set_app_L. set_solver.
Qed.

Lemma relax_rounds_frontier n W Wi_1 W' :
  relax_rounds n edges d_hat B W Wi_1 = Ok W' →
  W' = frontier_rounds n edges d_hat B W Wi_1.
Proof.
  revert W Wi_1. induction n as [|n IH]; intros W Wi_1;
    cbn [relax_rounds frontier_rounds]; [by intros [= <-]|].
  intros (Wi & H1 & H2)%bind_ok.
  apply scan_layer_frontier in H1. rewrite union_empty_l_L in H1. subst Wi.
  cbv zeta in *. destruct (decide _); [by injection H2 as <- | by apply IH].
Qed.

(** X10. The frontier [W] returned by [find_pivots] is the set of vertices
    that a walk of at most [k] qualifying edges reaches from [S]. *)
Theorem find_pivots_frontier_hops (fuel : nat) (S : gset Z) (k : Z)
    (P W : gset Z) :
  find_pivots fuel edges d_hat S k B = Some (Ok (P, W)) →
  ∀ v, v ∈ W ↔ ∃ n, (n ≤ Z.to_nat k)%nat ∧ hops edges d_hat B S n v.
Proof.
  intros [HW _]%find_pivots_inv v.
  apply relax_rounds_frontier in HW as ->.
  rewrite elem_of_frontier_rounds. split.
  - intros [Hv|(m & Hm & Hh)].
    + exists 0%nat. split; [lia | by constructor].
    + exists m. split; [lia | done].
  - intros (n & Hn & Hh). destruct n as [|n].
    + left. by inversion Hh.
    + right. exists (Datatypes.S n). split; [lia | done].
Qed.

End PivotsMore.

(** *** How many pivots there can be *)

Section PivotCount.

Import Pivots PivotSpec Hops.

Variable edges : gmap Z (list (Z * Q)).
Variable d_hat : gmap Z Q.

Lemma slow_path_pivot fuel (S : gset Z) k B (P W : gset Z) u :
  find_pivots fuel edges d_hat S k B = Some (Ok (P, W)) →
  ¬ fast_path W S k →
  u ∈ P → pivot edges d_hat W S k u.
Proof.
  intros Hrun Hslow.
  apply find_pivots_inv in Hrun as [HW [[Hfast _]|(_ & F & HF & HP)]];
    [done|].
  apply select_pivots_spec in HP as [Hmem _].
  pose proof (built_forest d_hat W edges F HF) as [_ Hroot].
  rewrite Hmem. unfold pivot. rewrite elem_of_elements, elem_of_filter.
  intros [Hemp|(HuS & [Hdeg HuW] & n & Hn & Hk)];
    [by apply not_elem_of_empty in Hemp|].
  split; [done|]. split; [by apply Hroot|].
  unfold subtree_size in Hn.
  apply (subtree_loop_count (children F) u) in Hn as (R & HR & ->);
    [| done | set_solver | | set_solver | right; left].
  - exists R. split; [|done]. intros y. rewrite HR.
    by apply reach_child_tight.
  - intros x ->%list_elem_of_singleton. done.
Qed.

Variable W : gset Z.

Lemma tight_stays u y :
  u ∈ W → rtc (tight edges d_hat W) u y → y ∈ W.
Proof.
  intros Hu Hr. revert Hu.
  induction Hr as [|x y z Hxy _ IH]; [done|].
  intros _. apply IH. by destruct Hxy as (_ & ? & _).
Qed.

Hypothesis Hforest : forest_like edges d_hat W.

(** Two vertices without a tight predecessor that reach a common vertex
    are the same. *)
Lemma root_unique u u' y :
  (∀ x, ¬ tight edges d_hat W x u) →
  (∀ x, ¬ tight edges d_hat W x u') →
  rtc (tight edges d_hat W) u y → rtc (tight edges d_hat W) u' y →
  u = u'.
Proof.
  intros Hu Hu' Hr. revert y Hr u' Hu'.
  apply (rtc_ind_r (λ y, ∀ u', (∀ x, ¬ tight edges d_hat W x u') →
                          rtc (tight edges d_hat W) u' y → u = u')).
  - intros u' Hu' Hr'. apply rtc_inv_r in Hr' as [->|(z & _ & Hz)]; [done|].
    by apply Hu in Hz.
  - intros y z Hr Hyz IH u' Hu' Hr'.
    apply rtc_inv_r in Hr' as [->|(y' & Hr' & Hy')].
    + by apply Hu' in Hyz.
    + rewrite (Hforest _ _ _ Hyz Hy') in IH. by apply IH.
Qed.

Lemma pivots_share_nothing (S : gset Z) k (l : list Z) :
  S ⊆ W → NoDup l → (∀ u, u ∈ l → pivot edges d_hat W S k u) →
  ∃ U : gset Z, U ⊆ W ∧
    (∀ y, y ∈ U → ∃ u, u ∈ l ∧ rtc (tight edges d_hat W) u y) ∧
    (k * Z.of_nat (length l) ≤ Z.of_nat (size U))%Z.
Proof.
  intros HSW Hnd Hall. induction Hnd as [|u l Hu Hnd IH].
  - exists ∅. split_and!; [set_solver | set_solver | cbn; lia].
  - destruct IH as (U & HUW & Hreach & Hsize).
    { intros u' Hu'. apply Hall. by right. }
    destruct (Hall u) as (HuS & Hroot & R & HR & Hk); [by left|].
    assert (R ## U) as Hdisj.
    { intros y HyR HyU. apply HR in HyR.
      destruct (Hreach y HyU) as (u' & Hu' & Hr').
      destruct (Hall u') as (_ & Hroot' & _); [by right|].
      assert (u = u') as -> by by eapply root_unique.
      done. }
    exists (R ∪ U). split_and!.
    + intros y [HyR|HyU]%elem_of_union; [|by apply HUW].
      apply HR in HyR. eapply tight_stays; [|done]. by apply HSW.
    + intros y [HyR|HyU]%elem_of_union.
      * exists u. split; [by left | by apply HR].
      * destruct (Hreach y HyU) as (u' & ? & ?). exists u'.
        split; [by right | done].
    + rewrite size_union by done. cbn [length]. lia.
Qed.

End PivotCount.

(** X11. When no vertex of [W] has two tight predecessors in [W], the pivots
    are few: [k] times their number is at most the size of [W]. *)
Theorem find_pivots_few_pivots (fuel : nat) (edges : gmap Z (list (Z * Q)))
    (d_hat : gmap Z Q) (S : gset Z) (k : Z) (B : cost) (P W : gset Z) :
  Hops.forest_like edges d_hat W →
  Pivots.find_pivots fuel edges d_hat S k B = Some (Ok (P, W)) →
  (k * Z.of_nat (size P) ≤ Z.of_nat (size W))%Z.
Proof.
  intros Hforest Hrun.
  destruct (decide (Pivots.fast_path W S k)) as [Hfast|Hslow].
  - apply find_pivots_inv in Hrun as [_ [[_ ->]|[Hs _]]]; [|done].
    unfold Pivots.fast_path in Hfast.
    destruct (decide (0 ≤ k)%Z); [|nia].
    assert (Z.of_nat (size S) ≤ Z.max 1 (Z.of_nat (size S)))%Z by lia. nia.
  - pose proof Hrun as [HW _]%find_pivots_inv.
    apply relax_rounds_super in HW.
    destruct (pivots_share_nothing edges d_hat W Hforest S k (elements P))
      as (U & HUW & _ & Hsize); [done | apply NoDup_elements | |].
    + intros u Hu%elem_of_elements. by eapply slow_path_pivot.
    + apply subseteq_size in HUW.
      change (length (elements P)) with (size P) in Hsize. lia.
Qed.

(** * Further properties of the graph builders *)

Section EventsMore.

(** A run that raises nothing appended under existing keys only. *)
Lemma apply_events_keys evs adj adj' :
  apply_events evs adj = Ok adj' →
  ∀ ev, ev ∈ evs → is_Some (adj !! ev.1).
Proof.
  revert adj. induction evs as [|[k0 e] rest IH]; intros adj Hrun ev.
  - by intros ?%elem_of_nil.
  - cbn [apply_events] in Hrun. apply bind_ok in Hrun as (adj1 & H1 & H2).
    unfold append_edge, subscript in H1.
    destruct (adj !! k0) as [l|] eqn:Hl; [|discriminate].
    cbn in H1. injection H1 as <-.
    intros [->|Hin]%elem_of_cons; [cbn; eauto|].
    pose proof (IH _ H2 ev Hin) as Hsome.
    destruct (decide (k0 = ev.1)) as [<-|Hne]; [eauto|].
    by rewrite lookup_insert_ne in Hsome.
Qed.

Lemma apply_events_inv ids evs adj :
  apply_events evs (empty_adj ids) = Ok adj →
  (∀ ev, ev ∈ evs → ev.1 ∈ ids) ∧ holds_events ids evs adj.
Proof.
  intros Hrun.
  assert (∀ ev, ev ∈ evs → ev.1 ∈ ids) as Hkeys.
  { intros ev Hev.
    pose proof (apply_events_keys _ _ _ Hrun ev Hev) as [l Hl].
    rewrite empty_adj_lookup in Hl. by destruct (decide (ev.1 ∈ ids)). }
  split; [done|].
  destruct (apply_events_empty ids evs Hkeys) as (adj' & Hrun' & Hl).
  rewrite Hrun in Hrun'. by injection Hrun' as <-.
Qed.

Variable ids : list string.
Variable evs : list event.
Variable adj : gmap string (list (string * Q)).
Hypothesis Hholds : holds_events ids evs adj.

Lemma held_edge u nbrs v w :
  adj !! u = Some nbrs → (v, w) ∈ nbrs → u ∈ ids ∧ (u, (v, w)) ∈ evs.
Proof.
  rewrite Hholds. destruct (decide (u ∈ ids)); [|discriminate].
  intros [= <-] Hin. split; [done|]. by apply elem_of_edges_for.
Qed.

Lemma held_dom : dom adj = list_to_set ids.
Proof.
  apply set_eq. intros key.
  rewrite elem_of_dom, elem_of_list_to_set, Hholds.
  destruct (decide (key ∈ ids)); split; try done; eauto.
Qed.

Lemma held_default u v w :
  (v, w) ∈ default [] (adj !! u) ↔ u ∈ ids ∧ (u, (v, w)) ∈ evs.
Proof.
  rewrite Hholds. destruct (decide (u ∈ ids)); cbn.
  - rewrite elem_of_edges_for. tauto.
  - rewrite elem_of_nil. tauto.
Qed.

Lemma held_closed :
  (∀ a b w, (a, (b, w)) ∈ evs → b ∈ ids) → Shortest.closed adj.
Proof.
  intros Htargets u nbrs v w Hu Hin.
  destruct (held_edge u nbrs v w Hu Hin) as [_ Hev].
  rewrite held_dom, elem_of_list_to_set. by eapply Htargets.
Qed.

Lemma held_symmetric :
  (∀ ev, ev ∈ evs → ev.1 ∈ ids) →
  (∀ a b w, (a, (b, w)) ∈ evs → (b, (a, w)) ∈ evs) →
  Shortest.symmetric adj.
Proof.
  intros Hkeys Hswap u v w. rewrite !held_default. split.
  - intros [_ Hev]. apply Hswap in Hev. split; [|done]. by apply (Hkeys _ Hev).
  - intros [_ Hev]. apply Hswap in Hev. split; [|done]. by apply (Hkeys _ Hev).
Qed.

Lemma held_nonneg :
  (∀ a b w, (a, (b, w)) ∈ evs → 0 <= w) → Route.nonneg_weights adj.
Proof.
  intros Hw u nbrs v w Hu Hin.
  destruct (held_edge u nbrs v w Hu Hin) as [_ Hev]. by eapply Hw.
Qed.

Lemma held_loop_free :
  (∀ a b w, (a, (b, w)) ∈ evs → a ≠ b) → loop_free adj.
Proof.
  intros Hne u nbrs w Hu Hin.
  destruct (held_edge u nbrs u w Hu Hin) as [_ Hev]. by eapply Hne.
Qed.

End EventsMore.

Section DirectedLoops.

Context {N : Type}.
Variable nid : N → string.
Variable pair_events : N → N → list event.
Variables fwd bwd : N → N → Q → Prop.
Hypothesis Hdir : directed nid pair_events fwd bwd.

Lemma directed_local : local_events nid pair_events.
Proof.
  intros u v [a [b w]] [(-> & _)|(-> & _)]%Hdir; cbn; auto.
Qed.

(** An event joins two distinct keys of a well-formed dictionary. *)
Lemma directed_event nodes a b w :
  well_formed nid nodes →
  (a, (b, w)) ∈ pairs_events pair_events nodes →
  a ∈ nodes.*1 ∧ b ∈ nodes.*1 ∧ a ≠ b ∧
  ∃ u v, fwd u v w ∨ bwd u v w.
Proof.
  intros Hwf
    (i & j & ku & u & kv & v & Hlt & Hi & Hj & Hev)%elem_of_pairs_events.
  assert (nid u ≠ nid v) as Hne.
  { intros Heq. assert (i = j) by (eapply same_node; eassumption). lia. }
  apply Hdir in Hev as [(-> & -> & Hf)|(-> & -> & Hb)].
  - split_and!; [by eapply node_key | by eapply node_key | done | eauto].
  - split_and!; [by eapply node_key | by eapply node_key | done | eauto].
Qed.

Lemma directed_edges nodes (adj : gmap string (list (string * Q))) :
  well_formed nid nodes →
  holds_events nodes.*1 (pairs_events pair_events nodes) adj →
  ∀ i j ku u kv v w,
    (i < j)%nat → nodes !! i = Some (ku, u) → nodes !! j = Some (kv, v) →
    ((nid v, w) ∈ default [] (adj !! nid u) ↔ fwd u v w) ∧
    ((nid u, w) ∈ default [] (adj !! nid v) ↔ bwd u v w).
Proof.
  intros Hwf Hl i j ku u kv v w Hlt Hi Hj.
  rewrite !(held_default _ _ _ Hl), !elem_of_pairs_events.
  split; split.
  - intros (_ & i' & j' & ku' & u' & kv' & v' & Hlt' & Hi' & Hj' & Hev).
    apply Hdir in Hev as [(Hu & Hv & Hf)|(Hu & Hv & Hb)].
    + assert (i = i') as <- by (eapply same_node; eassumption).
      assert (j = j') as <- by (eapply same_node; eassumption).
      rewrite Hi in Hi'. rewrite Hj in Hj'.
      injection Hi' as <- <-. injection Hj' as <- <-. done.
    + assert (i = j') as <- by (eapply same_node; eassumption).
      assert (j = i') as <- by (eapply same_node; eassumption).
      lia.
  - intros Hf. split; [by eapply node_key|].
    exists i, j, ku, u, kv, v. split_and!; try done. apply Hdir. auto.
  - intros (_ & i' & j' & ku' & u' & kv' & v' & Hlt' & Hi' & Hj' & Hev).
    apply Hdir in Hev as [(Hu & Hv & Hf)|(Hu & Hv & Hb)].
    + assert (j = i') as <- by (eapply same_node; eassumption).
      assert (i = j') as <- by (eapply same_node; eassumption).
      lia.
    + assert (i = i') as <- by (eapply same_node; eassumption).
      assert (j = j') as <- by (eapply same_node; eassumption).
      rewrite Hi in Hi'. rewrite Hj in Hj'.
      injection Hi' as <- <-. injection Hj' as <- <-. done.
  - intros Hb. split; [by eapply node_key|].
    exists i, j, ku, u, kv, v. split_and!; try done. apply Hdir. auto.
Qed.

End DirectedLoops.

Lemma mirrored_directed {N} (nid : N → string) pair_events linked weight :
  mirrored nid pair_events linked weight →
  directed nid pair_events
    (λ u v w, linked u v ∧ w = weight u v)
    (λ u v w, linked u v ∧ w = weight u v).
Proof.
  intros Hm u v a b w. specialize (Hm u v a b w). tauto.
Qed.

Lemma mirrored_swap {N} (nid : N → string) pair_events linked weight nodes
    a b w :
  mirrored nid pair_events linked weight →
  (a, (b, w)) ∈ pairs_events pair_events nodes →
  (b, (a, w)) ∈ pairs_events pair_events nodes.
Proof.
  intros Hm. rewrite !elem_of_pairs_events.
  intros (i & j & ku & u & kv & v & Hlt & Hi & Hj & Hev).
  exists i, j, ku, u, kv, v. split_and!; try done.
  apply Hm in Hev. apply Hm. tauto.
Qed.

(** ** The coverage builder: mode ['either'], keys, weights *)

Section IotMore.

Import Iot.

Variable euclid : Node → Node → Q.
Variable weight_fn : Node → Node → Q.

Lemma iot_either_directed :
  directed id (iot_pair_events euclid weight_fn "either")
    (λ u v w, euclid u v <= r u ∧ w = weight_fn u v)
    (λ u v w, euclid v u <= r v ∧ w = weight_fn v u).
Proof.
  intros u v a b w. unfold iot_pair_events, in_range.
  rewrite decide_False by done. rewrite elem_of_app, <- !Qle_bool_iff.
  apply Morphisms_Prop.or_iff_morphism.
  - destruct (Qle_bool (euclid u v) (r u)).
    + rewrite list_elem_of_singleton. split.
      * by intros [= -> -> ->].
      * by intros (-> & -> & _ & ->).
    + rewrite elem_of_nil. split; [done|]. by intros (_ & _ & ? & _).
  - destruct (Qle_bool (euclid v u) (r v)).
    + rewrite list_elem_of_singleton. split.
      * by intros [= -> -> ->].
      * by intros (-> & -> & _ & ->).
    + rewrite elem_of_nil. split; [done|]. by intros (_ & _ & ? & _).
Qed.

(** In either mode a pair appends edges between its two nodes, weighted by
    [weight_fn] or by its average over the two directions. *)
Lemma iot_known_directed mode :
  known_mode mode →
  ∃ fwd bwd,
    directed id (iot_pair_events euclid weight_fn mode) fwd bwd ∧
    ∀ u v w, fwd u v w ∨ bwd u v w →
             w = iot_avg weight_fn u v ∨ w = weight_fn u v ∨
             w = weight_fn v u.
Proof.
  intros [-> | ->].
  - eexists _, _. split.
    + eapply mirrored_directed, iot_both_mirrored.
    + cbn. intros u v w [[_ ->]|[_ ->]]; auto.
  - eexists _, _. split; [apply iot_either_directed|].
    cbn. intros u v w [[_ ->]|[_ ->]]; auto.
Qed.

Lemma iot_built mode nodes :
  known_mode mode → well_formed id nodes →
  ∃ adj, build_graph euclid nodes mode weight_fn = Ok adj ∧
         holds_events nodes.*1
           (pairs_events (iot_pair_events euclid weight_fn mode) nodes) adj.
Proof.
  intros Hmode Hwf. unfold build_graph.
  rewrite iot_outer_loop_events by done.
  destruct (iot_known_directed mode Hmode) as (fwd & bwd & Hdir & _).
  apply apply_events_empty. intros ev.
  apply pairs_events_keys with (nid := id); [|done].
  by eapply directed_local.
Qed.

Lemma iot_returned mode nodes adj :
  known_mode mode →
  build_graph euclid nodes mode weight_fn = Ok adj →
  (∀ ev, ev ∈ pairs_events (iot_pair_events euclid weight_fn mode) nodes →
         ev.1 ∈ nodes.*1) ∧
  holds_events nodes.*1
    (pairs_events (iot_pair_events euclid weight_fn mode) nodes) adj.
Proof.
  intros Hmode. unfold build_graph.
  rewrite iot_outer_loop_events by done. apply apply_events_inv.
Qed.

Lemma iot_well_built mode nodes adj :
  known_mode mode → well_formed id nodes →
  build_graph euclid nodes mode weight_fn = Ok adj →
  dom adj = list_to_set nodes.*1 ∧ Shortest.closed adj ∧ loop_free adj.
Proof.
  intros Hmode Hwf Hrun.
  destruct (iot_returned mode nodes adj Hmode Hrun) as [_ Hl].
  destruct (iot_known_directed mode Hmode) as (fwd & bwd & Hdir & _).
  split_and!.
  - by eapply held_dom.
  - eapply held_closed; [done|]. intros a b w Hev.
    by destruct (directed_event id _ fwd bwd Hdir nodes a b w Hwf Hev)
      as (_ & ? & _).
  - eapply held_loop_free; [done|]. intros a b w Hev.
    by destruct (directed_event id _ fwd bwd Hdir nodes a b w Hwf Hev)
      as (_ & _ & ? & _).
Qed.

Lemma iot_nonneg mode nodes adj :
  (∀ u v, 0 <= weight_fn u v) →
  build_graph euclid nodes mode weight_fn = Ok adj →
  Route.nonneg_weights adj.
Proof.
  intros Hw Hrun.
  destruct (decide (mode = "both"%string ∨ mode = "either"%string))
    as [Hmode|Hmode].
  - destruct (iot_returned mode nodes adj Hmode Hrun) as [_ Hl].
    destruct (iot_known_directed mode Hmode) as (fwd & bwd & Hdir & Hwt).
    eapply held_nonneg; [done|]. intros a b w
      (i & j & ku & u & kv & v & _ & _ & _ & Hev)%elem_of_pairs_events.
    apply Hdir in Hev.
    assert (fwd u v w ∨ bwd u v w) as Hfb by tauto.
    destruct (Hwt u v w Hfb) as [->|[->| ->]]; [|done..].
    unfold iot_avg. pose proof (Hw u v). pose proof (Hw v u). nra.
  - destruct (decide (length nodes ≤ 1)%nat) as [Hlen|Hlen].
    + rewrite iot_unknown_mode_small in Hrun by done. injection Hrun as <-.
      intros u nbrs v w Hu Hin. rewrite empty_adj_lookup in Hu.
      destruct (decide _); [|discriminate]. injection Hu as <-.
      by apply elem_of_nil in Hin.
    + rewrite iot_unknown_mode_large in Hrun by (done || lia). discriminate.
Qed.

End IotMore.

(** X12. In mode ['either'] of the coverage builder, for the nodes [u] before
    [v] of a well-formed dictionary: [v] is a neighbour of [u] exactly when it
    lies within the radius of [u], with weight [weight_fn u v], and [u] is a
    neighbour of [v] exactly when it lies within the radius of [v], with
    weight [weight_fn v u]. *)
Theorem build_graph_either_edges (euclid weight_fn : Iot.Node → Iot.Node → Q)
    (nodes : list (string * Iot.Node)) :
  well_formed Iot.id nodes →
  ∃ adj, Iot.build_graph euclid nodes "either" weight_fn = Ok adj ∧
    ∀ i j ku u kv v w,
      (i < j)%nat → nodes !! i = Some (ku, u) → nodes !! j = Some (kv, v) →
      ((Iot.id v, w) ∈ default [] (adj !! Iot.id u) ↔
         euclid u v <= Iot.r u ∧ w = weight_fn u v) ∧
      ((Iot.id u, w) ∈ default [] (adj !! Iot.id v) ↔
         euclid v u <= Iot.r v ∧ w = weight_fn v u).
Proof.
  intros Hwf.
  destruct (iot_built euclid weight_fn "either" nodes) as (adj & Hrun & Hl);
    [by right | done |].
  exists adj. split; [done|].
  exact (directed_edges Iot.id _ _ _ (iot_either_directed euclid weight_fn)
           nodes adj Hwf Hl).
Qed.

(** X13. For a well-formed node dictionary and a known mode, the graph of the
    coverage builder has the keys of the dictionary, every neighbour is one of
    these keys, and no node is its own neighbour. *)
Theorem build_graph_keys_closed (euclid weight_fn : Iot.Node → Iot.Node → Q)
    (nodes : list (string * Iot.Node)) (mode : string) :
  well_formed Iot.id nodes →
  mode = "both"%string ∨ mode = "either"%string →
  ∃ adj, Iot.build_graph euclid nodes mode weight_fn = Ok adj ∧
         dom adj = list_to_set nodes.*1 ∧
         Shortest.closed adj ∧ loop_free adj.
Proof.
  intros Hwf Hmode.
  destruct (iot_built euclid weight_fn mode nodes Hmode Hwf)
    as (adj & Hrun & _).
  exists adj. split; [done|]. by eapply iot_well_built.
Qed.

(** X14. A weight function without negative values gives a graph without
    negative weights, in every mode and for every node dictionary. *)
Theorem build_graph_nonneg_weights
    (euclid weight_fn : Iot.Node → Iot.Node → Q)
    (nodes : list (string * Iot.Node)) (mode : string)
    (adj : gmap string (list (string * Q))) :
  (∀ u v, 0 <= weight_fn u v) →
  Iot.build_graph euclid nodes mode weight_fn = Ok adj →
  Route.nonneg_weights adj.
Proof. apply iot_nonneg. Qed.

(** X15. The graph of mode ['both'] is undirected: [v] is a neighbour of [u]
    with weight [w] exactly when [u] is a neighbour of [v] with weight [w],
    whatever the node dictionary. *)
Theorem build_graph_both_undirected
    (euclid weight_fn : Iot.Node → Iot.Node → Q)
    (nodes : list (string * Iot.Node))
    (adj : gmap string (list (string * Q))) :
  Iot.build_graph euclid nodes "both" weight_fn = Ok adj →
  Shortest.symmetric adj.
Proof.
  intros Hrun.
  destruct (iot_returned euclid weight_fn "both" nodes adj) as [Hkeys Hl];
    [by left | done |].
  eapply held_symmetric; [done | done |].
  intros a b w. eapply mirrored_swap, iot_both_mirrored.
Qed.

(** ** The builder of dijistra2.py: keys, symmetry, missing radii *)

Section Dij2More.

Import Dij2.

Variable euclid : Node → Node → Q.
Variable weight_fn : Node → Node → Q.

(** What a returning run of the builder appended. *)
Lemma dij2_returned nodes mode paths undirected adj :
  build_graph euclid nodes mode paths undirected weight_fn = Ok adj →
  ∃ evs,
    (∀ ev, ev ∈ evs → ev.1 ∈ nodes.*1) ∧ holds_events nodes.*1 evs adj ∧
    ((mode = "paths"%string ∧
      ∃ ps, paths = Some ps ∧ Forall (λ p, ¬ dangling nodes p) ps ∧
            evs = flat_map (path_events undirected) ps) ∨
     (mode = "range"%string ∧
      evs = pairs_events (dij2_pair_events euclid weight_fn) nodes)).
Proof.
  unfold build_graph. cbv zeta.
  destruct (decide (mode = "paths"%string)) as [->|Hp].
  - destruct paths as [ps|]; [|discriminate]. intros Hrun.
    assert (Forall (λ p, ¬ dangling nodes p) ps) as Hall.
    { apply dec_stable. intros Hno.
      apply not_Forall_Exists in Hno; [|apply _].
      rewrite (paths_loop_dangling nodes undirected ps) in Hrun;
        [discriminate| |].
      - intros key Hkey. rewrite empty_adj_lookup.
        rewrite decide_True by done. eauto.
      - eapply Exists_impl; [exact Hno|]. intros p Hp. cbn in Hp.
        by apply dec_stable. }
    rewrite paths_loop_events in Hrun by done.
    apply apply_events_inv in Hrun as [Hkeys Hl].
    eexists. split_and!; [exact Hkeys | exact Hl |]. left. eauto.
  - destruct (decide (mode = "range"%string)) as [->|Hr]; [|discriminate].
    rewrite dij2_outer_loop_events. intros [Hkeys Hl]%apply_events_inv.
    eexists. split_and!; [exact Hkeys | exact Hl |]. right. eauto.
Qed.

Lemma path_events_swap ps a b w :
  (a, (b, w)) ∈ flat_map (path_events true) ps →
  (b, (a, w)) ∈ flat_map (path_events true) ps.
Proof.
  rewrite !list_elem_of_In, !in_flat_map.
  intros (p & Hp & Hev). exists p. split; [done|].
  apply list_elem_of_In in Hev. apply list_elem_of_In.
  unfold path_events in *.
  apply elem_of_cons in Hev as [[= -> -> ->]|Hev].
  - right. left.
  - apply list_elem_of_singleton in Hev. injection Hev as -> -> ->. left.
Qed.

Lemma path_events_target nodes undirected ps a b w :
  Forall (λ p, ¬ dangling nodes p) ps →
  (a, (b, w)) ∈ flat_map (path_events undirected) ps →
  b ∈ nodes.*1 ∧ ∃ p, p ∈ ps ∧ w = length p.
Proof.
  intros Hall Hin. apply list_elem_of_In, in_flat_map in Hin
    as (p & Hp%list_elem_of_In & Hev%list_elem_of_In).
  rewrite Forall_forall in Hall. pose proof (Hall p Hp) as Hgood.
  unfold dangling in Hgood.
  assert (start_id p ∈ nodes.*1 ∧ end_id p ∈ nodes.*1) as [Hs He].
  { split; apply dec_stable; tauto. }
  unfold path_events in Hev.
  apply elem_of_cons in Hev as [[= -> -> ->]|Hev]; [eauto|].
  destruct undirected; [|by apply elem_of_nil in Hev].
  apply list_elem_of_singleton in Hev. injection Hev as -> -> ->. eauto.
Qed.

Lemma dij2_well_built nodes mode paths undirected adj :
  build_graph euclid nodes mode paths undirected weight_fn = Ok adj →
  dom adj = list_to_set nodes.*1 ∧ Shortest.closed adj.
Proof.
  intros (evs & Hkeys & Hl & Hevs)%dij2_returned.
  split; [by eapply held_dom|]. eapply held_closed; [done|].
  intros a b w Hev.
  destruct Hevs as [(_ & ps & _ & Hall & ->)|(_ & ->)].
  - by destruct (path_events_target nodes undirected ps a b w Hall Hev).
  - eapply mirrored_swap in Hev; [|apply dij2_range_mirrored].
    exact (Hkeys _ Hev).
Qed.

Lemma dij2_symmetric nodes mode paths undirected adj :
  mode = "range"%string ∨ undirected = true →
  build_graph euclid nodes mode paths undirected weight_fn = Ok adj →
  Shortest.symmetric adj.
Proof.
  intros Hmode (evs & Hkeys & Hl & Hevs)%dij2_returned.
  eapply held_symmetric; [done | done |]. intros a b w Hev.
  destruct Hevs as [(-> & ps & _ & Hall & ->)|(_ & ->)].
  - destruct Hmode as [|Hu]; [done|]. subst undirected.
    by apply path_events_swap.
  - eapply mirrored_swap; [apply dij2_range_mirrored | done].
Qed.

Lemma dij2_nonneg nodes mode paths undirected adj :
  (∀ u v, 0 <= weight_fn u v) →
  (∀ ps p, paths = Some ps → p ∈ ps → 0 <= length p) →
  build_graph euclid nodes mode paths undirected weight_fn = Ok adj →
  Route.nonneg_weights adj.
Proof.
  intros Hw Hlen (evs & Hkeys & Hl & Hevs)%dij2_returned.
  eapply held_nonneg; [done|]. intros a b w Hev.
  destruct Hevs as [(_ & ps & Hps & Hall & ->)|(_ & ->)].
  - destruct (path_events_target nodes undirected ps a b w Hall Hev)
      as (_ & p & Hp & ->). by eapply Hlen.
  - apply elem_of_pairs_events in Hev
      as (i & j & ku & u & kv & v & _ & _ & _ & Hev).
    apply dij2_range_mirrored in Hev as (_ & -> & _).
    unfold dij2_avg. pose proof (Hw u v). pose proof (Hw v u). nra.
Qed.

(** A node without a radius takes part in no event. *)
Lemma dij2_no_radius nodes key n a b w :
  well_formed id nodes → (key, n) ∈ nodes → r n = None →
  (a, (b, w)) ∈ pairs_events (dij2_pair_events euclid weight_fn) nodes →
  a ≠ key ∧ b ≠ key.
Proof.
  intros Hwf Hn Hr
    (i & j & ku & u & kv & v & _ & Hi & Hj & Hev)%elem_of_pairs_events.
  apply list_elem_of_lookup in Hn as [k Hk].
  assert (id n = key) as Hid.
  { destruct Hwf as [_ Hid]. eapply Hid, list_elem_of_lookup_2, Hk. }
  apply dij2_range_mirrored in Hev
    as ((ru & rv & Hru & Hrv & _) & _ & Hab).
  assert (id u ≠ key) as Hu.
  { intros Heq. rewrite <- Hid in Heq.
    assert (i = k) as -> by (eapply same_node; eassumption).
    rewrite Hi in Hk. injection Hk as _ ->. congruence. }
  assert (id v ≠ key) as Hv.
  { intros Heq. rewrite <- Hid in Heq.
    assert (j = k) as -> by (eapply same_node; eassumption).
    rewrite Hj in Hk. injection Hk as _ ->. congruence. }
  destruct Hab as [[-> ->]|[-> ->]]; done.
Qed.

End Dij2More.

(** X16. Whenever the builder of dijistra2.py returns a graph, in either mode,
    its keys are the keys of the node dictionary and every neighbour is one of
    them. *)
Theorem dij2_build_graph_closed (euclid weight_fn : Dij2.Node → Dij2.Node → Q)
    (nodes : list (string * Dij2.Node)) (mode : string)
    (paths : option (list Dij2.Path)) (undirected : bool)
    (adj : gmap string (list (string * Q))) :
  Dij2.build_graph euclid nodes mode paths undirected weight_fn = Ok adj →
  dom adj = list_to_set nodes.*1 ∧ Shortest.closed adj.
Proof. apply dij2_well_built. Qed.

(** X17. The graph of mode ['range'], and the graph of mode ['paths'] built
    with [undirected=True], is undirected: [v] is a neighbour of [u] with
    weight [w] exactly when [u] is a neighbour of [v] with weight [w]. *)
Theorem dij2_build_graph_undirected
    (euclid weight_fn : Dij2.Node → Dij2.Node → Q)
    (nodes : list (string * Dij2.Node)) (mode : string)
    (paths : option (list Dij2.Path)) (undirected : bool)
    (adj : gmap string (list (string * Q))) :
  mode = "range"%string ∨ undirected = true →
  Dij2.build_graph euclid nodes mode paths undirected weight_fn = Ok adj →
  Shortest.symmetric adj.
Proof. apply dij2_symmetric. Qed.

(** X18. Weights of the graph of dijistra2.py are not negative when neither
    the weight function nor the length of a path record is. *)
Theorem dij2_build_graph_nonneg
    (euclid weight_fn : Dij2.Node → Dij2.Node → Q)
    (nodes : list (string * Dij2.Node)) (mode : string)
    (paths : option (list Dij2.Path)) (undirected : bool)
    (adj : gmap string (list (string * Q))) :
  (∀ u v, 0 <= weight_fn u v) →
  (∀ ps p, paths = Some ps → p ∈ ps → 0 <= Dij2.length p) →
  Dij2.build_graph euclid nodes mode paths undirected weight_fn = Ok adj →
  Route.nonneg_weights adj.
Proof. apply dij2_nonneg. Qed.

(** X19. In mode ['range'] a node whose radius is [None] is isolated: its
    neighbour list is empty and it is the neighbour of no node. *)
Theorem dij2_no_radius_isolated
    (euclid weight_fn : Dij2.Node → Dij2.Node → Q)
    (nodes : list (string * Dij2.Node)) (paths : option (list Dij2.Path))
    (undirected : bool) (key : string) (n : Dij2.Node) :
  well_formed Dij2.id nodes →
  (key, n) ∈ nodes → Dij2.r n = None →
  ∃ adj,
    Dij2.build_graph euclid nodes "range" paths undirected weight_fn
      = Ok adj ∧
    adj !! key = Some [] ∧
    ∀ u nbrs w, adj !! u = Some nbrs → (key, w) ∉ nbrs.
Proof.
  intros Hwf Hn Hr.
  destruct (dij2_range_edges euclid weight_fn nodes paths undirected Hwf)
    as (adj & Hrun & _).
  exists adj. split; [done|].
  destruct (dij2_returned euclid weight_fn nodes "range" paths undirected
              adj Hrun) as (evs & _ & Hl & [(? & _)|(_ & ->)]); [done|].
  split.
  - rewrite Hl. rewrite decide_True.
    + f_equal.
      destruct (edges_for _ key) as [|[b w] rest] eqn:Hedges; [done|].
      assert ((b, w) ∈ edges_for
                (pairs_events (dij2_pair_events euclid weight_fn) nodes) key)
        as Hin by (rewrite Hedges; left).
      apply elem_of_edges_for in Hin.
      by destruct (dij2_no_radius euclid weight_fn nodes key n key b w
                     Hwf Hn Hr Hin).
    + apply list_elem_of_fmap. by exists (key, n).
  - intros u nbrs w Hu Hin.
    destruct (held_edge _ _ _ Hl u nbrs key w Hu Hin) as [_ Hev].
    by destruct (dij2_no_radius euclid weight_fn nodes key n u key w
                   Hwf Hn Hr Hev).
Qed.

(** * The reroute service *)

Section RerouteRuns.

Import Iot Reroute.

Variable euclid : Node → Node → Q.
Variable weight_fn : Node → Node → Q.
Variable nodes : list (string * Node).
Variable mode : string.

Hypothesis Hwf : well_formed id nodes.
Hypothesis Hmode : known_mode mode.
Hypothesis Hweights : ∀ u v, 0 <= weight_fn u v.

(** Building the graph and searching it, for any set of banned nodes. *)
Lemma reroute_runs start goal banned :
  ∃ adj,
    build_graph euclid nodes mode weight_fn = Ok adj ∧
    dom adj = list_to_set nodes.*1 ∧
    (∃ fuel r, Dijkstra.dijkstra fuel adj start goal banned = Some r) ∧
    ∀ fuel r,
      Dijkstra.dijkstra fuel adj start goal banned = Some r →
      ∃ c p, r = Ok (c, p) ∧
        Forall (λ v, v ∈ nodes.*1 ∧ v ∉ default ∅ banned) p ∧
        ∀ c', Shortest.route adj (default ∅ banned) start goal c' →
              ∃ q, c = Fin q ∧ q <= c'.
Proof.
  destruct (iot_built euclid weight_fn mode nodes Hmode Hwf)
    as (adj & Hrun & _).
  destruct (iot_well_built euclid weight_fn mode nodes adj Hmode Hwf Hrun)
    as (Hdom & Hclosed & _).
  pose proof (iot_nonneg euclid weight_fn mode nodes adj Hweights Hrun)
    as Hnonneg.
  exists adj. split_and!; [done | done | |].
  - destruct (dijkstra_total adj start goal banned Hnonneg) as [r Hr]. eauto.
  - intros fuel [[c p]|e] Hr.
    + exists c, p. split_and!; [done | |].
      * eapply Forall_impl;
          [exact (dijkstra_allowed adj start goal banned Hnonneg fuel c p Hr)|].
        intros v [Hv ?]. rewrite Hdom, elem_of_list_to_set in Hv. done.
      * intros c' Hroute.
        exact (dijkstra_least adj start goal banned fuel c p c'
                 Hnonneg Hr Hroute).
    + by destruct (dijkstra_error_open adj start goal banned fuel e Hr).
Qed.

End RerouteRuns.


(** X21. [reroute_on_failure] under the same conditions: it raises nothing,
    the failed node is not on the returned sequence, and when the failed node
    is the start or the goal the answer is [(inf, [])]. *)
Theorem reroute_on_failure_avoids (euclid weight_fn : Iot.Node → Iot.Node → Q)
    (nodes : list (string * Iot.Node)) (start goal failed_id : string)
    (mode : string) (fuel : nat) (r : result (cost * list string)) :
  well_formed Iot.id nodes →
  mode = "both"%string ∨ mode = "either"%string →
  (∀ u v, 0 <= weight_fn u v) →
  Reroute.reroute_on_failure euclid fuel nodes start goal failed_id mode
    weight_fn = Some r →
  ∃ c p, r = Ok (c, p) ∧ (failed_id ∉ p) ∧
         (start = failed_id ∨ goal = failed_id → c = Inf ∧ p = []).
Proof.
  intros Hwf Hmode Hw.
  destruct (reroute_runs euclid weight_fn nodes mode Hwf Hmode Hw
              start goal (Some {[failed_id]}))
    as (adj & Hbuild & _ & _ & Hall).
  unfold Reroute.reroute_on_failure. rewrite Hbuild. intros Hr.
  destruct (Hall fuel r Hr) as (c & p & -> & Hp & _).
  exists c, p. split_and!; [done | |].
  - intros Hin. rewrite Forall_forall in Hp.
    destruct (Hp failed_id Hin) as [_ Hnb]. cbn in Hnb. set_solver.
  - intros Hfailed. unfold Dijkstra.dijkstra in Hr. cbv zeta in Hr.
    rewrite decide_True in Hr by (cbn; set_solver).
    by injection Hr as <- <-.
Qed.


(** * The path engine: more bans, simple routes *)

Lemma route_mono (adj : gmap string (list (string * Q)))
    (banned banned' : gset string) s t c :
  banned ⊆ banned' →
  Shortest.route adj banned' s t c → Shortest.route adj banned s t c.
Proof.
  intros Hsub Hroute.
  induction Hroute as [Hs Hb|t v w nbrs c Hroute IH Hadj Hin Hv Hb].
  - apply Shortest.route_here; [done | set_solver].
  - eapply Shortest.route_step; [exact IH | done | done | done | set_solver].
Qed.

(** X6. Banning more vertices never makes the answer cheaper: when the run
    with the larger set of banned vertices finds a route, so does the run with
    the smaller set, at no greater cost. *)
Theorem dijkstra_more_bans (adj : gmap string (list (string * Q)))
    (start goal : string) (banned banned' : option (gset string))
    (fuel fuel' : nat) (c c' : cost) (p p' : list string) (q' : Q) :
  Route.nonneg_weights adj →
  default ∅ banned ⊆ default ∅ banned' →
  Dijkstra.dijkstra fuel adj start goal banned = Some (Ok (c, p)) →
  Dijkstra.dijkstra fuel' adj start goal banned' = Some (Ok (c', p')) →
  c' = Fin q' →
  ∃ q, c = Fin q ∧ q <= q'.
Proof.
  intros Hnonneg Hsub Hrun Hrun' ->.
  destruct (dijkstra_verdict adj start goal banned' fuel' (Fin q') p'
              Hnonneg Hrun')
    as [(? & _)|(q0 & c0 & [= <-] & _ & Hroute & Hsame)]; [done|].
  apply (route_mono adj _ _ _ _ _ Hsub) in Hroute.
  destruct (dijkstra_least adj start goal banned fuel c p c0 Hnonneg Hrun
              Hroute) as (q & -> & Hle).
  exists q. split; [done|]. by rewrite <- Hsame.
Qed.

Section DijkstraSimple.

Import Dijkstra.

Variable adj : gmap string (list (string * Q)).
Variable start : string.
Variable banned : gset string.

(** The walk along the predecessor links goes through the relaxed
    vertices in the order in which they were relaxed. *)
Lemma walk_back_sublist m done cur st fuel :
  Inv adj start banned m done cur [] st →
  ∀ l1 v l2 acc res,
    done = l1 ++ v :: l2 →
    walk_back fuel (prev st) (Some v) acc = Some (Ok res) →
    ∃ L, res = acc ++ L ∧ L `sublist_of` v :: l2.
Proof.
  intros Hinv.
  induction fuel as [|fuel IH]; intros l1 v l2 acc res Hdone;
    cbn [walk_back]; [discriminate|].
  unfold subscript.
  destruct (prev st !! v) as [[u|]|] eqn:Hp; [| |discriminate].
  - intros Hwalk.
    pose proof (inv_order _ _ _ _ _ _ _ _ Hinv l1 v l2 u Hdone Hp) as Hu.
    apply list_elem_of_split in Hu as (l2a & l2b & ->).
    destruct (IH (l1 ++ v :: l2a) u l2b (acc ++ [v]) res)
      as (L & -> & Hsub); [by rewrite <- app_assoc | done |].
    exists (v :: L). split; [by rewrite <- app_assoc|].
    apply sublist_skip. by apply sublist_inserts_l.
  - intros Hwalk. exists [v]. split.
    + destruct fuel; cbn in Hwalk; by injection Hwalk as <-.
    + apply sublist_skip, sublist_nil_l.
Qed.

Lemma finish_simple m done cur st fuel goal c p :
  Inv adj start banned m done cur [] st →
  finish fuel goal st = Some (Ok (c, p)) → NoDup p.
Proof.
  intros Hinv. unfold finish, subscript.
  destruct (dist st !! goal) as [[c0|]|]; [| |discriminate].
  2: { intros [= <- <-]. constructor. }
  destruct (walk_back fuel (prev st) (Some goal) []) as [[path|e]|]
    eqn:Hwalk; [|discriminate..].
  intros [= <- <-]. rewrite reverse_Permutation.
  pose proof (inv_nodup _ _ _ _ _ _ _ _ Hinv) as Hnd.
  destruct (decide (goal ∈ done)) as [Hin|Hout].
  - apply list_elem_of_split in Hin as (l1 & l2 & Hdone).
    destruct (walk_back_sublist m done cur st fuel Hinv l1 goal l2 [] path
                Hdone Hwalk) as (L & -> & Hsub).
    cbn. eapply sublist_NoDup; [|exact Hsub].
    rewrite Hdone in Hnd. by apply NoDup_app in Hnd as (_ & _ & ?).
  - destruct fuel as [|fuel]; cbn [walk_back] in Hwalk; [discriminate|].
    unfold subscript in Hwalk.
    destruct (prev st !! goal) as [[u|]|] eqn:Hp; [| |discriminate].
    + destruct (inv_prev _ _ _ _ _ _ _ _ Hinv goal u Hp) as [Hu _].
      apply list_elem_of_split in Hu as (l1 & l2 & Hdone).
      destruct (walk_back_sublist m done cur st fuel Hinv l1 u l2 [goal]
                  path Hdone Hwalk) as (L & -> & Hsub).
      cbn. apply NoDup_cons. split.
      * intros HgL. apply Hout. rewrite Hdone.
        apply elem_of_app. right. by eapply elem_of_sublist.
      * eapply sublist_NoDup; [|exact Hsub].
        rewrite Hdone in Hnd. by apply NoDup_app in Hnd as (_ & _ & ?).
    + destruct fuel; cbn in Hwalk; injection Hwalk as <-;
        apply NoDup_singleton.
Qed.

End DijkstraSimple.

(** X7. The sequence returned by [dijkstra] visits no vertex twice. *)
Theorem dijkstra_route_simple (adj : gmap string (list (string * Q)))
    (start goal : string) (banned : option (gset string)) (fuel : nat)
    (c : cost) (p : list string) :
  Route.nonneg_weights adj →
  Dijkstra.dijkstra fuel adj start goal banned = Some (Ok (c, p)) →
  NoDup p.
Proof.
  intros Hnonneg Hrun.
  destruct (dijkstra_run adj start goal banned Hnonneg fuel c p Hrun)
    as [(_ & _ & ->)|(st & m & done & Hinv & _ & _ & _ & Hfin)].
  - constructor.
  - by eapply finish_simple.
Qed.

(** * The path engine on an undirected graph *)



(** * The further properties on concrete inputs *)

Lemma Qsqrt_down_nonneg q : 0 <= Qsqrt_down q.
Proof.
  unfold Qsqrt_down. rewrite Qred_correct. unfold Qle. cbn.
  rewrite Z.mul_1_r. apply Z.sqrt_nonneg.
Qed.

Lemma iot_euclid_nonneg u v : 0 <= iot_euclid u v.
Proof. apply Qsqrt_down_nonneg. Qed.

Lemma dij2_euclid_nonneg u v : 0 <= dij2_euclid u v.
Proof. apply Qsqrt_down_nonneg. Qed.


Lemma dijkstra_start_is_goal_witness :
  ("A"%string ∈ dom hop_graph) ∧
  ("A"%string ∉ default (∅ : gset string) (Some {["B"%string]})) ∧
  Dijkstra.dijkstra 1 hop_graph "A" "A" (Some {["B"%string]})
  = Some (Ok (Fin 0, ["A"%string])).
Proof.
  assert ("A"%string ∈ dom hop_graph) as Hdom
    by (apply (bool_decide_unpack _); vm_compute; reflexivity).
  assert ("A"%string ∉ default (∅ : gset string) (Some {["B"%string]}))
    as Hfree by (apply (bool_decide_unpack _); vm_compute; reflexivity).
  split; [exact Hdom|]. split; [exact Hfree|].
  exact (dijkstra_start_is_goal hop_graph 0 "A" (Some {["B"%string]})
           Hdom Hfree).
Defined.

Lemma dijkstra_raises_only_on_open_graph_witness :
  Dijkstra.dijkstra 5 open_graph "A" "B" None = Some (Err KeyError) ∧
  KeyError = KeyError ∧ ¬ Shortest.closed open_graph.
Proof.
  assert (Dijkstra.dijkstra 5 open_graph "A" "B" None = Some (Err KeyError))
    as Hrun by (vm_compute; reflexivity).
  split; [exact Hrun|].
  exact (dijkstra_raises_only_on_open_graph open_graph "A" "B" None 5
           KeyError Hrun).
Defined.


Lemma dijkstra_route_allowed_witness :
  Route.nonneg_weights hop_graph ∧
  Dijkstra.dijkstra 12 hop_graph "A" "D" (Some {["B"; "C"]}%string)
    = Some (Ok (Fin 3, ["A"; "F"; "E"; "D"]%string)) ∧
  Forall (λ v, v ∈ dom hop_graph ∧
               v ∉ default (∅ : gset string) (Some {["B"; "C"]}%string))
    ["A"; "F"; "E"; "D"]%string.
Proof.
  assert (Dijkstra.dijkstra 12 hop_graph "A" "D" (Some {["B"; "C"]}%string)
          = Some (Ok (Fin 3, ["A"; "F"; "E"; "D"]%string))) as Hrun
    by (vm_compute; reflexivity).
  split; [exact hop_graph_nonneg|]. split; [exact Hrun|].
  exact (dijkstra_route_allowed hop_graph "A" "D"
           (Some {["B"; "C"]}%string) 12 (Fin 3)
           ["A"; "F"; "E"; "D"]%string hop_graph_nonneg Hrun).
Defined.



Lemma find_pivots_no_budget_witness :
  (0 <= 0)%Z ∧
  Pivots.find_pivots 0 demo_edges demo_d_hat demo_S 0 (Fin 10)
  = Some (Ok (demo_S, demo_S)).
Proof.
  split; [lia|].
  apply (find_pivots_no_budget demo_edges demo_d_hat (Fin 10) 0 demo_S 0).
  lia.
Defined.

Lemma find_pivots_frontier_hops_witness :
  Pivots.find_pivots 7 demo_edges demo_d_hat demo_S 2 (Fin 10)
    = Some (Ok ({[0%Z]}, demo_W)) ∧
  (5%Z ∈ demo_W ↔
   ∃ n, (n ≤ Z.to_nat 2)%nat ∧
        Hops.hops demo_edges demo_d_hat (Fin 10) demo_S n 5%Z).
Proof.
  assert (Pivots.find_pivots 7 demo_edges demo_d_hat demo_S 2 (Fin 10)
          = Some (Ok ({[0%Z]}, demo_W))) as Hrun
    by (vm_compute; reflexivity).
  split; [exact Hrun|].
  exact (find_pivots_frontier_hops demo_edges demo_d_hat (Fin 10) 7 demo_S 2
           {[0%Z]} demo_W Hrun 5%Z).
Defined.

Lemma chain_forest_like :
  Hops.forest_like chain_edges chain_d_hat {[1%Z; 2%Z; 3%Z]}.
Proof.
  assert (∀ x y w, x ∈ ({[1%Z; 2%Z; 3%Z]} : gset Z) →
            (y, w) ∈ Pivots.edges_get chain_edges x → x = (y - 1)%Z) as Hone.
  { intros x y w Hx Hin. set_unfold in Hx.
    destruct Hx as [[->| ->]| ->].
    - assert (Pivots.edges_get chain_edges 1%Z = [(2%Z, 1)]) as Hl
        by (vm_compute; reflexivity).
      rewrite Hl in Hin. apply list_elem_of_singleton in Hin.
      by injection Hin as -> _.
    - assert (Pivots.edges_get chain_edges 2%Z = [(3%Z, 1)]) as Hl
        by (vm_compute; reflexivity).
      rewrite Hl in Hin. apply list_elem_of_singleton in Hin.
      by injection Hin as -> _.
    - assert (Pivots.edges_get chain_edges 3%Z = []) as Hl
        by (vm_compute; reflexivity).
      rewrite Hl in Hin. by apply elem_of_nil in Hin. }
  intros x x' y (Hx & _ & w & dx & dy & Hin & _)
    (Hx' & _ & w' & dx' & dy' & Hin' & _).
  rewrite (Hone x y w Hx Hin), (Hone x' y w' Hx' Hin'). reflexivity.
Qed.

Lemma find_pivots_few_pivots_witness :
  Hops.forest_like chain_edges chain_d_hat {[1%Z; 2%Z; 3%Z]} ∧
  Pivots.find_pivots 5 chain_edges chain_d_hat {[1%Z]} 3 (Fin 10)
    = Some (Ok ({[1%Z]}, {[1%Z; 2%Z; 3%Z]})) ∧
  (3 * Z.of_nat (size ({[1%Z]} : gset Z))
   ≤ Z.of_nat (size ({[1%Z; 2%Z; 3%Z]} : gset Z)))%Z.
Proof.
  assert (Pivots.find_pivots 5 chain_edges chain_d_hat {[1%Z]} 3 (Fin 10)
          = Some (Ok ({[1%Z]}, {[1%Z; 2%Z; 3%Z]}))) as Hrun
    by (vm_compute; reflexivity).
  split; [exact chain_forest_like|]. split; [exact Hrun|].
  exact (find_pivots_few_pivots 5 chain_edges chain_d_hat {[1%Z]} 3 (Fin 10)
           {[1%Z]} {[1%Z; 2%Z; 3%Z]} chain_forest_like Hrun).
Defined.

(** [A] sees [E], which does not see [A]. *)
Lemma build_graph_either_edges_witness :
  well_formed Iot.id base_nodes ∧
  ∃ adj, Iot.build_graph iot_euclid base_nodes "either" iot_euclid = Ok adj ∧
    ((("E"%string,
       iot_euclid (Iot.mkNode "A" 0 0 (7 # 2)) (Iot.mkNode "E" 2 2 2))
        ∈ default [] (adj !! "A"%string) ↔
      iot_euclid (Iot.mkNode "A" 0 0 (7 # 2)) (Iot.mkNode "E" 2 2 2)
        <= 7 # 2 ∧
      iot_euclid (Iot.mkNode "A" 0 0 (7 # 2)) (Iot.mkNode "E" 2 2 2)
      = iot_euclid (Iot.mkNode "A" 0 0 (7 # 2)) (Iot.mkNode "E" 2 2 2)) ∧
     (("A"%string,
       iot_euclid (Iot.mkNode "A" 0 0 (7 # 2)) (Iot.mkNode "E" 2 2 2))
        ∈ default [] (adj !! "E"%string) ↔
      iot_euclid (Iot.mkNode "E" 2 2 2) (Iot.mkNode "A" 0 0 (7 # 2))
        <= 2 ∧
      iot_euclid (Iot.mkNode "A" 0 0 (7 # 2)) (Iot.mkNode "E" 2 2 2)
      = iot_euclid (Iot.mkNode "E" 2 2 2) (Iot.mkNode "A" 0 0 (7 # 2)))).
Proof.
  split; [exact base_nodes_well_formed|].
  destruct (build_graph_either_edges iot_euclid iot_euclid base_nodes
              base_nodes_well_formed) as (adj & Hrun & Hedges).
  exists adj. split; [exact Hrun|].
  exact (Hedges 0%nat 4%nat "A"%string (Iot.mkNode "A" 0 0 (7 # 2))
           "E"%string (Iot.mkNode "E" 2 2 2)
           (iot_euclid (Iot.mkNode "A" 0 0 (7 # 2)) (Iot.mkNode "E" 2 2 2))
           ltac:(lia) eq_refl eq_refl).
Defined.

Lemma build_graph_keys_closed_witness :
  well_formed Iot.id base_nodes ∧
  ("either"%string = "both"%string ∨ "either"%string = "either"%string) ∧
  ∃ adj, Iot.build_graph iot_euclid base_nodes "either" iot_euclid = Ok adj ∧
         dom adj = list_to_set base_nodes.*1 ∧
         Shortest.closed adj ∧ loop_free adj.
Proof.
  split; [exact base_nodes_well_formed|].
  split; [right; reflexivity|].
  exact (build_graph_keys_closed iot_euclid iot_euclid base_nodes "either"
           base_nodes_well_formed (or_intror eq_refl)).
Defined.

Lemma build_graph_nonneg_weights_witness :
  (∀ u v, 0 <= iot_euclid u v) ∧
  ∃ adj, Iot.build_graph iot_euclid base_nodes "either" iot_euclid = Ok adj ∧
         Route.nonneg_weights adj.
Proof.
  split; [exact iot_euclid_nonneg|].
  assert (∃ adj, Iot.build_graph iot_euclid base_nodes "either" iot_euclid
                 = Ok adj) as [adj Hrun] by (vm_compute; eauto).
  exists adj. split; [exact Hrun|].
  exact (build_graph_nonneg_weights iot_euclid iot_euclid base_nodes "either"
           adj iot_euclid_nonneg Hrun).
Defined.

Lemma build_graph_both_undirected_witness :
  ∃ adj, Iot.build_graph iot_euclid base_nodes "both" iot_euclid = Ok adj ∧
         Shortest.symmetric adj.
Proof.
  assert (∃ adj, Iot.build_graph iot_euclid base_nodes "both" iot_euclid
                 = Ok adj) as [adj Hrun] by (vm_compute; eauto).
  exists adj. split; [exact Hrun|].
  exact (build_graph_both_undirected iot_euclid iot_euclid base_nodes adj
           Hrun).
Defined.

Lemma dij2_build_graph_closed_witness :
  ∃ adj,
    Dij2.build_graph dij2_euclid base_nodes2 "paths" (Some one_way) false
      dij2_euclid = Ok adj ∧
    dom adj = list_to_set base_nodes2.*1 ∧ Shortest.closed adj.
Proof.
  assert (∃ adj, Dij2.build_graph dij2_euclid base_nodes2 "paths"
                   (Some one_way) false dij2_euclid = Ok adj)
    as [adj Hrun] by (vm_compute; eauto).
  exists adj. split; [exact Hrun|].
  exact (dij2_build_graph_closed dij2_euclid dij2_euclid base_nodes2 "paths"
           (Some one_way) false adj Hrun).
Defined.

Lemma dij2_build_graph_undirected_witness :
  ("paths"%string = "range"%string ∨ true = true) ∧
  ∃ adj,
    Dij2.build_graph dij2_euclid base_nodes2 "paths" (Some one_way) true
      dij2_euclid = Ok adj ∧
    Shortest.symmetric adj.
Proof.
  split; [right; reflexivity|].
  assert (∃ adj, Dij2.build_graph dij2_euclid base_nodes2 "paths"
                   (Some one_way) true dij2_euclid = Ok adj)
    as [adj Hrun] by (vm_compute; eauto).
  exists adj. split; [exact Hrun|].
  exact (dij2_build_graph_undirected dij2_euclid dij2_euclid base_nodes2
           "paths" (Some one_way) true adj (or_intror eq_refl) Hrun).
Defined.

Lemma one_way_lengths ps p :
  Some one_way = Some ps → p ∈ ps → 0 <= Dij2.length p.
Proof.
  intros [= <-] Hp. apply list_elem_of_singleton in Hp. subst p. cbn.
  apply (bool_decide_unpack _). vm_compute. reflexivity.
Qed.

Lemma dij2_build_graph_nonneg_witness :
  (∀ u v, 0 <= dij2_euclid u v) ∧
  (∀ ps p, Some one_way = Some ps → p ∈ ps → 0 <= Dij2.length p) ∧
  ∃ adj,
    Dij2.build_graph dij2_euclid base_nodes2 "paths" (Some one_way) false
      dij2_euclid = Ok adj ∧
    Route.nonneg_weights adj.
Proof.
  split; [exact dij2_euclid_nonneg|]. split; [exact one_way_lengths|].
  assert (∃ adj, Dij2.build_graph dij2_euclid base_nodes2 "paths"
                   (Some one_way) false dij2_euclid = Ok adj)
    as [adj Hrun] by (vm_compute; eauto).
  exists adj. split; [exact Hrun|].
  exact (dij2_build_graph_nonneg dij2_euclid dij2_euclid base_nodes2 "paths"
           (Some one_way) false adj dij2_euclid_nonneg one_way_lengths Hrun).
Defined.

Lemma dij2_no_radius_isolated_witness :
  well_formed Dij2.id base_nodes2 ∧
  ("C"%string, Dij2.mkNode "C" 4 0 None) ∈ base_nodes2 ∧
  Dij2.r (Dij2.mkNode "C" 4 0 None) = None ∧
  ∃ adj,
    Dij2.build_graph dij2_euclid base_nodes2 "range" None false dij2_euclid
      = Ok adj ∧
    adj !! "C"%string = Some [] ∧
    ∀ u nbrs w, adj !! u = Some nbrs → ("C"%string, w) ∉ nbrs.
Proof.
  assert (("C"%string, Dij2.mkNode "C" 4 0 None) ∈ base_nodes2) as Hin
    by (unfold base_nodes2; set_solver).
  split; [exact base_nodes2_well_formed|]. split; [exact Hin|].
  split; [reflexivity|].
  exact (dij2_no_radius_isolated dij2_euclid dij2_euclid base_nodes2 None
           false "C" (Dij2.mkNode "C" 4 0 None) base_nodes2_well_formed
           Hin eq_refl).
Defined.


Lemma reroute_on_failure_avoids_witness :
  well_formed Iot.id base_nodes ∧
  ("both"%string = "both"%string ∨ "both"%string = "either"%string) ∧
  (∀ u v, 0 <= iot_euclid u v) ∧
  Reroute.reroute_on_failure iot_euclid 40 base_nodes "A" "D" "B" "both"
    iot_euclid = Some (Ok (Fin (48 # 8), ["A"; "F"; "E"; "D"]%string)) ∧
  ∃ c p, Ok (Fin (48 # 8), ["A"; "F"; "E"; "D"]%string) = Ok (c, p) ∧
         ("B"%string ∉ p) ∧
         ("A"%string = "B"%string ∨ "D"%string = "B"%string →
          c = Inf ∧ p = []).
Proof.
  assert (Reroute.reroute_on_failure iot_euclid 40 base_nodes "A" "D" "B"
            "both" iot_euclid
          = Some (Ok (Fin (48 # 8), ["A"; "F"; "E"; "D"]%string))) as Hrun
    by (vm_compute; reflexivity).
  split; [exact base_nodes_well_formed|]. split; [left; reflexivity|].
  split; [exact iot_euclid_nonneg|]. split; [exact Hrun|].
  exact (reroute_on_failure_avoids iot_euclid iot_euclid base_nodes "A" "D"
           "B" "both" 40 _ base_nodes_well_formed (or_introl eq_refl)
           iot_euclid_nonneg Hrun).
Defined.



Lemma dijkstra_more_bans_witness :
  Route.nonneg_weights hop_graph ∧
  (default (∅ : gset string) None
   ⊆ default ∅ (Some {["B"; "C"]}%string)) ∧
  Dijkstra.dijkstra 12 hop_graph "A" "D" None
    = Some (Ok (Fin 3, ["A"; "B"; "C"; "D"]%string)) ∧
  Dijkstra.dijkstra 12 hop_graph "A" "D" (Some {["B"; "C"]}%string)
    = Some (Ok (Fin 3, ["A"; "F"; "E"; "D"]%string)) ∧
  Fin 3 = Fin 3 ∧
  ∃ q, Fin 3 = Fin q ∧ q <= 3.
Proof.
  assert (default (∅ : gset string) None
          ⊆ default ∅ (Some {["B"; "C"]}%string)) as Hsub
    by (cbn; set_solver).
  assert (Dijkstra.dijkstra 12 hop_graph "A" "D" None
          = Some (Ok (Fin 3, ["A"; "B"; "C"; "D"]%string))) as Hrun
    by (vm_compute; reflexivity).
  assert (Dijkstra.dijkstra 12 hop_graph "A" "D" (Some {["B"; "C"]}%string)
          = Some (Ok (Fin 3, ["A"; "F"; "E"; "D"]%string))) as Hrun'
    by (vm_compute; reflexivity).
  split; [exact hop_graph_nonneg|]. split; [exact Hsub|].
  split; [exact Hrun|]. split; [exact Hrun'|]. split; [reflexivity|].
  exact (dijkstra_more_bans hop_graph "A" "D" None
           (Some {["B"; "C"]}%string) 12 12 (Fin 3) (Fin 3)
           ["A"; "B"; "C"; "D"]%string ["A"; "F"; "E"; "D"]%string 3
           hop_graph_nonneg Hsub Hrun Hrun' eq_refl).
Defined.

Lemma dijkstra_route_simple_witness :
  Route.nonneg_weights hop_graph ∧
  Dijkstra.dijkstra 12 hop_graph "A" "D" None
    = Some (Ok (Fin 3, ["A"; "B"; "C"; "D"]%string)) ∧
  NoDup ["A"; "B"; "C"; "D"]%string.
Proof.
  assert (Dijkstra.dijkstra 12 hop_graph "A" "D" None
          = Some (Ok (Fin 3, ["A"; "B"; "C"; "D"]%string))) as Hrun
    by (vm_compute; reflexivity).
  split; [exact hop_graph_nonneg|]. split; [exact Hrun|].
  exact (dijkstra_route_simple hop_graph "A" "D" None 12 (Fin 3)
           ["A"; "B"; "C"; "D"]%string hop_graph_nonneg Hrun).
Defined.



